(** * RBush: an n-dimensional R-tree (rbush.js), embedded and verified

    The development follows [src/rbush.js].  JavaScript numbers are modelled
    by [num]: integers with exact arithmetic, the two infinities and NaN.
    [undefined] read from an array in a numeric position is NaN, as the
    arithmetic and the comparisons of the source convert it.  A value that is
    [undefined] or [null] where the source indexes it raises [TypeError]. *)

From Stdlib Require Import ZArith List Bool Lia Permutation Arith.

Set Warnings "-register-all,-automation".
Import ListNotations.
Open Scope Z_scope.

(** ** Numbers *)

Inductive num : Type :=
| NaN : num
| NInf : num
| Fin (z : Z) : num
| PInf : num.

Definition num_eqb (a b : num) : bool :=
  match a, b with
  | NInf, NInf => true
  | PInf, PInf => true
  | Fin x, Fin y => Z.eqb x y
  | _, _ => false
  end.

(** [a < b] of the source: false as soon as one side is NaN. *)
Definition lt (a b : num) : bool :=
  match a, b with
  | NaN, _ | _, NaN => false
  | NInf, NInf => false
  | NInf, _ => true
  | Fin x, Fin y => Z.ltb x y
  | Fin _, PInf => true
  | Fin _, NInf => false
  | PInf, _ => false
  end.

Definition gt (a b : num) : bool := lt b a.

(** [a <= b] and [a === b]. *)
Definition le (a b : num) : bool := lt a b || num_eqb a b.
Definition strict_eq (a b : num) : bool := num_eqb a b.

Definition is_nan (a : num) : bool :=
  match a with NaN => true | _ => false end.

(** [Math.min] and [Math.max]: NaN as soon as one argument is NaN. *)
Definition js_min (a b : num) : num :=
  if is_nan a || is_nan b then NaN else if lt b a then b else a.

Definition js_max (a b : num) : num :=
  if is_nan a || is_nan b then NaN else if lt a b then b else a.

Definition neg (a : num) : num :=
  match a with
  | NaN => NaN
  | NInf => PInf
  | Fin z => Fin (- z)
  | PInf => NInf
  end.

Definition add (a b : num) : num :=
  match a, b with
  | NaN, _ | _, NaN => NaN
  | PInf, NInf | NInf, PInf => NaN
  | PInf, _ | _, PInf => PInf
  | NInf, _ | _, NInf => NInf
  | Fin x, Fin y => Fin (x + y)
  end.

Definition sub (a b : num) : num := add a (neg b).

Definition sgn (a : num) : Z :=
  match a with
  | NaN => 0
  | NInf => -1
  | Fin z => Z.sgn z
  | PInf => 1
  end.

Definition mul (a b : num) : num :=
  match a, b with
  | NaN, _ | _, NaN => NaN
  | Fin x, Fin y => Fin (x * y)
  | _, _ =>
      match sgn a * sgn b with
      | Z0 => NaN
      | Zpos _ => PInf
      | Zneg _ => NInf
      end
  end.

(** ** Arrays

    A read past the end gives the hole value; a write past the end grows the
    array and leaves holes, as a JavaScript array does. *)

Section JsArray.
Context {A : Type}.

Definition aget (hole : A) (l : list A) (i : nat) : A := nth i l hole.

Fixpoint aset (hole : A) (l : list A) (i : nat) (v : A) : list A :=
  match i, l with
  | O, [] => [v]
  | O, _ :: l' => v :: l'
  | S i', [] => hole :: aset hole [] i' v
  | S i', x :: l' => x :: aset hole l' i' v
  end.
End JsArray.

(** ** Bounding boxes: [2 * dim] numbers, minima first. *)

Definition box := list num.

Definition rd (a : box) (i : nat) : num := aget NaN a i.
Definition wr (a : box) (i : nat) (v : num) : box := aset NaN a i v.

(** ** Results of a call: a value, or an exception. *)

Inductive error : Type :=
| TypeError   (* a property of undefined or null was read *)
| OutOfFuel   (* the loop bound given to the model was too small *)
| OutOfModel. (* the source left the typed model (an array grew, an item sat among nodes) *)

Inductive result (A : Type) : Type :=
| Ok (a : A)
| Throw (e : error).
Arguments Ok {A} a.
Arguments Throw {A} e.

Definition rbind {A B} (m : result A) (f : A -> result B) : result B :=
  match m with
  | Ok a => f a
  | Throw e => Throw e
  end.

Notation "x <- m ;; k" := (rbind m (fun x => k))
  (at level 61, m at next level, right associativity).
Notation "' p <- m ;; k" := (rbind m (fun p => k))
  (at level 61, p pattern, m at next level, right associativity).

(** Loops whose body may throw. *)
Fixpoint foldM {A B} (f : A -> B -> result A) (l : list B) (a : A) : result A :=
  match l with
  | [] => Ok a
  | b :: l' => a' <- f a b ;; foldM f l' a'
  end.

(** The integers [lo, lo + 1, ..., hi - 1] of a counting loop. *)
Definition zrange (lo hi : Z) : list Z :=
  map (fun k => lo + Z.of_nat k) (seq 0 (Z.to_nat (hi - lo))).

(** [l[i]] for a JavaScript index: [undefined] outside the array. *)
Definition zget {A} (l : list A) (i : Z) : option A :=
  if i <? 0 then None else nth_error l (Z.to_nat i).

Definition len {A} (l : list A) : Z := Z.of_nat (length l).

(** [v[...]] for a value that may be undefined. *)
Definition defined {A} (o : option A) : result A :=
  match o with
  | Some a => Ok a
  | None => Throw TypeError
  end.

(** ** The geometry kernel *)

(** The [for (i = 0; i < dim; ++i)] loops, over [seq 0 dim]. *)
Definition axes (dim : nat) : list nat := seq 0 dim.

Definition extend (dim : nat) (a b : box) : box :=
  fold_left
    (fun a i =>
       let j := (dim + i)%nat in
       let a := wr a i (js_min (rd a i) (rd b i)) in
       wr a j (js_max (rd a j) (rd b j)))
    (axes dim) a.

Definition bboxArea (dim : nat) (a : box) : num :=
  fold_left
    (fun area i => let j := (dim + i)%nat in mul area (sub (rd a j) (rd a i)))
    (axes dim) (Fin 1).

Definition bboxMargin (dim : nat) (a : box) : num :=
  fold_left
    (fun margin i => let j := (dim + i)%nat in add margin (sub (rd a j) (rd a i)))
    (axes dim) (Fin 0).

Definition enlargedArea (dim : nat) (a b : box) : num :=
  fold_left
    (fun area i =>
       let j := (dim + i)%nat in
       mul area (sub (js_max (rd b j) (rd a j)) (js_min (rd b i) (rd a i))))
    (axes dim) (Fin 1).

(** The loop of [intersectionArea] leaves at the first axis where the area is 0. *)
Fixpoint intersectionArea_loop (dim : nat) (a b : box) (ixs : list nat) (area : num) : num :=
  match ixs with
  | [] => area
  | i :: ixs' =>
      let j := (dim + i)%nat in
      let area :=
        mul area (js_max (Fin 0) (sub (js_max (rd b i) (rd a i)) (js_min (rd b j) (rd a j)))) in
      if strict_eq area (Fin 0) then area else intersectionArea_loop dim a b ixs' area
  end.

Definition intersectionArea (dim : nat) (a b : box) : num :=
  intersectionArea_loop dim a b (axes dim) (Fin 1).

Definition contains (dim : nat) (a b : box) : bool :=
  forallb
    (fun i => let j := (dim + i)%nat in negb (gt (rd a i) (rd b i) || gt (rd b j) (rd a j)))
    (axes dim).

Definition intersects (dim : nat) (a b : box) : bool :=
  forallb
    (fun i => let j := (dim + i)%nat in negb (lt (rd a j) (rd b i) || lt (rd b j) (rd a i)))
    (axes dim).

(** ** The cache of empty boxes, [__empty__]

    [__empty__] is an array indexed by the dimension; an entry is a hole
    until [empty] filled it. *)

Definition cache := list (option box).

Definition cache_get (c : cache) (d : nat) : option box := aget None c d.

(** The creation branch of [empty]: a new array at [__empty__[d]], filled by the loop. *)
Definition empty_fill (d : nat) : box :=
  fold_left
    (fun e i => let e := wr e i PInf in wr e (d + i)%nat NInf)
    (axes d) [].

(** [empty(d)]: the value returned and the cache after the call.  The creation
    branch has no [return]: the call evaluates to [undefined]. *)
Definition empty (d : nat) (c : cache) : option box * cache :=
  match cache_get c d with
  | None => (None, aset None c d (Some (empty_fill d)))
  | Some e => (Some e, c)
  end.

(** With [d >= 1] the loops over the axes run, and a box that is [undefined]
    or [null] raises [TypeError] at its first index.  The constructor clamps
    the dimension to at least 2. *)
Definition extend_js (dim : nat) (a b : option box) : result (option box) :=
  a' <- defined a ;; b' <- defined b ;; Ok (Some (extend dim a' b')).

Definition intersects_js (dim : nat) (a b : option box) : result bool :=
  a' <- defined a ;; b' <- defined b ;; Ok (intersects dim a' b').

Definition contains_js (dim : nat) (a b : option box) : result bool :=
  a' <- defined a ;; b' <- defined b ;; Ok (contains dim a' b').

Definition bboxArea_js (dim : nat) (a : option box) : result num :=
  a' <- defined a ;; Ok (bboxArea dim a').

Definition bboxMargin_js (dim : nat) (a : option box) : result num :=
  a' <- defined a ;; Ok (bboxMargin dim a').

Definition enlargedArea_js (dim : nat) (a b : option box) : result num :=
  a' <- defined a ;; b' <- defined b ;; Ok (enlargedArea dim a' b').

Definition intersectionArea_js (dim : nat) (a b : option box) : result num :=
  a' <- defined a ;; b' <- defined b ;; Ok (intersectionArea dim a' b').

(** ** Calls that read or fill the cache of empty boxes *)

Definition M (A : Type) : Type := cache -> result (A * cache).

Definition ret {A} (a : A) : M A := fun c => Ok (a, c).

Definition mbind {A B} (m : M A) (f : A -> M B) : M B :=
  fun c =>
    match m c with
    | Ok (a, c') => f a c'
    | Throw e => Throw e
    end.

Definition lift {A} (r : result A) : M A :=
  fun c =>
    match r with
    | Ok a => Ok (a, c)
    | Throw e => Throw e
    end.

Notation "x <~ m ;; k" := (mbind m (fun x => k))
  (at level 61, m at next level, right associativity).
Notation "' p <~ m ;; k" := (mbind m (fun p => k))
  (at level 61, p pattern, m at next level, right associativity).

Definition empty_m (d : nat) : M (option box) := fun c => Ok (empty d c).

Fixpoint mfoldM {A B} (f : A -> B -> M A) (l : list B) (a : A) : M A :=
  match l with
  | [] => ret a
  | b :: l' => a' <~ f a b ;; mfoldM f l' a'
  end.

(** ** Items and nodes

    An item is the array of its [2 * dim] coordinates ([toBBox] is the
    identity and [compareMin] subtracts two coordinates, the defaults of the
    source); [item_id] stands for the identity of the object, which is what
    [indexOf] compares.  A node is [{children, height, bbox, leaf}]: [Leaf]
    is a node with [leaf: true], whose children are items; [Inner] one with
    [leaf: false], whose children are nodes.  [bbox] is [None] where the
    source holds [undefined] or [null]. *)

Record Item : Type := mkItem { item_id : nat; item_box : box }.

Definition toBBox (it : Item) : box := item_box it.

Definition compareMin (axis : nat) (a b : Item) : num :=
  sub (rd (item_box a) axis) (rd (item_box b) axis).

Definition same_item (a b : Item) : bool := Nat.eqb (item_id a) (item_id b).

Inductive node : Type :=
| Leaf (children : list Item) (height : Z) (bbox : option box)
| Inner (children : list node) (height : Z) (bbox : option box).

Definition height_of (n : node) : Z :=
  match n with Leaf _ h _ | Inner _ h _ => h end.

Definition bbox_of (n : node) : option box :=
  match n with Leaf _ _ b | Inner _ _ b => b end.

Definition set_bbox (n : node) (b : option box) : node :=
  match n with
  | Leaf ch h _ => Leaf ch h b
  | Inner ch h _ => Inner ch h b
  end.

Definition is_leaf (n : node) : bool :=
  match n with Leaf _ _ _ => true | Inner _ _ _ => false end.

(** [node.children.length] *)
Definition nchildren (n : node) : Z :=
  match n with Leaf ch _ _ => len ch | Inner ch _ _ => len ch end.

(** [compareNodeMin(axis, a, b)] *)
Definition compareNodeMin (axis : nat) (a b : node) : result num :=
  a' <- defined (bbox_of a) ;; b' <- defined (bbox_of b) ;;
  Ok (sub (rd a' axis) (rd b' axis)).

(** [node.leaf ? toBBox(child) : child.bbox] for [child = node.children[i]]. *)
Definition child_bbox (n : node) (i : Z) : result (option box) :=
  match n with
  | Leaf ch _ _ => Ok (option_map toBBox (zget ch i))
  | Inner ch _ _ => c <- defined (zget ch i) ;; Ok (bbox_of c)
  end.

(** [distBBox(dim, node, k, p, toBBox)] *)
Definition distBBox (dim : nat) (n : node) (k p : Z) : M (option box) :=
  e <~ empty_m dim ;;
  lift (foldM (fun bbox i => cb <- child_bbox n i ;; extend_js dim bbox cb) (zrange k p) e).

(** [calcBBox(dim, node, toBBox)] *)
Definition calcBBox (dim : nat) (n : node) : M node :=
  b <~ distBBox dim n 0 (nchildren n) ;; ret (set_bbox n b).

(** The tree object: [this._dimension], [this._maxEntries], [this._minEntries], [this.data]. *)
Record rbush_t : Type := mkRbush {
  _dimension : nat;
  _maxEntries : Z;
  _minEntries : Z;
  data : node
}.

Definition set_data (t : rbush_t) (n : node) : rbush_t :=
  mkRbush (_dimension t) (_maxEntries t) (_minEntries t) n.

(** ** Queries

    A stack ([nodesToSearch]) is a list whose head is the top: [push.apply]
    of the children leaves the last child on top. *)

Fixpoint all_loop (fuel : nat) (n : option node) (nodesToSearch : list node)
    (res : list Item) : result (list Item) :=
  match n with
  | None => Ok res
  | Some nd =>
      match fuel with
      | O => Throw OutOfFuel
      | S fuel' =>
          match nd with
          | Leaf ch _ _ =>
              all_loop fuel' (hd_error nodesToSearch) (tl nodesToSearch) (res ++ ch)
          | Inner ch _ _ =>
              let st := rev ch ++ nodesToSearch in
              all_loop fuel' (hd_error st) (tl st) res
          end
      end
  end.

(** [_all(node, result)] *)
Definition _all (fuel : nat) (n : node) (res : list Item) : result (list Item) :=
  all_loop fuel (Some n) [] res.

Section Search.
Variable dim : nat.
Variable bbox : box.

(** The body of the [for] loop of [search] at a node that is not a leaf. *)
Definition search_child (fuel : nat) (st : list node * list Item) (child : node)
    : result (list node * list Item) :=
  let '(nodesToSearch, res) := st in
  i <- intersects_js dim (Some bbox) (bbox_of child) ;;
  if i then
    c <- contains_js dim (Some bbox) (bbox_of child) ;;
    if c then res' <- _all fuel child res ;; Ok (nodesToSearch, res')
    else Ok (child :: nodesToSearch, res)
  else Ok st.

Fixpoint search_loop (fuel : nat) (n : option node) (nodesToSearch : list node)
    (res : list Item) : result (list Item) :=
  match n with
  | None => Ok res
  | Some nd =>
      match fuel with
      | O => Throw OutOfFuel
      | S fuel' =>
          match nd with
          | Leaf ch _ _ =>
              let res := res ++ filter (fun child => intersects dim bbox (toBBox child)) ch in
              search_loop fuel' (hd_error nodesToSearch) (tl nodesToSearch) res
          | Inner ch _ _ =>
              '(st, res) <- foldM (search_child fuel') ch (nodesToSearch, res) ;;
              search_loop fuel' (hd_error st) (tl st) res
          end
      end
  end.
End Search.

(** [search(bbox)] *)
Definition search (fuel : nat) (t : rbush_t) (bbox : box) : result (list Item) :=
  let node := data t in
  i <- intersects_js (_dimension t) (Some bbox) (bbox_of node) ;;
  if negb i then Ok []
  else search_loop (_dimension t) bbox fuel (Some node) [] [].

(** ** Insertion *)

(** What [_insert] appends: an item, or a subtree when [isNode] is set. *)
Inductive entry : Type :=
| EItem (it : Item)
| ENode (n : node).

(** [isNode ? item.bbox : toBBox(item)] *)
Definition entry_bbox (e : entry) : option box :=
  match e with
  | EItem it => Some (toBBox it)
  | ENode n => bbox_of n
  end.

(** The state of the [for] loop of [_chooseSubtree]: [minArea],
    [minEnlargement] and [targetNode] with its index. *)
Definition choose_step (dim : nat) (bbox : option box)
    (st : num * num * option (nat * node)) (ic : nat * node)
    : result (num * num * option (nat * node)) :=
  let '(minArea, minEnlargement, targetNode) := st in
  let '(i, child) := ic in
  area <- bboxArea_js dim (bbox_of child) ;;
  ea <- enlargedArea_js dim bbox (bbox_of child) ;;
  let enlargement := sub ea area in
  if lt enlargement minEnlargement then
    Ok (if lt area minArea then area else minArea, enlargement, Some (i, child))
  else if strict_eq enlargement minEnlargement then
    if lt area minArea then Ok (area, minEnlargement, Some (i, child))
    else Ok st
  else Ok st.

Definition choose_child (dim : nat) (bbox : option box) (ch : list node)
    : result (option (nat * node)) :=
  '(_, _, targetNode) <- foldM (choose_step dim bbox)
                           (combine (seq 0 (length ch)) ch) (PInf, PInf, None) ;;
  Ok targetNode.

(** [_chooseSubtree(bbox, node, level, path)]: the path, root first, and for
    each node of the path but the last the index of the next one among its
    children.  [targetNode] keeps its value from one round of the loop to the
    next: a round that chooses no child starts again at the same node if an
    earlier round chose one, which leaves the model, and reads [undefined.leaf]
    otherwise. *)
Fixpoint chooseSubtree (fuel : nat) (dim : nat) (bbox : option box) (n : node)
    (level : Z) (path : list node) (idxs : list nat) (chosen : bool)
    : result (list node * list nat) :=
  match fuel with
  | O => Throw OutOfFuel
  | S fuel' =>
      let path := path ++ [n] in
      match n with
      | Leaf _ _ _ => Ok (path, idxs)
      | Inner ch _ _ =>
          if len path - 1 =? level then Ok (path, idxs)
          else
            t <- choose_child dim bbox ch ;;
            match t with
            | Some (i, c) => chooseSubtree fuel' dim bbox c level path (idxs ++ [i]) true
            | None => Throw (if chosen then OutOfModel else TypeError)
            end
      end
  end.

(** [node.children.push(item)] *)
Definition push_child (n : node) (e : entry) : result node :=
  match n, e with
  | Leaf ch h b, EItem it => Ok (Leaf (ch ++ [it]) h b)
  | Inner ch h b, ENode c => Ok (Inner (ch ++ [c]) h b)
  | _, _ => Throw OutOfModel
  end.

Fixpoint replace_nth {A} (i : nat) (l : list A) (x : A) : list A :=
  match l, i with
  | [], _ => []
  | _ :: l', O => x :: l'
  | y :: l', S i' => y :: replace_nth i' l' x
  end.

Definition set_child (n : node) (i : nat) (c : node) : node :=
  match n with
  | Inner ch h b => Inner (replace_nth i ch c) h b
  | Leaf _ _ _ => n
  end.

(** The nodes of a path are shared with the tree: a change of [path[j]] is a
    change of the child of [path[j - 1]] it is, and so on up to the root.
    [write_through] stores [n'] at [path[j]] and in every ancestor. *)
Fixpoint write_through (path : list node) (idxs : list nat) (j : nat) (n' : node)
    : list node :=
  match path with
  | [] => []
  | p :: rest =>
      match j with
      | O => n' :: rest
      | S j' =>
          let rest' := write_through rest (tl idxs) j' n' in
          match idxs, rest' with
          | i :: _, c :: _ => set_child p i c :: rest'
          | _, _ => p :: rest'
          end
      end
  end.

(** [Array.prototype.sort] with a comparator: a stable insertion sort, [x]
    after every element that does not compare greater than it. *)
Fixpoint insert_sorted {A} (gtb : A -> A -> bool) (x : A) (l : list A) : list A :=
  match l with
  | [] => [x]
  | y :: l' => if gtb y x then x :: l else y :: insert_sorted gtb x l'
  end.

Definition sort_by {A} (gtb : A -> A -> bool) (l : list A) : list A :=
  fold_left (fun acc x => insert_sorted gtb x acc) l [].

(** [node.children.sort(compare.bind(node.children, axis))] with
    [compare = node.leaf ? this.compareMin : compareNodeMin]. *)
Definition keyed_step (axis : nat) (acc : list (num * node)) (c : node)
    : result (list (num * node)) :=
  k <- defined (bbox_of c) ;; Ok (acc ++ [(rd k axis, c)]).

Definition sort_children (axis : nat) (n : node) : result node :=
  match n with
  | Leaf ch h b =>
      Ok (Leaf (sort_by (fun x y => gt (compareMin axis x y) (Fin 0)) ch) h b)
  | Inner ch h b =>
      if (length ch <? 2)%nat then Ok n else
      keyed <- foldM (keyed_step axis) ch [] ;;
      Ok (Inner (map snd (sort_by (fun x y => gt (sub (fst x) (fst y)) (Fin 0)) keyed)) h b)
  end.

Section Split.
Variable t : rbush_t.
Let dim := _dimension t.

(** One round of the two loops of [_allDistMargin]: the box grows by the
    child at [i], and its margin is added. *)
Definition grow_margin (n : node) (st : option box * num) (i : Z)
    : result (option box * num) :=
  let '(b, margin) := st in
  cb <- child_bbox n i ;;
  b' <- extend_js dim b cb ;;
  g <- bboxMargin_js dim b' ;;
  Ok (b', add margin g).

(** [_allDistMargin(node, m, M, compare, axis)]: the margin, and the node
    with its children sorted. *)
Definition _allDistMargin (n : node) (m Mx : Z) (axis : nat) : M (num * node) :=
  n <~ lift (sort_children axis n) ;;
  leftBBox <~ distBBox dim n 0 m ;;
  rightBBox <~ distBBox dim n (Mx - m) Mx ;;
  ml <~ lift (bboxMargin_js dim leftBBox) ;;
  mr <~ lift (bboxMargin_js dim rightBBox) ;;
  '(_, margin) <~ lift (foldM (grow_margin n) (zrange m (Mx - m)) (leftBBox, add ml mr)) ;;
  '(_, margin) <~ lift (foldM (grow_margin n) (rev (zrange m (Mx - m))) (rightBBox, margin)) ;;
  ret (margin, n).

(** [margin <= bestMargin], where [bestMargin] starts as [Math.Infinity],
    a property [Math] does not have: [undefined], and the comparison with
    it is false. *)
Definition le_undef (a : num) (b : option num) : bool :=
  match b with
  | None => false
  | Some b' => le a b'
  end.

(** [_chooseSplitAxis(node, m, M)]: the node with its children as the
    sorts left them.  [axis_step] is one round of its loop; after the loop
    [a] is [this._dimension]. *)
Definition axis_step (m Mx : Z) (st : node * nat * option num) (a : nat)
    : M (node * nat * option num) :=
  let '(n, bestAxis, bestMargin) := st in
  '(margin, n) <~ _allDistMargin n m Mx a ;;
  if le_undef margin bestMargin then ret (n, a, Some margin)
  else ret (n, bestAxis, bestMargin).

Definition _chooseSplitAxis (n : node) (m Mx : Z) : M node :=
  '(n, bestAxis, _) <~ mfoldM (axis_step m Mx) (axes dim) (n, O, None) ;;
  let a := dim in
  if (a <? dim)%nat then lift (sort_children bestAxis n) else ret n.

(** [_chooseSplitIndex(node, m, M)]: [index], [undefined] if no round of
    the loop set it.  [index_step] is one round of its loop. *)
Definition index_step (n : node) (Mx : Z) (st : num * num * option Z) (i : Z)
    : M (num * num * option Z) :=
  let '(minOverlap, minArea, index) := st in
  bbox1 <~ distBBox dim n 0 i ;;
  bbox2 <~ distBBox dim n i Mx ;;
  overlap <~ lift (intersectionArea_js dim bbox1 bbox2) ;;
  a1 <~ lift (bboxArea_js dim bbox1) ;;
  a2 <~ lift (bboxArea_js dim bbox2) ;;
  let area := add a1 a2 in
  if lt overlap minOverlap then
    ret (overlap, if lt area minArea then area else minArea, Some i)
  else if strict_eq overlap minOverlap then
    if lt area minArea then ret (minOverlap, area, Some i) else ret st
  else ret st.

Definition _chooseSplitIndex (n : node) (m Mx : Z) : M (option Z) :=
  '(_, _, index) <~ mfoldM (index_step n Mx) (zrange m (Mx - m + 1)) (PInf, PInf, None) ;;
  ret index.

(** [node.children.splice(splitIndex, node.children.length - splitIndex)]:
    the node as the call leaves it, and the children removed.  With
    [splitIndex] undefined the count is NaN and nothing is removed. *)
Definition splice_from (n : node) (splitIndex : option Z) : result (node * node) :=
  match splitIndex with
  | None =>
      match n with
      | Leaf ch h b => Ok (n, Leaf [] h None)
      | Inner ch h b => Ok (n, Inner [] h None)
      end
  | Some i =>
      if i <? 0 then Throw OutOfModel
      else
        let k := Z.to_nat i in
        match n with
        | Leaf ch h b => Ok (Leaf (firstn k ch) h b, Leaf (skipn k ch) h None)
        | Inner ch h b => Ok (Inner (firstn k ch) h b, Inner (skipn k ch) h None)
        end
  end.

(** [_splitRoot(node, newNode)]: the new [this.data]. *)
Definition _splitRoot (n newNode : node) : M node :=
  calcBBox dim (Inner [n; newNode] (height_of n + 1) None).

(** [_split(insertPath, level)]: the path after the call and, when the root
    was split, the new [this.data]. *)
Definition _split (path : list node) (idxs : list nat) (level : Z)
    : M (list node * option node) :=
  n <~ lift (defined (zget path level)) ;;
  let Mx := nchildren n in
  let m := _minEntries t in
  n <~ _chooseSplitAxis n m Mx ;;
  splitIndex <~ _chooseSplitIndex n m Mx ;;
  '(n, newNode) <~ lift (splice_from n splitIndex) ;;
  n <~ calcBBox dim n ;;
  newNode <~ calcBBox dim newNode ;;
  let path := write_through path idxs (Z.to_nat level) n in
  if level =? 0 then
    root <~ _splitRoot n newNode ;; ret (path, Some root)
  else
    parent <~ lift (defined (zget path (level - 1))) ;;
    parent <~ lift (push_child parent (ENode newNode)) ;;
    ret (write_through path idxs (Z.to_nat (level - 1)) parent, None).

(** The loop of [_insert] that splits on overflow: the path, the level the
    loop stopped at and the new root if one was made. *)
Fixpoint split_loop (fuel : nat) (path : list node) (idxs : list nat) (level : Z)
    (root : option node) : M (list node * Z * option node) :=
  match fuel with
  | O => lift (Throw OutOfFuel)
  | S fuel' =>
      if level >=? 0 then
        n <~ lift (defined (zget path level)) ;;
        if nchildren n >? _maxEntries t then
          '(path, r) <~ _split path idxs level ;;
          split_loop fuel' path idxs (level - 1)
            (match r with Some _ => r | None => root end)
        else ret (path, level, root)
      else ret (path, level, root)
  end.

(** [_adjustParentBBoxes(bbox, path, level)], and one round of its loop. *)
Definition adjust_step (bbox : option box) (idxs : list nat) (path : list node) (i : Z)
    : result (list node) :=
  n <- defined (zget path i) ;;
  b <- extend_js dim (bbox_of n) bbox ;;
  Ok (write_through path idxs (Z.to_nat i) (set_bbox n b)).

Definition _adjustParentBBoxes (bbox : option box) (path : list node) (idxs : list nat)
    (level : Z) : result (list node) :=
  foldM (adjust_step bbox idxs) (rev (zrange 0 (level + 1))) path.

(** [_insert(item, level, isNode)]: the new [this.data]. *)
Definition _insert (fuel : nat) (item : entry) (level : Z) : M node :=
  let bbox := entry_bbox item in
  '(insertPath, idxs) <~ lift (chooseSubtree fuel dim bbox (data t) level [] [] false) ;;
  n <~ lift (defined (last (map Some insertPath) None)) ;;
  n <~ lift (push_child n item) ;;
  b <~ lift (extend_js dim (bbox_of n) bbox) ;;
  let insertPath :=
    write_through insertPath idxs (length insertPath - 1) (set_bbox n b) in
  '(insertPath, level, root) <~ split_loop fuel insertPath idxs level None ;;
  insertPath <~ lift (_adjustParentBBoxes bbox insertPath idxs level) ;;
  match root with
  | Some r => ret r
  | None => lift (defined (hd_error insertPath))
  end.
End Split.

(** [insert(item)]: [item] is [None] for a value that is not truthy. *)
Definition insert (fuel : nat) (item : option Item) (t : rbush_t) : M rbush_t :=
  match item with
  | Some it =>
      d <~ _insert t fuel (EItem it) (height_of (data t) - 1) ;;
      ret (set_data t d)
  | None => ret t
  end.

(** [clear()] *)
Definition clear (t : rbush_t) : M rbush_t :=
  e <~ empty_m (_dimension t) ;;
  ret (set_data t (Leaf [] 1 e)).

(** [rbush(maxEntries, format, dimension)] without a format: [maxEntries]
    and [dimension] are [None] when the argument is missing.
    [Math.ceil(this._maxEntries * 0.4)] is the ceiling of [2 * maxEntries / 5]. *)
Definition rbush (maxEntries dimension : option Z) : M rbush_t :=
  let dimension :=
    match dimension with
    | Some d => if (d =? 0) || (d <? 2) then 2 else d
    | None => 2
    end in
  let maxEntries :=
    Z.max 4 (match maxEntries with
             | Some m => if m =? 0 then 9 else m
             | None => 9
             end) in
  let minEntries := Z.max 2 ((2 * maxEntries + 4) / 5) in
  clear (mkRbush (Z.to_nat dimension) maxEntries minEntries (Leaf [] 1 None)).

(** ** Deletion *)

Fixpoint remove_nth {A} (i : nat) (l : list A) : list A :=
  match l, i with
  | [], _ => []
  | _ :: l', O => l'
  | y :: l', S i' => y :: remove_nth i' l'
  end.

(** [children.indexOf(item)]: the first index that holds the same object. *)
Fixpoint indexOf (item : Item) (l : list Item) : option nat :=
  match l with
  | [] => None
  | x :: l' => if same_item x item then Some O else option_map S (indexOf item l')
  end.

Definition last_opt {A} (l : list A) : option A := last (map Some l) None.

(** [siblings.splice(siblings.indexOf(path[i]), 1)]: node objects are not
    shared, so the index [indexOf] finds is the one the path went through. *)
Definition drop_child (n : node) (i : nat) : node :=
  match n with
  | Inner ch h b => Inner (remove_nth i ch) h b
  | Leaf _ _ _ => n
  end.

(** [_condense(path)], for [i] from [k - 1] down to 0: the new [this.data]. *)
Fixpoint _condense (t : rbush_t) (k : nat) (path : list node) (idxs : list nat) : M node :=
  match k with
  | O => lift (defined (hd_error path))
  | S i =>
      n <~ lift (defined (nth_error path i)) ;;
      if nchildren n =? 0 then
        match i with
        | S i' =>
            parent <~ lift (defined (nth_error path i')) ;;
            let parent := drop_child parent (nth i' idxs O) in
            _condense t i (write_through path idxs i' parent) idxs
        | O => t' <~ clear t ;; ret (data t')
        end
      else
        n <~ calcBBox (_dimension t) n ;;
        _condense t i (write_through path idxs i n) idxs
  end.

(** The index of [path[k + 1]] among the children of [path[k]]: what
    [indexes] and [i] hold. *)
Definition child_index (i : option Z) : result nat :=
  match i with
  | Some z => if z <? 0 then Throw OutOfModel else Ok (Z.to_nat z)
  | None => Throw OutOfModel
  end.

Fixpoint child_indexes (l : list (option Z)) : result (list nat) :=
  match l with
  | [] => Ok []
  | i :: l' => x <- child_index i ;; r <- child_indexes l' ;; Ok (x :: r)
  end.

Section Remove.
Variable t : rbush_t.
Variable item : Item.
Let dim := _dimension t.
Let bbox := toBBox item.

(** The traversal of [remove]: [None] when the loop ends with nothing
    found; the path down to the leaf that held the item, the item taken
    out, and the indexes along the path otherwise.  [i] and the entries of
    [indexes] are [None] where the source holds [undefined]. *)
Fixpoint remove_loop (fuel : nat) (n : option node) (path : list node)
    (indexes : list (option Z)) (i : option Z) (parent : option node)
    (goingUp : bool) : result (option (list node * list nat)) :=
  match fuel with
  | O => Throw OutOfFuel
  | S fuel' =>
      if match n with Some _ => true | None => negb (len path =? 0) end then
        (* go up *)
        '(n, path, indexes, i, parent, goingUp) <-
          match n with
          | Some nd => Ok (nd, path, indexes, i, parent, goingUp)
          | None =>
              nd <- defined (last_opt path) ;;
              let path := removelast path in
              Ok (nd, path, removelast indexes,
                  match last_opt indexes with Some x => x | None => None end,
                  last_opt path, true)
          end ;;
        let found :=
          match n with
          | Leaf ch h b =>
              match indexOf item ch with
              | Some index => Some (Leaf (remove_nth index ch) h b)
              | None => None
              end
          | Inner _ _ _ => None
          end in
        match found with
        | Some leaf =>
            idxs <- (if len path =? 0 then Ok [] else child_indexes (tl indexes ++ [i])) ;;
            let path := path ++ [n] in
            Ok (Some (write_through path idxs (length path - 1) leaf, idxs))
        | None =>
            down <-
              match goingUp, n with
              | false, Inner _ _ _ => contains_js dim (bbox_of n) (Some bbox)
              | _, _ => Ok false
              end ;;
            if down then
              match n with
              | Inner ch _ _ =>
                  remove_loop fuel' (zget ch 0) (path ++ [n]) (indexes ++ [i])
                    (Some 0) (Some n) goingUp
              | Leaf _ _ _ => Throw OutOfModel
              end
            else
              match parent with
              | Some (Inner ch _ _) =>
                  let i := option_map (fun z => z + 1) i in
                  remove_loop fuel' (match i with Some z => zget ch z | None => None end)
                    path indexes i parent false
              | Some (Leaf _ _ _) => Throw OutOfModel
              | None => remove_loop fuel' None path indexes i parent goingUp
              end
        end
      else Ok None
  end.
End Remove.

(** [remove(item)]: [item] is [None] for a value that is not truthy. *)
Definition remove (fuel : nat) (item : option Item) (t : rbush_t) : M rbush_t :=
  match item with
  | None => ret t
  | Some it =>
      r <~ lift (remove_loop t it fuel (Some (data t)) [] [] None None false) ;;
      match r with
      | None => ret t
      | Some (path, idxs) =>
          d <~ _condense t (length path) path idxs ;;
          ret (set_data t d)
      end
  end.

(** ** The partial-sort selector *)

(** [swap(arr, i, j)]: an index outside the array would grow it, which
    leaves the model. *)
Definition swap (arr : list Item) (i j : Z) : result (list Item) :=
  match zget arr i, zget arr j with
  | Some x, Some y =>
      Ok (replace_nth (Z.to_nat j) (replace_nth (Z.to_nat i) arr y) x)
  | _, _ => Throw OutOfModel
  end.

(** [compare(axis, arr[i], t)] with [compare = compareMin]: [undefined[axis]]
    raises [TypeError]. *)
Definition compare_at (axis : nat) (arr : list Item) (i : Z) (t : Item) : result num :=
  x <- defined (zget arr i) ;; Ok (compareMin axis x t).

(** [Math.ceil(a / b)] for integers [a] and [b > 0]. *)
Definition cdiv (a b : Z) : Z := (a + b - 1) / b.

Section Select.
(** The bounds the Floyd-Rivest step computes in floating point from
    [left], [right] and [k], before [Math.max(left, ...)] and
    [Math.min(right, ...)]: the two values of
    [Math.floor(k - i * s / n + sd)] and [Math.floor(k + (n - i) * s / n + sd)]. *)
Variable narrow : Z -> Z -> Z -> Z * Z.
Variable axis : nat.

(** [while (compare(axis, arr[i], t) < 0) i++] *)
Fixpoint scan_up (fuel : nat) (arr : list Item) (t : Item) (i : Z) : result Z :=
  match fuel with
  | O => Throw OutOfFuel
  | S fuel' =>
      c <- compare_at axis arr i t ;;
      if lt c (Fin 0) then scan_up fuel' arr t (i + 1) else Ok i
  end.

(** [while (compare(axis, arr[j], t) > 0) j--] *)
Fixpoint scan_down (fuel : nat) (arr : list Item) (t : Item) (j : Z) : result Z :=
  match fuel with
  | O => Throw OutOfFuel
  | S fuel' =>
      c <- compare_at axis arr j t ;;
      if gt c (Fin 0) then scan_down fuel' arr t (j - 1) else Ok j
  end.

(** [while (i < j) { swap(arr, i, j); i++; j--; ... }] *)
Fixpoint partition (fuel : nat) (arr : list Item) (t : Item) (i j : Z)
    : result (list Item * Z * Z) :=
  match fuel with
  | O => Throw OutOfFuel
  | S fuel' =>
      if i <? j then
        arr <- swap arr i j ;;
        i <- scan_up fuel' arr t (i + 1) ;;
        j <- scan_down fuel' arr t (j - 1) ;;
        partition fuel' arr t i j
      else Ok (arr, i, j)
  end.

(** [select(arr, left, right, k, compare, axis)] *)
Fixpoint select (fuel : nat) (arr : list Item) (left right k : Z) : result (list Item) :=
  match fuel with
  | O => Throw OutOfFuel
  | S fuel' =>
      if right >? left then
        arr <- (if right - left >? 600 then
                  let '(lo, hi) := narrow left right k in
                  select fuel' arr (Z.max left lo) (Z.min right hi) k
                else Ok arr) ;;
        t <- defined (zget arr k) ;;
        arr <- swap arr left k ;;
        c <- compare_at axis arr right t ;;
        arr <- (if gt c (Fin 0) then swap arr left right else Ok arr) ;;
        '(arr, i, j) <- partition fuel' arr t left right ;;
        c <- compare_at axis arr left t ;;
        '(arr, j) <- (if strict_eq c (Fin 0) then
                        arr <- swap arr left j ;; Ok (arr, j)
                      else
                        arr <- swap arr (j + 1) right ;; Ok (arr, j + 1)) ;;
        let left := if j <=? k then j + 1 else left in
        let right := if k <=? j then j - 1 else right in
        select fuel' arr left right k
      else Ok arr
  end.

(** [multiSelect(arr, left, right, n, compare, axis)]: the stack holds
    [left] under [right], the top first. *)
Fixpoint multiSelect_loop (fuel : nat) (arr : list Item) (stack : list Z) (n : Z)
    : result (list Item) :=
  match fuel with
  | O => Throw OutOfFuel
  | S fuel' =>
      match stack with
      | [] => Ok arr
      | r :: l :: stack =>
          if r - l <=? n then multiSelect_loop fuel' arr stack n
          else
            let mid := l + cdiv (r - l) (2 * n) * n in
            arr <- select fuel' arr l r mid ;;
            multiSelect_loop fuel' arr (r :: mid :: mid :: l :: stack) n
      | [_] => Throw OutOfModel
      end
  end.

Definition multiSelect (fuel : nat) (arr : list Item) (left right n : Z)
    : result (list Item) :=
  multiSelect_loop fuel arr [right; left] n.
End Select.

(** ** Bulk loading *)

(** [Math.ceil(Math.log(N) / Math.log(M))] read over the reals: the least
    [h] with [N <= M ^ h].  The value computed in floating point is a
    parameter of [_build]; this is what it stands for. *)
Fixpoint ceil_log_loop (fuel : nat) (N Mx p h : Z) : Z :=
  match fuel with
  | O => h
  | S fuel' => if N <=? p then h else ceil_log_loop fuel' N Mx (p * Mx) (h + 1)
  end.

Definition ceil_log (N Mx : Z) : Z := ceil_log_loop (Z.to_nat N) N Mx 1 0.

(** [items.slice(left, right + 1)] for [left >= 0]. *)
Definition slice {A} (l : list A) (lo hi : Z) : list A :=
  firstn (Z.to_nat (hi - lo)) (skipn (Z.to_nat lo) l).

Section Build.
Variable narrow : Z -> Z -> Z -> Z * Z.
(** [Math.ceil(Math.log(N) / Math.log(M))] as the floating-point unit
    computes it from [N] and [M]. *)
Variable log_ceil : Z -> Z -> Z.
Variable t : rbush_t.
Let dim := _dimension t.

(** [_build(items, left, right, height)] with its closure [buildAxis] and
    the [for] loop of [buildAxis]: each returns the array [items] as it
    left it; [_build] returns the node, the other two the children pushed
    so far to the node under construction. *)
Fixpoint _build (fuel : nat) (items : list Item) (left right height : Z)
    : M (list Item * node) :=
  match fuel with
  | O => lift (Throw OutOfFuel)
  | S fuel' =>
      let N := right - left + 1 in
      let Mx := _maxEntries t in
      if N <=? Mx then
        if left <? 0 then lift (Throw OutOfModel)
        else
          n <~ calcBBox dim (Leaf (slice items left (right + 1)) 1 None) ;;
          ret (items, n)
      else
        let '(height, Mx) :=
          if height =? 0 then
            let height := log_ceil N Mx in
            (height, cdiv N (Mx ^ (height - 1)))
          else (height, Mx) in
        let N2 := cdiv N Mx in
        let N1 := N2 * Z.sqrt_up Mx in
        '(items, children) <~ buildAxis fuel' items [] height O left right N1 N2 ;;
        n <~ calcBBox dim (Inner children height None) ;;
        ret (items, n)
  end
with buildAxis (fuel : nat) (items : list Item) (children : list node) (height : Z)
    (axis : nat) (left right N1 N2 : Z) : M (list Item * list node) :=
  match fuel with
  | O => lift (Throw OutOfFuel)
  | S fuel' =>
      items <~ lift (multiSelect narrow axis fuel' items left right N1) ;;
      buildAxis_loop fuel' items children height axis left right N1 N2
  end
with buildAxis_loop (fuel : nat) (items : list Item) (children : list node) (height : Z)
    (axis : nat) (i right N1 N2 : Z) : M (list Item * list node) :=
  match fuel with
  | O => lift (Throw OutOfFuel)
  | S fuel' =>
      if i <=? right then
        let newRight := Z.min (i + N1 - 1) right in
        '(items, children) <~
          (if (axis + 1 <? dim)%nat then
             buildAxis fuel' items children height (axis + 1) i newRight N2 N1
           else
             '(items, n) <~ _build fuel' items i newRight (height - 1) ;;
             ret (items, children ++ [n])) ;;
        buildAxis_loop fuel' items children height axis (i + N1) right N1 N2
      else ret (items, children)
  end.

(** [load(data)]: the new [this.data]. *)
Definition load_data (fuel : nat) (data_ : list Item) : M node :=
  '(_, n) <~ _build fuel data_ 0 (len data_ - 1) 0 ;;
  if nchildren (data t) =? 0 then ret n
  else if height_of (data t) =? height_of n then _splitRoot t (data t) n
  else
    let '(big, small) :=
      if height_of (data t) <? height_of n then (n, data t) else (data t, n) in
    _insert (set_data t big) fuel (ENode small) (height_of big - height_of small - 1).
End Build.

(** [load(data)] *)
Definition load (narrow : Z -> Z -> Z -> Z * Z) (log_ceil : Z -> Z -> Z) (fuel : nat)
    (data_ : list Item) (t : rbush_t) : M rbush_t :=
  if len data_ =? 0 then ret t
  else if len data_ <? _minEntries t then
    mfoldM (fun t item => insert fuel (Some item) t) data_ t
  else
    d <~ load_data narrow log_ceil t fuel data_ ;;
    ret (set_data t d).


(** * The other queries, and the export of the tree *)

(** [all()] *)
Definition all (fuel : nat) (t : rbush_t) : result (list Item) :=
  _all fuel (data t) [].

Section Collides.
Variable dim : nat.
Variable bbox : box.

(** The [for] loop of [collides] at a node that is not a leaf, from the
    children [ch] on: [true] when it returns [true] from inside the loop,
    and the stack as the loop leaves it otherwise. *)
Fixpoint collides_children (ch : list node) (nodesToSearch : list node)
    : result (bool * list node) :=
  match ch with
  | [] => Ok (false, nodesToSearch)
  | child :: ch' =>
      i <- intersects_js dim (Some bbox) (bbox_of child) ;;
      if i then
        c <- contains_js dim (Some bbox) (bbox_of child) ;;
        if c then Ok (true, nodesToSearch)
        else collides_children ch' (child :: nodesToSearch)
      else collides_children ch' nodesToSearch
  end.

Fixpoint collides_loop (fuel : nat) (n : option node) (nodesToSearch : list node)
    : result bool :=
  match n with
  | None => Ok false
  | Some nd =>
      match fuel with
      | O => Throw OutOfFuel
      | S fuel' =>
          match nd with
          | Leaf ch _ _ =>
              if existsb (fun child => intersects dim bbox (toBBox child)) ch then Ok true
              else collides_loop fuel' (hd_error nodesToSearch) (tl nodesToSearch)
          | Inner ch _ _ =>
              '(found, st) <- collides_children ch nodesToSearch ;;
              if found then Ok true
              else collides_loop fuel' (hd_error st) (tl st)
          end
      end
  end.
End Collides.

(** [collides(bbox)] *)
Definition collides (fuel : nat) (t : rbush_t) (bbox : box) : result bool :=
  let node := data t in
  i <- intersects_js (_dimension t) (Some bbox) (bbox_of node) ;;
  if negb i then Ok false
  else collides_loop (_dimension t) bbox fuel (Some node) [].




(** * Specifications *)

(** ** The selector *)

(** The coordinate [compareMin] reads, and its value when it is an integer. *)
Definition key (axis : nat) (it : Item) : num := rd (item_box it) axis.

Definition zkey (axis : nat) (it : Item) : Z :=
  match key axis it with
  | Fin z => z
  | _ => 0
  end.

Definition has_key (axis : nat) (it : Item) : Prop := exists z, key axis it = Fin z.

Definition dflt_item : Item := mkItem 0 [].

(** [arr[i]] for an index inside the array. *)
Definition nthZ (arr : list Item) (i : Z) : Item := nth (Z.to_nat i) arr dflt_item.

(** The one property of the floating-point bounds the termination of
    [select] rests on: clamped to [left .. right], they leave a range that is
    shorter than [left .. right]. *)
Definition narrow_ok (narrow : Z -> Z -> Z -> Z * Z) : Prop :=
  forall left right k,
    right - left > 600 ->
    Z.min right (snd (narrow left right k)) - Z.max left (fst (narrow left right k))
    < right - left.

(** [arr'] holds the elements of [arr], has its length, and differs from it
    inside [lo .. hi] only. *)
Definition permuted_within (lo hi : Z) (arr arr' : list Item) : Prop :=
  length arr' = length arr /\
  Permutation arr' arr /\
  forall i, (i < lo \/ hi < i) -> zget arr' i = zget arr i.

(** [compare(axis, a, b) <= 0] *)
Definition cmp_le (axis : nat) (a b : Item) : Prop :=
  le (compareMin axis a b) (Fin 0) = true.

(** What [select] promises for [k] in [left .. right]. *)
Definition selected (axis : nat) (left right k : Z) (arr' : list Item) : Prop :=
  (forall i, left <= i < k -> cmp_le axis (nthZ arr' i) (nthZ arr' k)) /\
  (forall i, k < i <= right -> cmp_le axis (nthZ arr' k) (nthZ arr' i)).

(** The state of the loop of [select] between two rounds of [partition]:
    what lies left of [i] is at most the pivot, what lies right of [j] at
    least, and the scans stopped at [i] and [j]. *)
Definition part_inv (axis : nat) (left right tz : Z) (arr : list Item) (i j : Z) : Prop :=
  left < i <= right /\ left <= j < right /\
  (forall x, left <= x < i -> zkey axis (nthZ arr x) <= tz) /\
  (forall x, j < x <= right -> tz <= zkey axis (nthZ arr x)) /\
  tz <= zkey axis (nthZ arr i) /\ zkey axis (nthZ arr j) <= tz.

(** The state of [select] between two rounds of its outer loop. *)
Definition select_inv (axis : nat) (lo hi : Z) (arr : list Item) (left right k : Z) : Prop :=
  lo <= left /\ right <= hi /\
  (left <= k <= right \/ (left = k + 1 /\ right = k - 1)) /\
  (forall a b, lo <= a < left -> left <= b <= hi ->
     zkey axis (nthZ arr a) <= zkey axis (nthZ arr b)) /\
  (forall a b, lo <= a <= right -> right < b <= hi ->
     zkey axis (nthZ arr a) <= zkey axis (nthZ arr b)).

(** The stack of [multiSelect]: pairs [left], [right] inside [lo .. hi]. *)
Inductive stack_ok (lo hi : Z) : list Z -> Prop :=
| stack_nil : stack_ok lo hi []
| stack_pair r l st :
    lo <= l -> l <= r -> r <= hi -> stack_ok lo hi st -> stack_ok lo hi (r :: l :: st).

(** The rounds the loop of [multiSelect] still has to run. *)
Fixpoint stack_measure (st : list Z) : nat :=
  match st with
  | r :: l :: st' => Z.to_nat (Z.max 1 (2 * (r - l) - 1)) + stack_measure st'
  | _ => O
  end.

(** ** Trees *)

(** The items under a node, leaf by leaf from the left. *)
Fixpoint all_items (n : node) : list Item :=
  match n with
  | Leaf ch _ _ => ch
  | Inner ch _ _ => flat_map all_items ch
  end.


(** Every node that is not a leaf has a [bbox]. *)
Inductive inner_defined : node -> Prop :=
| inner_defined_leaf ch h b : inner_defined (Leaf ch h b)
| inner_defined_inner ch h b :
    Forall inner_defined ch -> inner_defined (Inner ch h (Some b)).

(** ** Concrete inputs used by the examples *)

(** The point [(x, y)] as an item of a two-dimensional tree. *)
Definition point (id : nat) (x y : Z) : Item := mkItem id [Fin x; Fin y; Fin x; Fin y].

(** The cache after [empty(2)] was called once. *)
Definition warm2 : cache := [None; None; Some [PInf; PInf; NInf; NInf]].

(** A tree object with [maxEntries = 4] in two dimensions, as the
    constructor builds it once the cache is filled. *)
Definition tree4 : rbush_t := mkRbush 2 4 2 (Leaf [] 1 (Some [PInf; PInf; NInf; NInf])).

(** Five points whose total margin is 24 along x and 45 along y. *)
Definition five_points : list Item :=
  [point 1 0 0; point 2 10 1; point 3 1 2; point 4 11 3; point 5 2 4].

Definition overfull_leaf : node := Leaf five_points 1 (Some [Fin 0; Fin 0; Fin 11; Fin 4]).

(** Bounds for [select] that stand for any floating-point result: the range
    they leave is [k .. k]. *)
Definition narrow_to_k (left right k : Z) : Z * Z := (k, k).

(** ** Boxes *)

Definition finite (a : num) : Prop := exists z, a = Fin z.

Definition not_nan (a : num) : Prop := a <> NaN.

(** A box of the right length without NaN, and one with integer coordinates. *)
Definition clean (d : nat) (b : box) : Prop :=
  length b = (2 * d)%nat /\ Forall not_nan b.

Definition fbox (d : nat) (b : box) : Prop :=
  length b = (2 * d)%nat /\ Forall finite b.

(** The box [empty] is meant to return. *)
Definition empty_box (d : nat) : box := repeat PInf d ++ repeat NInf d.

(** The union of a list of boxes, as [distBBox] accumulates it. *)
Definition union (d : nat) (bs : list box) : box := fold_left (extend d) bs (empty_box d).

(** The least and the greatest of a list of numbers. *)
Definition min_list (l : list num) : num := fold_right js_min PInf l.
Definition max_list (l : list num) : num := fold_right js_max NInf l.

(** [b] is the exact union of [bs]: on every axis its minimum is the least
    minimum and its maximum the greatest maximum. *)
Definition exact_union (d : nat) (b : box) (bs : list box) : Prop :=
  length b = (2 * d)%nat /\
  forall i, (i < d)%nat ->
    rd b i = min_list (map (fun c => rd c i) bs) /\
    rd b (d + i) = max_list (map (fun c => rd c (d + i)) bs).

(** An item whose box has integer coordinates with [min <= max] on every axis. *)
Definition valid_item (d : nat) (it : Item) : Prop :=
  fbox d (item_box it) /\
  forall i, (i < d)%nat -> le (rd (item_box it) i) (rd (item_box it) (d + i)) = true.

(** The cache holds what [empty] stored, and has an entry for [d]. *)
Definition cache_ok (c : cache) : Prop :=
  forall d e, cache_get c d = Some e -> e = empty_box d.

Definition warm (d : nat) (c : cache) : Prop := cache_get c d = Some (empty_box d).

(** ** Well-formed trees *)

Definition box_or_nil (o : option box) : box :=
  match o with
  | Some b => b
  | None => []
  end.

Definition node_box (n : node) : box := box_or_nil (bbox_of n).

(** The boxes of the children of a node: [toBBox(child)] in a leaf,
    [child.bbox] elsewhere. *)
Definition child_boxes (n : node) : list box :=
  match n with
  | Leaf ch _ _ => map toBBox ch
  | Inner ch _ _ => map node_box ch
  end.

(** [wf d maxE lo m h n]: [n] is a subtree of height [h]; it has at least
    [m] and at most [maxE] children, every node below it at least [lo]; the
    [height] of every node is one more than that of its children, and 1 in
    the leaves; every [bbox] is the union of the boxes of the children; the
    items are valid. *)
Inductive wf (d : nat) (maxE lo : Z) : Z -> Z -> node -> Prop :=
| wf_leaf m ch b :
    m <= len ch -> len ch <= maxE ->
    Forall (valid_item d) ch ->
    b = union d (map toBBox ch) ->
    wf d maxE lo m 1 (Leaf ch 1 (Some b))
| wf_inner m h ch b :
    1 <= len ch -> m <= len ch -> len ch <= maxE -> 2 <= h ->
    Forall (wf d maxE lo lo (h - 1)) ch ->
    b = union d (map node_box ch) ->
    wf d maxE lo m h (Inner ch h (Some b)).

(** The children of a node are what a node of height [h] may hold. *)
Definition kids_ok (d : nat) (maxE lo : Z) (h : Z) (n : node) : Prop :=
  match n with
  | Leaf ch hh _ => hh = 1 /\ h = 1 /\ Forall (valid_item d) ch
  | Inner ch hh _ => hh = h /\ 2 <= h /\ Forall (wf d maxE lo lo (h - 1)) ch
  end.

(** The configuration the constructor leaves. *)
Definition cfg_ok (t : rbush_t) : Prop :=
  (2 <= _dimension t)%nat /\ 4 <= _maxEntries t /\
  _minEntries t = Z.max 2 ((2 * _maxEntries t + 4) / 5).

(** The tree of [t] is well formed, with at least [lo] children in every
    node but the root.  The root of the first tree built for a dimension has
    no [bbox] until it is replaced. *)
Definition wf_tree (lo : Z) (t : rbush_t) : Prop :=
  cfg_ok t /\
  (data t = Leaf [] 1 None \/
   wf (_dimension t) (_maxEntries t) lo 0 (height_of (data t)) (data t)).

(** A call returns [r] once the model is given enough fuel. *)
Definition returns {A} (f : nat -> M A) (c : cache) (r : A * cache) : Prop :=
  exists N, forall fuel, (N <= fuel)%nat -> f fuel c = Ok r.

(** The same children in another order. *)
Definition perm_children (n n' : node) : Prop :=
  match n, n' with
  | Leaf ch h b, Leaf ch' h' b' => Permutation ch ch' /\ h = h' /\ b = b'
  | Inner ch h b, Inner ch' h' b' => Permutation ch ch' /\ h = h' /\ b = b'
  | _, _ => False
  end.

(** The children of a node that is not a leaf. *)
Definition subnodes (n : node) : list node :=
  match n with
  | Leaf _ _ _ => []
  | Inner ch _ _ => ch
  end.

(** Every child that is a node has a [bbox]. *)
Definition children_defined (n : node) : Prop :=
  Forall (fun c => bbox_of c = Some (node_box c)) (subnodes n).

(** ** Paths *)

(** [path[m]] for an index inside the path. *)
Definition dnode : node := Leaf [] 0 None.

Definition pnth (path : list node) (m : nat) : node := nth m path dnode.

(** The items [_insert] adds: the item, or the items of the subtree. *)
Definition entry_items (e : entry) : list Item :=
  match e with
  | EItem it => [it]
  | ENode n => all_items n
  end.

(** A path as [_chooseSubtree] leaves it: every node but the last holds the
    next one at the index recorded for it. *)
Definition chain (path : list node) (idxs : list nat) : Prop :=
  length path = S (length idxs) /\
  forall m, (m < length idxs)%nat ->
    nth_error (subnodes (pnth path m)) (nth m idxs O) = Some (pnth path (S m)).

(** Above level [j] the path [path] is the path [P] with, in every node,
    the child the path goes through replaced by the next node of [path]. *)
Definition anc (P : list node) (I : list nat) (path : list node) (j : nat) : Prop :=
  forall m, (m < j)%nat ->
    pnth path m = set_child (pnth P m) (nth m I O) (pnth path (S m)).

(** The least number of children at depth [j]: none for the root. *)
Definition min_at (lo : Z) (j : nat) : Z :=
  match j with
  | O => 0
  | S _ => lo
  end.

(** The node at depth [j] of the insertion path while [_insert] runs: it
    holds what [P[j]] held and what was added, may have one child too many,
    and its [bbox] is the one of [P[j]], extended by the box added or not. *)
Definition pend (d : nat) (maxE lo H : Z) (P : list node) (bx : box) (added : list Item)
    (j : nat) (n : node) : Prop :=
  kids_ok d maxE lo (H - Z.of_nat j) n /\
  1 <= nchildren n /\
  min_at lo j <= nchildren n <= maxE + 1 /\
  (bbox_of n = Some (node_box (pnth P j)) \/
   bbox_of n = Some (extend d (node_box (pnth P j)) bx)) /\
  union d (child_boxes n) = extend d (node_box (pnth P j)) bx /\
  Permutation (all_items n) (added ++ all_items (pnth P j)).

(** The node at depth [j] once [_insert] is through with it. *)
Definition settled (d : nat) (maxE lo H : Z) (P : list node) (bx : box) (added : list Item)
    (j : nat) (n : node) : Prop :=
  wf d maxE lo (min_at lo j) (H - Z.of_nat j) n /\
  node_box n = extend d (node_box (pnth P j)) bx /\
  Permutation (all_items n) (added ++ all_items (pnth P j)).

(** The path [P] runs through a well-formed tree of height [H]. *)
Definition wf_path (d : nat) (maxE lo H : Z) (P : list node) : Prop :=
  forall j, (j < length P)%nat -> wf d maxE lo (min_at lo j) (H - Z.of_nat j) (pnth P j).

(** The state of [_insert] between two rounds of its loops, at level [j]:
    the nodes above [j] are those of [P] around the new nodes below, and the
    node at [j] is pending. *)
Definition path_state (d : nat) (maxE lo H : Z) (P : list node) (I : list nat) (bx : box)
    (added : list Item) (path : list node) (j : nat) : Prop :=
  length path = length P /\ (j < length P)%nat /\
  anc P I path j /\ pend d maxE lo H P bx added j (pnth path j).

(** What [_insert] may be given for a tree of height [H]: a valid item for
    the leaf level, or a well-formed subtree for the level it fits at. *)
Definition entry_ok (d : nat) (maxE lo H : Z) (e : entry) (level : Z) : Prop :=
  match e with
  | EItem it => valid_item d it /\ level = H - 1
  | ENode s => wf d maxE lo lo (H - level - 1) s /\ 0 <= level < H - 1
  end.

(** ** The traversal of [remove] *)

(** The path and the indexes of the traversal of [remove] below the root:
    the indexes but the first are those of the nodes of the path in their
    parents. *)
Definition walk_ctx (root : node) (path : list node) (indexes : list (option Z))
    (idxs0 : list nat) : Prop :=
  length indexes = length path /\ child_indexes (tl indexes) = Ok idxs0 /\
  chain path idxs0 /\ pnth path 0 = root.

(** What the traversal returns when it finds the item: a path from the root
    to a leaf, with the item taken out of the leaf. *)
Definition found_result (item : Item) (root : node) (r : list node * list nat) : Prop :=
  exists P I ch h b index x,
    chain P I /\ pnth P 0 = root /\ pnth P (length I) = Leaf ch h b /\
    nth_error ch index = Some x /\ same_item x item = true /\
    r = (write_through P I (length I) (Leaf (remove_nth index ch) h b), I).

(** The node at depth [j] of the path of [_condense] before the round that
    handles it: its children are well formed, and it holds what [P[j]] held
    but the item [x]. *)
Definition cpend (d : nat) (maxE H : Z) (P : list node) (x : Item) (j : nat) (n : node)
    : Prop :=
  kids_ok d maxE 1 (H - Z.of_nat j) n /\ nchildren n <= maxE /\
  Permutation (x :: all_items n) (all_items (pnth P j)).

Definition cstate (d : nat) (maxE H : Z) (P : list node) (I : list nat) (x : Item)
    (path : list node) (j : nat) : Prop :=
  length path = length P /\ (j < length P)%nat /\
  anc P I path j /\ cpend d maxE H P x j (pnth path j).

(** ** Bulk loading *)

(** What the construction needs of the height computed in floating point:
    it is the least [h] with [N <= M ^ h], or one more when [N] is a power
    of [M]. *)
Definition log_ceil_ok (log_ceil : Z -> Z -> Z) : Prop :=
  forall N M, 2 <= M -> M < N -> M ^ (log_ceil N M - 1) <= N <= M ^ (log_ceil N M).

(** The number [N] of items a subtree of height [h] may be built of, within
    a tree whose nodes hold up to [M] children. *)
Definition good (M h N : Z) : Prop :=
  1 <= h /\ 1 <= N <= M ^ h /\ (2 <= h -> 2 * M ^ (h - 1) - M + 1 <= N).

(** Positions in the array of [_build] that are a whole number of slices
    of [N2] items away from [left0]. *)
Definition aligned (left0 N2 x : Z) : Prop := exists k, 0 <= k /\ x = left0 + k * N2.

(** A range [l .. r] that [buildAxis] is called with. *)
Definition chunk_ok (left0 right0 N2 l r : Z) : Prop :=
  left0 <= l /\ l <= r /\ r <= right0 /\
  aligned left0 N2 l /\ (r = right0 \/ aligned left0 N2 (r + 1)).

(** The children [buildAxis] has pushed when it reaches position [pos]:
    subtrees of height [h - 1], of [N2] items each but the last, that hold
    the items from [left0] to [pos]. *)
Definition acc (d : nat) (maxE h left0 right0 N2 D : Z) (items : list Item)
    (children : list node) (pos : Z) : Prop :=
  Forall (wf d maxE 1 1 (h - 1)) children /\
  len children <= D /\
  (pos = left0 + len children * N2 /\ pos <= right0 \/ pos = right0 + 1) /\
  Permutation (flat_map all_items children) (slice items left0 pos).

(** The slice lengths [buildAxis] is called with at an axis. *)
Definition steps_ok (N1 N2 : Z) (axis : nat) (s1 s2 size : Z) : Prop :=
  (axis = O /\ s1 = N1 /\ s2 = N2) \/
  ((1 <= axis)%nat /\
   ((s1 = N2 /\ s2 = N1) \/ (s1 = N1 /\ s2 = N2 /\ size <= N2))).

(** What [_build] does for a range of the array that is good for the
    height [h]: it returns, whatever fuel it has left, a well-formed subtree
    of height [h] that holds the items of the range. *)
Definition build_spec (narrow : Z -> Z -> Z -> Z * Z) (log_ceil : Z -> Z -> Z)
    (t : rbush_t) (c : cache) (h : Z) : Prop :=
  forall items left right,
    good (_maxEntries t) h (right - left + 1) ->
    0 <= left -> right < len items ->
    Forall (valid_item (_dimension t)) items ->
    exists k items' n,
      (forall fuel, (k <= fuel)%nat ->
         _build narrow log_ceil t fuel items left right h c = Ok ((items', n), c)) /\
      permuted_within left right items items' /\
      wf (_dimension t) (_maxEntries t) 1 1 h n /\
      Permutation (all_items n) (slice items left (right + 1)).

(** ** The states of a tree *)

(** The states a tree goes through: it is made by the constructor, in any
    state of the cache of empty boxes the calls before have left, and every
    call of [clear], [insert], [load] or [remove] that returns leads to the
    next state.  The items given are valid; [insert] and [remove] may be
    given a value that is not an item. *)
Inductive reachable (narrow : Z -> Z -> Z -> Z * Z) (log_ceil : Z -> Z -> Z)
    : rbush_t -> cache -> Prop :=
| reach_new maxEntries dimension c0 t c :
    cache_ok c0 ->
    rbush maxEntries dimension c0 = Ok (t, c) ->
    reachable narrow log_ceil t c
| reach_clear t c t' c' :
    reachable narrow log_ceil t c ->
    clear t c = Ok (t', c') ->
    reachable narrow log_ceil t' c'
| reach_insert t c x t' c' :
    reachable narrow log_ceil t c ->
    (forall it, x = Some it -> valid_item (_dimension t) it) ->
    returns (fun fuel => insert fuel x t) c (t', c') ->
    reachable narrow log_ceil t' c'
| reach_load t c xs t' c' :
    reachable narrow log_ceil t c ->
    Forall (valid_item (_dimension t)) xs ->
    returns (fun fuel => load narrow log_ceil fuel xs t) c (t', c') ->
    reachable narrow log_ceil t' c'
| reach_remove t c x t' c' :
    reachable narrow log_ceil t c ->
    returns (fun fuel => remove fuel x t) c (t', c') ->
    reachable narrow log_ceil t' c'.

(** The states reached with [clear] and [insert] alone. *)
Inductive grown_by_insert : rbush_t -> cache -> Prop :=
| grown_new maxEntries dimension c0 t c :
    cache_ok c0 ->
    rbush maxEntries dimension c0 = Ok (t, c) ->
    grown_by_insert t c
| grown_clear t c t' c' :
    grown_by_insert t c ->
    clear t c = Ok (t', c') ->
    grown_by_insert t' c'
| grown_insert t c x t' c' :
    grown_by_insert t c ->
    (forall it, x = Some it -> valid_item (_dimension t) it) ->
    returns (fun fuel => insert fuel x t) c (t', c') ->
    grown_by_insert t' c'.

(** Every [bbox] of the tree is the exact union of the boxes of the
    children of its node. *)
Inductive exact_boxes (d : nat) : node -> Prop :=
| exact_leaf ch h b :
    exact_union d b (map toBBox ch) -> exact_boxes d (Leaf ch h (Some b))
| exact_inner ch h b :
    exact_union d b (map node_box ch) ->
    Forall (exact_boxes d) ch ->
    exact_boxes d (Inner ch h (Some b)).





(** ** Queries *)

(** The box [a] lies inside the box [b]. *)
Definition inside (d : nat) (a b : box) : Prop :=
  forall i, (i < d)%nat ->
    le (rd b i) (rd a i) = true /\ le (rd a (d + i)) (rd b (d + i)) = true.

(** The item's box meets the box [q] of a query. *)
Definition hit (d : nat) (q : box) (it : Item) : bool := intersects d q (toBBox it).

(** The number of nodes of a subtree, and of the subtrees of a stack. *)
Fixpoint nsize (n : node) : nat :=
  match n with
  | Leaf _ _ _ => 1
  | Inner ch _ _ => S (list_sum (map nsize ch))
  end.

Definition ssize (st : list node) : nat := list_sum (map nsize st).

Definition is_wf (d : nat) (maxE lo : Z) (n : node) : Prop :=
  exists m h, wf d maxE lo m h n.

(** ** More concrete inputs *)

(** The first tree built for two dimensions, with [maxEntries = 4]: its
    root has no [bbox]. *)
Definition first_tree : rbush_t := mkRbush 2 4 2 (Leaf [] 1 None).

(** Thirteen points, more than three leaves of four hold. *)
Definition thirteen_points : list Item :=
  map (fun k => point k (Z.of_nat k) (Z.of_nat ((k * 7) mod 13))) (seq 1 13).

(** A box around the thirteen points. *)
Definition around_thirteen : box := [Fin 0; Fin 0; Fin 20; Fin 20].




(** * More specifications *)

(** A box with integer coordinates and [min <= max] on every axis. *)
Definition valid_box (d : nat) (b : box) : Prop :=
  fbox d b /\ forall i, (i < d)%nat -> le (rd b i) (rd b (d + i)) = true.

(** What [_chooseSubtree] compares the children of a node by: the growth
    of the area of the child's box when it takes the box [bx] in. *)
Definition enlargement (d : nat) (bx : box) (c : node) : num :=
  sub (enlargedArea d bx (node_box c)) (bboxArea d (node_box c)).



(** ** [multiSelect] *)

(** The bounds of the Floyd-Rivest step lie around [k]: over the reals the
    lower one is below [k] by more than it is above, and the upper one the
    other way round, for every range of more than 600 elements. *)
Definition narrow_around (narrow : Z -> Z -> Z -> Z * Z) : Prop :=
  forall left right k,
    right - left > 600 -> left <= k <= right ->
    fst (narrow left right k) <= k <= snd (narrow left right k).

(** The groups [multiSelect] makes of [left .. right]: at every position
    [b] a whole number of groups of [n] away from [left], and strictly
    between [left] and [right], no element before [b] has a greater key than
    an element from [b] on. *)
Definition grouped (axis : nat) (left right n : Z) (arr : list Item) : Prop :=
  forall c i j,
    left < left + c * n < right ->
    left <= i < left + c * n -> left + c * n <= j <= right ->
    cmp_le axis (nthZ arr i) (nthZ arr j).

(** ** One more concrete input *)



(** * Arrays and indices *)

Lemma len_nonneg {A} (l : list A) : 0 <= len l.
Proof. unfold len. lia. Qed.

Lemma zget_inv {A} (l : list A) i x :
  zget l i = Some x -> 0 <= i < len l /\ nth_error l (Z.to_nat i) = Some x.
Proof.
  unfold zget, len. destruct (i <? 0) eqn:E; [discriminate|].
  intros H. apply Z.ltb_ge in E. split; [|exact H].
  assert (Hn : (Z.to_nat i < length l)%nat) by (apply nth_error_Some; congruence).
  lia.
Qed.

Lemma zget_in_range {A} (l : list A) i :
  0 <= i < len l -> exists x, zget l i = Some x.
Proof.
  unfold zget, len. intros [H1 H2].
  destruct (i <? 0) eqn:E; [apply Z.ltb_lt in E; lia|].
  destruct (nth_error l (Z.to_nat i)) eqn:N; [eauto|].
  apply nth_error_None in N. lia.
Qed.

Lemma zget_out {A} (l : list A) i :
  i < 0 \/ len l <= i -> zget l i = None.
Proof.
  unfold zget, len. intros H.
  destruct (i <? 0) eqn:E; [reflexivity|]. apply Z.ltb_ge in E.
  apply nth_error_None. lia.
Qed.

Lemma zget_nthZ (arr : list Item) i :
  0 <= i < len arr -> zget arr i = Some (nthZ arr i).
Proof.
  intros H. destruct (zget_in_range arr i H) as [x Hx]. rewrite Hx.
  apply zget_inv in Hx. destruct Hx as [_ Hx].
  unfold nthZ. erewrite nth_error_nth; eauto.
Qed.

Lemma zget_zget_ext (a b : list Item) i :
  zget a i = zget b i -> 0 <= i < len a -> nthZ a i = nthZ b i.
Proof.
  intros H Hi. rewrite (zget_nthZ a i Hi) in H. symmetry in H.
  pose proof (zget_inv _ _ _ H) as [Hr _].
  rewrite (zget_nthZ b i Hr) in H. congruence.
Qed.

Lemma replace_nth_length {A} i (l : list A) x :
  length (replace_nth i l x) = length l.
Proof. revert i; induction l; destruct i; simpl; auto. Qed.

Lemma nth_error_replace_nth_eq {A} i (l : list A) x :
  (i < length l)%nat -> nth_error (replace_nth i l x) i = Some x.
Proof.
  revert i; induction l; destruct i; simpl; intros; try lia; auto.
  apply IHl. lia.
Qed.

Lemma nth_error_replace_nth_neq {A} i j (l : list A) x :
  i <> j -> nth_error (replace_nth i l x) j = nth_error l j.
Proof.
  revert i j; induction l; destruct i, j; simpl; intros; try congruence; auto.
Qed.

Lemma replace_nth_same {A} i (l : list A) x :
  nth_error l i = Some x -> replace_nth i l x = l.
Proof.
  revert i; induction l; destruct i; simpl; intros H; try discriminate.
  - congruence.
  - f_equal. auto.
Qed.

Lemma replace_nth_app_r {A} (a l : list A) k x :
  replace_nth (length a + k) (a ++ l) x = a ++ replace_nth k l x.
Proof. induction a; simpl; auto. f_equal. auto. Qed.

Lemma replace_nth_app_l {A} (a l : list A) k x :
  (k < length a)%nat -> replace_nth k (a ++ l) x = replace_nth k a x ++ l.
Proof.
  revert k; induction a; simpl; intros k H; [lia|].
  destruct k; simpl; auto. f_equal. apply IHa. lia.
Qed.

Lemma nth_error_split_at {A} (l : list A) i x :
  nth_error l i = Some x -> exists a b, l = a ++ x :: b /\ length a = i.
Proof. intros H. apply nth_error_split in H. exact H. Qed.

Lemma perm_swap_mid {A} (x y : A) (b c : list A) :
  Permutation (y :: b ++ x :: c) (x :: b ++ y :: c).
Proof.
  transitivity (y :: x :: b ++ c).
  - constructor. symmetry. apply Permutation_middle.
  - transitivity (x :: y :: b ++ c); [apply perm_swap|].
    constructor. apply Permutation_middle.
Qed.

Lemma swap_list_perm_lt {A} (l : list A) i j x y :
  (i < j)%nat -> nth_error l i = Some x -> nth_error l j = Some y ->
  Permutation (replace_nth j (replace_nth i l y) x) l.
Proof.
  intros Hij Hi Hj.
  destruct (nth_error_split_at _ _ _ Hi) as (a & r & -> & Ha).
  assert (Hj' : nth_error r (j - i - 1) = Some y).
  { rewrite nth_error_app2 in Hj by lia.
    replace (j - length a)%nat with (S (j - i - 1)) in Hj by lia. exact Hj. }
  destruct (nth_error_split_at _ _ _ Hj') as (b & c & -> & Hb).
  replace i with (length a + 0)%nat by lia.
  rewrite replace_nth_app_r. simpl.
  replace j with (length a + S (length b + 0))%nat by lia.
  rewrite replace_nth_app_r. simpl. rewrite replace_nth_app_r. simpl.
  apply Permutation_app_head. apply perm_swap_mid.
Qed.

Lemma swap_list_perm {A} (l : list A) i j x y :
  nth_error l i = Some x -> nth_error l j = Some y ->
  Permutation (replace_nth j (replace_nth i l y) x) l.
Proof.
  intros Hi Hj.
  destruct (Nat.lt_trichotomy i j) as [H | [H | H]].
  - eapply swap_list_perm_lt; eauto.
  - subst j. assert (x = y) by congruence. subst y.
    rewrite (replace_nth_same i l x Hi). rewrite (replace_nth_same i l x Hi).
    reflexivity.
  - assert (E : replace_nth j (replace_nth i l y) x = replace_nth i (replace_nth j l x) y).
    { apply nth_error_ext. intros n.
      destruct (Nat.eq_dec n i) as [Ni|Ni]; destruct (Nat.eq_dec n j) as [Nj|Nj];
        try subst n; try lia.
      - rewrite nth_error_replace_nth_neq by lia.
        rewrite !nth_error_replace_nth_eq; auto.
        + rewrite replace_nth_length. apply nth_error_Some. congruence.
        + apply nth_error_Some. congruence.
      - rewrite nth_error_replace_nth_eq.
        + rewrite nth_error_replace_nth_neq by lia.
          rewrite nth_error_replace_nth_eq; auto. apply nth_error_Some. congruence.
        + rewrite replace_nth_length. apply nth_error_Some. congruence.
      - rewrite !nth_error_replace_nth_neq by lia. reflexivity. }
    rewrite E. eapply swap_list_perm_lt; eauto.
Qed.

(** [swap] inside the array. *)
Lemma swap_spec (arr : list Item) i j :
  0 <= i < len arr -> 0 <= j < len arr ->
  exists arr',
    swap arr i j = Ok arr' /\
    length arr' = length arr /\
    Permutation arr' arr /\
    nthZ arr' i = nthZ arr j /\
    nthZ arr' j = nthZ arr i /\
    (forall k, k <> i -> k <> j -> zget arr' k = zget arr k).
Proof.
  intros Hi Hj. unfold swap.
  rewrite (zget_nthZ arr i Hi), (zget_nthZ arr j Hj).
  eexists. split; [reflexivity|].
  pose proof (zget_nthZ arr i Hi) as Zi. pose proof (zget_nthZ arr j Hj) as Zj.
  apply zget_inv in Zi. apply zget_inv in Zj. destruct Zi as [_ Zi], Zj as [_ Zj].
  assert (Li : (Z.to_nat i < length arr)%nat) by (unfold len in *; lia).
  assert (Lj : (Z.to_nat j < length arr)%nat) by (unfold len in *; lia).
  split; [|split; [|split; [|split]]].
  - rewrite !replace_nth_length. reflexivity.
  - apply swap_list_perm; assumption.
  - unfold nthZ at 1.
    destruct (Z.eq_dec i j) as [->|N].
    + erewrite nth_error_nth; [reflexivity|].
      apply nth_error_replace_nth_eq. rewrite replace_nth_length. exact Lj.
    + erewrite nth_error_nth; [reflexivity|].
      rewrite nth_error_replace_nth_neq by lia.
      rewrite nth_error_replace_nth_eq by exact Li. reflexivity.
  - unfold nthZ at 1. erewrite nth_error_nth; [reflexivity|].
    rewrite nth_error_replace_nth_eq; [reflexivity|]. rewrite replace_nth_length. exact Lj.
  - intros k Hki Hkj. unfold zget.
    destruct (k <? 0) eqn:E; [reflexivity|]. apply Z.ltb_ge in E.
    rewrite !nth_error_replace_nth_neq by lia. reflexivity.
Qed.


(** * The selector: [select] and [multiSelect] *)

Lemma permuted_within_refl lo hi arr : permuted_within lo hi arr arr.
Proof. repeat split; auto. Qed.

Lemma permuted_within_trans lo hi a b c :
  permuted_within lo hi a b -> permuted_within lo hi b c -> permuted_within lo hi a c.
Proof.
  intros (L1 & P1 & F1) (L2 & P2 & F2). repeat split.
  - congruence.
  - etransitivity; eauto.
  - intros i Hi. rewrite F2, F1; auto.
Qed.

Lemma permuted_within_weaken lo hi lo' hi' a b :
  permuted_within lo hi a b -> lo' <= lo -> hi <= hi' -> permuted_within lo' hi' a b.
Proof.
  intros (L & P & F) H1 H2. repeat split; auto. intros i Hi. apply F. lia.
Qed.

Lemma permuted_within_len lo hi a b : permuted_within lo hi a b -> len b = len a.
Proof. intros (L & _). unfold len. congruence. Qed.

Lemma permuted_within_nth lo hi a b i :
  permuted_within lo hi a b -> (i < lo \/ hi < i) -> 0 <= i < len a -> nthZ b i = nthZ a i.
Proof.
  intros H Hi Hr. pose proof (permuted_within_len _ _ _ _ H) as L.
  destruct H as (_ & _ & F). apply zget_zget_ext; [apply F; auto | lia].
Qed.

Lemma swap_within lo hi arr i j :
  0 <= lo -> hi < len arr -> lo <= i <= hi -> lo <= j <= hi ->
  exists arr',
    swap arr i j = Ok arr' /\ permuted_within lo hi arr arr' /\
    nthZ arr' i = nthZ arr j /\ nthZ arr' j = nthZ arr i /\
    (forall k, k <> i -> k <> j -> 0 <= k < len arr -> nthZ arr' k = nthZ arr k).
Proof.
  intros H0 H1 Hi Hj.
  destruct (swap_spec arr i j) as (arr' & E & L & P & A & B & F); try lia.
  exists arr'. repeat split; auto.
  - intros k Hk. apply F; lia.
  - intros k K1 K2 Kr. apply zget_zget_ext; [apply F; auto|]. unfold len in *. lia.
Qed.

Lemma zget_of_nat {A} (l : list A) n : zget l (Z.of_nat n) = nth_error l n.
Proof.
  unfold zget. destruct (Z.of_nat n <? 0) eqn:E; [apply Z.ltb_lt in E; lia|].
  rewrite Nat2Z.id. reflexivity.
Qed.

Lemma slice_decompose {A} (l : list A) lo hi :
  0 <= lo -> lo <= hi -> hi <= len l ->
  l = firstn (Z.to_nat lo) l ++ slice l lo hi ++ skipn (Z.to_nat hi) l.
Proof.
  intros H0 H1 H2. unfold slice.
  rewrite <- (firstn_skipn (Z.to_nat lo) l) at 1. f_equal.
  rewrite <- (firstn_skipn (Z.to_nat (hi - lo)) (skipn (Z.to_nat lo) l)) at 1. f_equal.
  rewrite skipn_skipn. f_equal. lia.
Qed.

(** What [permuted_within] says of the segment itself. *)
Lemma permuted_within_slice lo hi (a b : list Item) :
  permuted_within lo hi a b -> 0 <= lo -> lo <= hi + 1 -> hi < len a ->
  Permutation (slice b lo (hi + 1)) (slice a lo (hi + 1)).
Proof.
  intros (L & P & F) H0 H1 H2.
  assert (Lb : len b = len a) by (unfold len; congruence).
  assert (E1 : firstn (Z.to_nat lo) b = firstn (Z.to_nat lo) a).
  { apply nth_error_ext. intros n.
    destruct (Nat.lt_ge_cases n (Z.to_nat lo)) as [Hn|Hn].
    - rewrite !nth_error_firstn.
      assert (G : (n <? Z.to_nat lo)%nat = true) by (apply Nat.ltb_lt; lia).
      rewrite G. rewrite <- !zget_of_nat. apply F. lia.
    - rewrite !nth_error_firstn.
      assert (G : (n <? Z.to_nat lo)%nat = false) by (apply Nat.ltb_ge; lia).
      rewrite G. reflexivity. }
  assert (E2 : skipn (Z.to_nat (hi + 1)) b = skipn (Z.to_nat (hi + 1)) a).
  { apply nth_error_ext. intros n. rewrite !nth_error_skipn.
    rewrite <- !zget_of_nat. apply F. lia. }
  rewrite (slice_decompose a lo (hi + 1)) in P by lia.
  rewrite (slice_decompose b lo (hi + 1)) in P by lia.
  rewrite E1, E2 in P.
  apply Permutation_app_inv_l in P. apply Permutation_app_inv_r in P. exact P.
Qed.

Lemma in_slice (a : list Item) lo hi x :
  0 <= lo -> hi <= len a ->
  In x (slice a lo hi) <-> exists y, lo <= y < hi /\ nthZ a y = x.
Proof.
  intros H0 H1. unfold slice. split.
  - intros H. apply In_nth_error in H. destruct H as [n Hn].
    assert (Hlt : (n < Z.to_nat (hi - lo))%nat).
    { destruct (Nat.lt_ge_cases n (Z.to_nat (hi - lo))); auto.
      rewrite nth_error_firstn in Hn.
      assert (G : (n <? Z.to_nat (hi - lo))%nat = false) by (apply Nat.ltb_ge; lia).
      rewrite G in Hn. discriminate. }
    rewrite nth_error_firstn in Hn.
    assert (G : (n <? Z.to_nat (hi - lo))%nat = true) by (apply Nat.ltb_lt; lia).
    rewrite G in Hn. rewrite nth_error_skipn in Hn.
    exists (lo + Z.of_nat n). split; [lia|].
    unfold nthZ. replace (Z.to_nat (lo + Z.of_nat n)) with (Z.to_nat lo + n)%nat by lia.
    apply nth_error_nth. exact Hn.
  - intros (y & Hy & E). subst x.
    assert (Hr : 0 <= y < len a) by lia.
    pose proof (zget_nthZ a y Hr) as Z. apply zget_inv in Z. destruct Z as [_ Z].
    apply nth_error_In with (n := (Z.to_nat y - Z.to_nat lo)%nat).
    rewrite nth_error_firstn.
    assert (G : (Z.to_nat y - Z.to_nat lo <? Z.to_nat (hi - lo))%nat = true)
      by (apply Nat.ltb_lt; lia).
    rewrite G. rewrite nth_error_skipn.
    replace (Z.to_nat lo + (Z.to_nat y - Z.to_nat lo))%nat with (Z.to_nat y) by lia.
    exact Z.
Qed.

(** An element of the segment after the permutation was in the segment before. *)
Lemma permuted_within_closed lo hi (a b : list Item) x :
  permuted_within lo hi a b -> 0 <= lo -> hi < len a -> lo <= x <= hi ->
  exists y, lo <= y <= hi /\ nthZ b x = nthZ a y.
Proof.
  intros PW H0 H1 Hx.
  pose proof (permuted_within_len _ _ _ _ PW) as L.
  pose proof (permuted_within_slice lo hi a b PW) as P.
  assert (I : In (nthZ b x) (slice b lo (hi + 1))).
  { apply in_slice; try lia. exists x. split; [lia|reflexivity]. }
  eapply Permutation_in in I; [|apply P; lia].
  apply in_slice in I; try lia. destruct I as (y & Hy & E).
  exists y. split; [lia|congruence].
Qed.

Section SelectProofs.
Variable narrow : Z -> Z -> Z -> Z * Z.
Variable axis : nat.

Local Abbreviation zk arr i := (zkey axis (nthZ arr i)).

Lemma compareMin_keys a b :
  has_key axis a -> has_key axis b ->
  compareMin axis a b = Fin (zkey axis a - zkey axis b).
Proof.
  intros [x Hx] [y Hy]. unfold compareMin, zkey. fold (key axis a). fold (key axis b).
  rewrite Hx, Hy. reflexivity.
Qed.

Lemma keys_nthZ arr i :
  Forall (has_key axis) arr -> 0 <= i < len arr -> has_key axis (nthZ arr i).
Proof.
  intros H Hi. rewrite Forall_forall in H. apply H.
  pose proof (zget_nthZ arr i Hi) as Z. apply zget_inv in Z. destruct Z as [_ Z].
  eapply nth_error_In; eauto.
Qed.

Lemma compare_at_keys arr i t :
  Forall (has_key axis) arr -> has_key axis t -> 0 <= i < len arr ->
  compare_at axis arr i t = Ok (Fin (zk arr i - zkey axis t)).
Proof.
  intros H Ht Hi. unfold compare_at. rewrite (zget_nthZ arr i Hi). simpl.
  rewrite compareMin_keys; auto. apply keys_nthZ; auto.
Qed.

Lemma keys_permuted lo hi a b :
  permuted_within lo hi a b -> Forall (has_key axis) a -> Forall (has_key axis) b.
Proof.
  intros (_ & P & _) H. eapply Permutation_Forall; [symmetry; exact P | exact H].
Qed.

Lemma scan_up_spec arr t (Hk : Forall (has_key axis) arr) (Ht : has_key axis t) :
  forall fuel i bound,
    0 <= i <= bound -> bound < len arr -> zkey axis t <= zk arr bound ->
    (Z.to_nat (bound - i) < fuel)%nat ->
    exists i',
      scan_up axis fuel arr t i = Ok i' /\ i <= i' <= bound /\
      zkey axis t <= zk arr i' /\
      forall x, i <= x < i' -> zk arr x < zkey axis t.
Proof.
  induction fuel as [|fuel IH]; intros i bound Hi Hb Hs Hf; [lia|].
  simpl. rewrite compare_at_keys by (auto; lia). simpl.
  destruct (zk arr i - zkey axis t <? 0) eqn:E.
  - apply Z.ltb_lt in E.
    assert (i <> bound) by (intro; subst; lia).
    destruct (IH (i + 1) bound) as (i' & R & B & S & F); try lia.
    exists i'. repeat split; auto; try lia.
    intros x Hx. destruct (Z.eq_dec x i) as [->|]; [lia|]. apply F. lia.
  - apply Z.ltb_ge in E. exists i. repeat split; auto; try lia.
Qed.

Lemma scan_down_spec arr t (Hk : Forall (has_key axis) arr) (Ht : has_key axis t) :
  forall fuel j bound,
    0 <= bound <= j -> j < len arr -> zk arr bound <= zkey axis t ->
    (Z.to_nat (j - bound) < fuel)%nat ->
    exists j',
      scan_down axis fuel arr t j = Ok j' /\ bound <= j' <= j /\
      zk arr j' <= zkey axis t /\
      forall x, j' < x <= j -> zkey axis t < zk arr x.
Proof.
  induction fuel as [|fuel IH]; intros j bound Hj Hl Hs Hf; [lia|].
  simpl. rewrite compare_at_keys by (auto; lia). unfold gt. simpl.
  destruct (0 <? zk arr j - zkey axis t) eqn:E.
  - apply Z.ltb_lt in E.
    assert (j <> bound) by (intro; subst; lia).
    destruct (IH (j - 1) bound) as (j' & R & B & S & F); try lia.
    exists j'. repeat split; auto; try lia.
    intros x Hx. destruct (Z.eq_dec x j) as [->|]; [lia|]. apply F. lia.
  - apply Z.ltb_ge in E. exists j. repeat split; auto; try lia.
Qed.

(** One round of [partition]: the elements at [i] and [j] are exchanged and
    the two scans run, each stopped by the element the exchange put at the
    other end. *)
Lemma partition_round arr t left right i j fuel
    (Hk : Forall (has_key axis) arr) (Ht : has_key axis t) :
  0 <= left -> right < len arr -> left <= i -> i < j -> j <= right ->
  (forall x, left <= x < i -> zk arr x <= zkey axis t) ->
  (forall x, j < x <= right -> zkey axis t <= zk arr x) ->
  zkey axis t <= zk arr i -> zk arr j <= zkey axis t ->
  (Z.to_nat (j - i) <= fuel)%nat ->
  exists arr' i' j',
    swap arr i j = Ok arr' /\
    scan_up axis fuel arr' t (i + 1) = Ok i' /\
    scan_down axis fuel arr' t (j - 1) = Ok j' /\
    permuted_within i j arr arr' /\
    i < i' <= j /\ i <= j' < j /\
    part_inv axis left right (zkey axis t) arr' i' j'.
Proof.
  intros H0 H1 Hli Hij Hjr HL HR Hi Hj Hf.
  destruct (swap_within i j arr i j) as (arr' & E & PW & A & B & F); try lia.
  pose proof (permuted_within_len _ _ _ _ PW) as L.
  pose proof (keys_permuted _ _ _ _ PW Hk) as Hk'.
  destruct (scan_up_spec arr' t Hk' Ht fuel (i + 1) j) as (i' & Ru & Bu & Su & Fu);
    try lia.
  { rewrite B. exact Hi. }
  destruct (scan_down_spec arr' t Hk' Ht fuel (j - 1) i) as (j' & Rd & Bd & Sd & Fd);
    try lia.
  { rewrite A. exact Hj. }
  exists arr', i', j'.
  split; [exact E|]. split; [exact Ru|]. split; [exact Rd|]. split; [exact PW|].
  split; [lia|]. split; [lia|].
  unfold part_inv. split; [lia|]. split; [lia|]. split; [|split; [|split; [exact Su|exact Sd]]].
  - intros x Hx.
    destruct (Z_lt_ge_dec x i) as [X|X].
    + rewrite F by lia. apply HL. lia.
    + destruct (Z.eq_dec x i) as [->|N]; [rewrite A; exact Hj|].
      assert (zk arr' x < zkey axis t) by (apply Fu; lia). lia.
  - intros x Hx.
    destruct (Z_lt_ge_dec j x) as [X|X].
    + rewrite F by lia. apply HR. lia.
    + destruct (Z.eq_dec x j) as [->|N]; [rewrite B; exact Hi|].
      assert (zkey axis t < zk arr' x) by (apply Fd; lia). lia.
Qed.

Lemma partition_spec t left right (Ht : has_key axis t) :
  forall fuel arr i j,
    Forall (has_key axis) arr ->
    0 <= left -> right < len arr ->
    part_inv axis left right (zkey axis t) arr i j ->
    (Z.to_nat (j - i + 1) < fuel)%nat ->
    exists arr' i' j',
      partition axis fuel arr t i j = Ok (arr', i', j') /\
      permuted_within (left + 1) (right - 1) arr arr' /\
      part_inv axis left right (zkey axis t) arr' i' j' /\ j' <= i'.
Proof.
  induction fuel as [|fuel IH]; intros arr i j Hk H0 H1 PI Hf; [lia|].
  simpl. destruct (i <? j) eqn:E.
  - apply Z.ltb_lt in E. destruct PI as (Bi & Bj & HL & HR & Hi & Hj).
    destruct (partition_round arr t left right i j fuel Hk Ht)
      as (arr1 & i1 & j1 & Es & Eu & Ed & PW & Bi1 & Bj1 & PI1); auto; try lia.
    rewrite Es. simpl. rewrite Eu. simpl. rewrite Ed. simpl.
    pose proof (permuted_within_len _ _ _ _ PW) as L.
    destruct (IH arr1 i1 j1) as (arr2 & i2 & j2 & Ep & PW2 & PI2 & Hx); auto; try lia.
    { eapply keys_permuted; eauto. }
    exists arr2, i2, j2. split; [exact Ep|]. split; [|split; [exact PI2|exact Hx]].
    eapply permuted_within_trans; [|exact PW2].
    eapply permuted_within_weaken; [exact PW| |]; lia.
  - apply Z.ltb_ge in E. exists arr, i, j. split; [reflexivity|].
    split; [apply permuted_within_refl|]. split; auto.
Qed.

(** [partition] from the state [select] starts it in: the pivot's key is at
    most the key at [left] and at least the key at [right]. *)
Lemma partition_start t left right fuel arr
    (Hk : Forall (has_key axis) arr) (Ht : has_key axis t) :
  0 <= left -> right < len arr -> left < right ->
  zkey axis t <= zk arr left -> zk arr right <= zkey axis t ->
  (Z.to_nat (right - left) + 2 <= fuel)%nat ->
  exists arr' i' j',
    partition axis fuel arr t left right = Ok (arr', i', j') /\
    permuted_within left right arr arr' /\
    part_inv axis left right (zkey axis t) arr' i' j' /\ j' <= i' /\
    nthZ arr' left = nthZ arr right /\ nthZ arr' right = nthZ arr left.
Proof.
  intros H0 H1 Hlr Hl Hr Hf.
  destruct fuel as [|fuel]; [lia|]. simpl.
  assert (E : (left <? right) = true) by (apply Z.ltb_lt; lia). rewrite E.
  destruct (partition_round arr t left right left right fuel Hk Ht)
    as (arr1 & i1 & j1 & Es & Eu & Ed & PW & Bi1 & Bj1 & PI1); auto; try lia.
  rewrite Es. simpl. rewrite Eu. simpl. rewrite Ed. simpl.
  pose proof (permuted_within_len _ _ _ _ PW) as L.
  destruct (partition_spec t left right Ht fuel arr1 i1 j1)
    as (arr2 & i2 & j2 & Ep & PW2 & PI2 & Hx); auto; try lia.
  { eapply keys_permuted; eauto. }
  exists arr2, i2, j2. split; [exact Ep|].
  destruct (swap_within left right arr left right) as (arr1' & Es' & _ & A & B & _);
    try lia.
  assert (arr1' = arr1) by congruence. subst arr1'.
  split; [|split; [exact PI2|split; [exact Hx|split]]].
  - eapply permuted_within_trans; [exact PW|].
    eapply permuted_within_weaken; [exact PW2| |]; lia.
  - rewrite (permuted_within_nth _ _ _ _ left PW2); auto; lia.
  - rewrite (permuted_within_nth _ _ _ _ right PW2); auto; lia.
Qed.

(** One round of the outer loop of [select], after the recursive call on the
    narrowed range returned [arr1]: the pivot ends at [p], what lies left of
    it in [left .. right] is at most it and what lies right at least. *)
Lemma select_round fuel arr arr1 left right k :
  right > left ->
  (if right - left >? 600 then
     let '(lo, hi) := narrow left right k in
     select narrow axis fuel arr (Z.max left lo) (Z.min right hi) k
   else Ok arr) = Ok arr1 ->
  Forall (has_key axis) arr1 ->
  0 <= left -> right < len arr1 -> 0 <= k < len arr1 ->
  (Z.to_nat (right - left) + 2 <= fuel)%nat ->
  exists arr5 p,
    select narrow axis (S fuel) arr left right k =
      select narrow axis fuel arr5
        (if p <=? k then p + 1 else left) (if k <=? p then p - 1 else right) k /\
    permuted_within (Z.min left k) (Z.max right k) arr1 arr5 /\
    left <= p <= right /\ zk arr5 p = zk arr1 k /\
    (forall x, left <= x < p -> zk arr5 x <= zk arr1 k) /\
    (forall x, p < x <= right -> zk arr1 k <= zk arr5 x).
Proof.
  intros Hlr Hn Hk H0 H1 Hkr Hf.
  set (t := nthZ arr1 k). set (mn := Z.min left k). set (mx := Z.max right k).
  assert (Ht : has_key axis t) by (apply keys_nthZ; auto).
  (* swap(arr, left, k) *)
  destruct (swap_within mn mx arr1 left k) as (arr2 & E2 & PW2 & A2 & B2 & F2);
    try (unfold mn, mx; lia).
  pose proof (permuted_within_len _ _ _ _ PW2) as L2.
  pose proof (keys_permuted _ _ _ _ PW2 Hk) as K2.
  (* if (compare(axis, arr[right], t) > 0) swap(arr, left, right) *)
  assert (S3 : exists arr3,
             (if gt (Fin (zk arr2 right - zkey axis t)) (Fin 0)
              then swap arr2 left right else Ok arr2) = Ok arr3 /\
             permuted_within mn mx arr2 arr3 /\
             zkey axis t <= zk arr3 left /\ zk arr3 right <= zkey axis t /\
             (zk arr3 left = zkey axis t \/ zk arr3 right = zkey axis t)).
  { unfold gt. simpl. destruct (0 <? zk arr2 right - zkey axis t) eqn:E.
    - apply Z.ltb_lt in E.
      destruct (swap_within mn mx arr2 left right) as (arr3 & E3 & PW3 & A3 & B3 & F3);
        try (unfold mn, mx; lia).
      exists arr3. split; [exact E3|]. split; [exact PW3|].
      rewrite A3, B3, A2. fold t. lia.
    - apply Z.ltb_ge in E. exists arr2. split; [reflexivity|].
      split; [apply permuted_within_refl|]. rewrite A2. fold t. lia. }
  destruct S3 as (arr3 & E3 & PW3 & Hl3 & Hr3 & Hp3).
  pose proof (permuted_within_len _ _ _ _ PW3) as L3.
  pose proof (keys_permuted _ _ _ _ PW3 K2) as K3.
  (* the partition loop *)
  destruct (partition_start t left right fuel arr3 K3 Ht)
    as (arr4 & i & j & E4 & PW4 & PI & Hji & Al & Ar); try lia.
  pose proof (permuted_within_len _ _ _ _ PW4) as L4.
  pose proof (keys_permuted _ _ _ _ PW4 K3) as K4.
  destruct PI as (Bi & Bj & HL & HR & Hi & Hj).
  (* the pivot goes to its place *)
  assert (S5 : exists arr5 p,
             (if strict_eq (Fin (zk arr4 left - zkey axis t)) (Fin 0)
              then arr <- swap arr4 left j ;; Ok (arr, j)
              else arr <- swap arr4 (j + 1) right ;; Ok (arr, j + 1)) = Ok (arr5, p) /\
             permuted_within left right arr4 arr5 /\
             left <= p <= right /\ zk arr5 p = zkey axis t /\
             (forall x, left <= x < p -> zk arr5 x <= zkey axis t) /\
             (forall x, p < x <= right -> zkey axis t <= zk arr5 x)).
  { unfold strict_eq. simpl. destruct (zk arr4 left - zkey axis t =? 0) eqn:E.
    - apply Z.eqb_eq in E.
      destruct (swap_within left right arr4 left j) as (arr5 & E5 & PW5 & A5 & B5 & F5);
        try lia.
      exists arr5, j. rewrite E5. simpl. split; [reflexivity|]. split; [exact PW5|].
      split; [lia|]. split; [rewrite B5; lia|]. split.
      + intros x Hx. destruct (Z.eq_dec x left) as [->|N].
        * rewrite A5. exact Hj.
        * rewrite F5 by lia. apply HL. lia.
      + intros x Hx. rewrite F5 by lia. apply HR. lia.
    - apply Z.eqb_neq in E.
      assert (Er : zk arr4 right = zkey axis t).
      { rewrite Al in E. rewrite Ar. lia. }
      destruct (swap_within left right arr4 (j + 1) right)
        as (arr5 & E5 & PW5 & A5 & B5 & F5); try lia.
      exists arr5, (j + 1). rewrite E5. simpl. split; [reflexivity|]. split; [exact PW5|].
      split; [lia|]. split; [rewrite A5; exact Er|]. split.
      + intros x Hx. rewrite F5 by lia.
        destruct (Z.eq_dec x j) as [->|N]; [exact Hj|]. apply HL. lia.
      + intros x Hx. destruct (Z.eq_dec x right) as [->|N].
        * rewrite B5. apply HR. lia.
        * rewrite F5 by lia. apply HR. lia. }
  destruct S5 as (arr5 & p & E5 & PW5 & Bp & Zp & HLp & HRp).
  exists arr5, p. split.
  - cbn [select]. assert (G : (right >? left) = true) by (apply Z.gtb_lt; lia). rewrite G.
    rewrite Hn. cbn [rbind]. rewrite (zget_nthZ arr1 k Hkr). cbn [rbind defined]. fold t.
    rewrite E2. cbn [rbind]. rewrite compare_at_keys by (auto; lia). cbn [rbind].
    rewrite E3. cbn [rbind]. rewrite E4. cbn [rbind].
    rewrite compare_at_keys by (auto; lia). cbn [rbind].
    rewrite E5. cbn [rbind]. reflexivity.
  - split; [|split; [exact Bp|split; [exact Zp|split; assumption]]].
    eapply permuted_within_trans; [exact PW2|].
    eapply permuted_within_trans; [exact PW3|].
    eapply permuted_within_trans;
      (eapply permuted_within_weaken; [eassumption| |]; unfold mn, mx; lia).
Qed.

Hypothesis narrow_shrinks : narrow_ok narrow.

(** [select] returns, and permutes the array inside [lo .. hi] only,
    wherever [left], [right] and [k] lie in [lo .. hi]. *)
Lemma select_permutes :
  forall fuel arr left right k lo hi,
    Forall (has_key axis) arr ->
    0 <= lo -> hi < len arr -> lo <= left -> right <= hi -> lo <= k <= hi ->
    (Z.to_nat (right - left) + 4 <= fuel)%nat ->
    exists arr',
      select narrow axis fuel arr left right k = Ok arr' /\
      permuted_within lo hi arr arr'.
Proof.
  induction fuel as [|fuel IH]; intros arr left right k lo hi Hk H0 H1 Hl Hr Hkr Hf; [lia|].
  destruct (Z_le_gt_dec right left) as [D|D].
  - exists arr. split; [|apply permuted_within_refl].
    cbn [select]. assert (G : (right >? left) = false) by (rewrite Z.gtb_ltb; apply Z.ltb_ge; lia).
    rewrite G. reflexivity.
  - assert (N : exists arr1,
               (if right - left >? 600 then
                  let '(a, b) := narrow left right k in
                  select narrow axis fuel arr (Z.max left a) (Z.min right b) k
                else Ok arr) = Ok arr1 /\ permuted_within lo hi arr arr1).
    { destruct (right - left >? 600) eqn:E.
      - apply Z.gtb_lt in E. pose proof (narrow_shrinks left right k) as S.
        destruct (narrow left right k) as [a b]. simpl in S.
        apply IH; auto; lia.
      - exists arr. split; [reflexivity|apply permuted_within_refl]. }
    destruct N as (arr1 & En & PW1).
    pose proof (permuted_within_len _ _ _ _ PW1) as L1.
    pose proof (keys_permuted _ _ _ _ PW1 Hk) as K1.
    destruct (select_round fuel arr arr1 left right k)
      as (arr5 & p & Es & PW5 & Bp & _); auto; try lia.
    pose proof (permuted_within_len _ _ _ _ PW5) as L5.
    rewrite Es.
    destruct (IH arr5 (if p <=? k then p + 1 else left) (if k <=? p then p - 1 else right)
                k lo hi) as (arr' & E' & PW'); auto; try lia.
    + eapply keys_permuted; eauto.
    + destruct (p <=? k); lia.
    + destruct (k <=? p); lia.
    + destruct (p <=? k) eqn:E1; destruct (k <=? p) eqn:E2;
        try apply Z.leb_le in E1; try apply Z.leb_le in E2;
        try apply Z.leb_gt in E1; try apply Z.leb_gt in E2; lia.
    + exists arr'. split; [exact E'|].
      eapply permuted_within_trans; [exact PW1|].
      eapply permuted_within_trans; [|exact PW'].
      eapply permuted_within_weaken; [exact PW5| |]; lia.
Qed.

(** [select] for [k] inside [left .. right], between two rounds. *)
Lemma select_sorts :
  forall fuel arr left right k lo hi,
    Forall (has_key axis) arr ->
    0 <= lo -> hi < len arr -> lo <= k <= hi ->
    select_inv axis lo hi arr left right k ->
    (Z.to_nat (right - left) + 4 <= fuel)%nat ->
    exists arr',
      select narrow axis fuel arr left right k = Ok arr' /\
      permuted_within left right arr arr' /\
      (forall i, lo <= i < k -> zk arr' i <= zk arr' k) /\
      (forall i, k < i <= hi -> zk arr' k <= zk arr' i).
Proof.
  induction fuel as [|fuel IH]; intros arr left right k lo hi Hk H0 H1 Hkr SI Hf; [lia|].
  destruct SI as (Hl & Hr & Hd & I1 & I2).
  destruct (Z_le_gt_dec right left) as [D|D].
  - exists arr. split; [|split; [apply permuted_within_refl|]].
    + cbn [select].
      assert (G : (right >? left) = false) by (rewrite Z.gtb_ltb; apply Z.ltb_ge; lia).
      rewrite G. reflexivity.
    + destruct Hd as [Hd|[Hd1 Hd2]]; split; intros i Hi.
      * apply I1; lia. * apply I2; lia. * apply I2; lia. * apply I1; lia.
  - destruct Hd as [Hd|Hd]; [|lia].
    assert (N : exists arr1,
               (if right - left >? 600 then
                  let '(a, b) := narrow left right k in
                  select narrow axis fuel arr (Z.max left a) (Z.min right b) k
                else Ok arr) = Ok arr1 /\ permuted_within left right arr arr1).
    { destruct (right - left >? 600) eqn:E.
      - apply Z.gtb_lt in E. pose proof (narrow_shrinks left right k) as S.
        destruct (narrow left right k) as [a b]. simpl in S.
        apply select_permutes; auto; lia.
      - exists arr. split; [reflexivity|apply permuted_within_refl]. }
    destruct N as (arr1 & En & PW1).
    pose proof (permuted_within_len _ _ _ _ PW1) as L1.
    pose proof (keys_permuted _ _ _ _ PW1 Hk) as K1.
    destruct (select_round fuel arr arr1 left right k)
      as (arr5 & p & Es & PW5 & Bp & Zp & HLp & HRp); auto; try lia.
    rewrite Z.min_l, Z.max_l in PW5 by lia.
    assert (PW : permuted_within left right arr arr5)
      by (eapply permuted_within_trans; eauto).
    pose proof (permuted_within_len _ _ _ _ PW) as L5.
    assert (Out : forall x, lo <= x <= hi -> (x < left \/ right < x) ->
                            nthZ arr5 x = nthZ arr x).
    { intros x Hx Ho. eapply permuted_within_nth; eauto. lia. }
    assert (Cl : forall x, left <= x <= right ->
                           exists y, left <= y <= right /\ nthZ arr5 x = nthZ arr y).
    { intros x Hx. eapply permuted_within_closed; eauto; lia. }
    (* every element of arr5 at or after [left] was at or after [left] in arr *)
    assert (ClR : forall x, left <= x <= hi ->
                            exists y, left <= y <= hi /\ nthZ arr5 x = nthZ arr y).
    { intros x Hx. destruct (Z_le_gt_dec x right) as [X|X].
      - destruct (Cl x) as (y & Hy & E); [lia|]. exists y. split; [lia|exact E].
      - exists x. split; [lia|]. apply Out; lia. }
    assert (ClL : forall x, lo <= x <= right ->
                            exists y, lo <= y <= right /\ nthZ arr5 x = nthZ arr y).
    { intros x Hx. destruct (Z_le_gt_dec left x) as [X|X].
      - destruct (Cl x) as (y & Hy & E); [lia|]. exists y. split; [lia|exact E].
      - exists x. split; [lia|]. apply Out; lia. }
    rewrite Es.
    destruct (IH arr5 (if p <=? k then p + 1 else left) (if k <=? p then p - 1 else right)
                k lo hi) as (arr' & E' & PW' & R1 & R2); auto; try lia.
    + eapply keys_permuted; eauto.
    + unfold select_inv.
      destruct (p <=? k) eqn:E1; destruct (k <=? p) eqn:E2;
        try apply Z.leb_le in E1; try apply Z.leb_le in E2;
        try apply Z.leb_gt in E1; try apply Z.leb_gt in E2; try lia.
      * (* p = k *)
        assert (p = k) by lia. subst p.
        split; [lia|]. split; [lia|]. split; [right; lia|]. split.
        -- intros a b Ha Hb.
           assert (A1 : zk arr5 a <= zk arr1 k).
           { destruct (Z_lt_ge_dec a left) as [X|X].
             - rewrite Out by lia. destruct (Cl k) as (y & Hy & E); [lia|].
               rewrite <- Zp, E. apply I1; lia.
             - destruct (Z.eq_dec a k) as [->|]; [lia|]. apply HLp. lia. }
           assert (B1 : zk arr1 k <= zk arr5 b).
           { destruct (Z_le_gt_dec b right) as [X|X].
             - apply HRp. lia.
             - rewrite Out by lia. destruct (Cl k) as (y & Hy & E); [lia|].
               rewrite <- Zp, E. apply I2; lia. }
           lia.
        -- intros a b Ha Hb.
           assert (A1 : zk arr5 a <= zk arr1 k).
           { destruct (Z_lt_ge_dec a left) as [X|X].
             - rewrite Out by lia. destruct (Cl k) as (y & Hy & E); [lia|].
               rewrite <- Zp, E. apply I1; lia.
             - apply HLp. lia. }
           assert (B1 : zk arr1 k <= zk arr5 b).
           { destruct (Z_le_gt_dec b right) as [X|X].
             - destruct (Z.eq_dec b k) as [->|]; [lia|]. apply HRp. lia.
             - rewrite Out by lia. destruct (Cl k) as (y & Hy & E); [lia|].
               rewrite <- Zp, E. apply I2; lia. }
           lia.
      * (* p < k *)
        split; [lia|]. split; [lia|]. split; [left; lia|]. split.
        -- intros a b Ha Hb.
           destruct (Z_lt_ge_dec a left) as [X|X].
           ++ rewrite (Out a) by lia. destruct (ClR b) as (y & Hy & E); [lia|].
              rewrite E. apply I1; lia.
           ++ assert (A1 : zk arr5 a <= zk arr1 k).
              { destruct (Z.eq_dec a p) as [->|]; [lia|]. apply HLp. lia. }
              destruct (Z_le_gt_dec b right) as [Y|Y].
              ** assert (zk arr1 k <= zk arr5 b) by (apply HRp; lia). lia.
              ** rewrite (Out b) by lia. destruct (Cl a) as (y & Hy & E); [lia|].
                 rewrite E. apply I2; lia.
        -- intros a b Ha Hb. rewrite (Out b) by lia.
           destruct (ClL a) as (y & Hy & E); [lia|]. rewrite E. apply I2; lia.
      * (* k < p *)
        split; [lia|]. split; [lia|]. split; [left; lia|]. split.
        -- intros a b Ha Hb. rewrite (Out a) by lia.
           destruct (ClR b) as (y & Hy & E); [lia|]. rewrite E. apply I1; lia.
        -- intros a b Ha Hb.
           destruct (Z_le_gt_dec b right) as [Y|Y].
           ++ assert (B1 : zk arr1 k <= zk arr5 b).
              { destruct (Z.eq_dec b p) as [->|]; [lia|]. apply HRp. lia. }
              destruct (Z_lt_ge_dec a left) as [X|X].
              ** rewrite (Out a) by lia. destruct (Cl b) as (y & Hy & E); [lia|].
                 rewrite E. apply I1; lia.
              ** assert (zk arr5 a <= zk arr1 k) by (apply HLp; lia). lia.
           ++ rewrite (Out b) by lia.
              destruct (ClL a) as (y & Hy & E); [lia|]. rewrite E. apply I2; lia.
    + destruct (p <=? k) eqn:E1; destruct (k <=? p) eqn:E2;
        try apply Z.leb_le in E1; try apply Z.leb_le in E2;
        try apply Z.leb_gt in E1; try apply Z.leb_gt in E2; lia.
    + exists arr'. split; [exact E'|]. split; [|split; assumption].
      eapply permuted_within_trans; [exact PW|].
      eapply permuted_within_weaken; [exact PW'| |].
      * destruct (p <=? k); lia.
      * destruct (k <=? p); lia.
Qed.

Lemma cdiv_bounds a b : 0 < b -> (cdiv a b - 1) * b < a <= cdiv a b * b.
Proof.
  intros Hb. unfold cdiv.
  pose proof (Z.div_mod (a + b - 1) b ltac:(lia)) as E.
  pose proof (Z.mod_pos_bound (a + b - 1) b Hb) as B.
  nia.
Qed.

Lemma multiSelect_mid l r n :
  1 <= n -> n < r - l -> l < l + cdiv (r - l) (2 * n) * n < r.
Proof.
  intros Hn Hd. pose proof (cdiv_bounds (r - l) (2 * n) ltac:(lia)) as B.
  assert (1 <= cdiv (r - l) (2 * n)) by nia.
  destruct (Z.eq_dec (cdiv (r - l) (2 * n)) 1) as [E|E].
  - rewrite E. lia.
  - nia.
Qed.

(** [multiSelect] returns, and permutes the array inside [lo .. hi] only. *)
Lemma multiSelect_loop_permutes n :
  1 <= n ->
  forall fuel arr stack lo hi,
    Forall (has_key axis) arr ->
    0 <= lo -> hi < len arr -> stack_ok lo hi stack ->
    (stack_measure stack + Z.to_nat (hi - lo) + 5 <= fuel)%nat ->
    exists arr',
      multiSelect_loop narrow axis fuel arr stack n = Ok arr' /\
      permuted_within lo hi arr arr'.
Proof.
  intros Hn. induction fuel as [|fuel IH]; intros arr stack lo hi Hk H0 H1 Hs Hf; [lia|].
  destruct Hs as [|r l st Hl Hlr Hr Hs].
  - exists arr. split; [reflexivity|apply permuted_within_refl].
  - cbn [multiSelect_loop]. cbn [stack_measure] in Hf.
    destruct (r - l <=? n) eqn:E.
    + apply IH; auto. lia.
    + apply Z.leb_gt in E.
      pose proof (multiSelect_mid l r n Hn E) as Hm.
      set (mid := l + cdiv (r - l) (2 * n) * n) in *.
      destruct (select_permutes fuel arr l r mid lo hi) as (arr1 & E1 & PW1);
        auto; try lia.
      rewrite E1. cbn [rbind].
      pose proof (permuted_within_len _ _ _ _ PW1) as L1.
      destruct (IH arr1 (r :: mid :: mid :: l :: st) lo hi) as (arr' & E' & PW');
        auto; try lia.
      * eapply keys_permuted; eauto.
      * constructor; try lia. constructor; try lia. exact Hs.
      * cbn [stack_measure]. lia.
      * exists arr'. split; [exact E'|]. eapply permuted_within_trans; eauto.
Qed.

Lemma multiSelect_permutes fuel arr left right n :
  Forall (has_key axis) arr ->
  1 <= n -> 0 <= left -> left <= right -> right < len arr ->
  (3 * Z.to_nat (right - left) + 6 <= fuel)%nat ->
  exists arr',
    multiSelect narrow axis fuel arr left right n = Ok arr' /\
    permuted_within left right arr arr'.
Proof.
  intros Hk Hn H0 Hlr H1 Hf. unfold multiSelect.
  apply multiSelect_loop_permutes; auto.
  - constructor; try lia. constructor.
  - cbn [stack_measure]. lia.
Qed.
End SelectProofs.


(** * More fuel changes no result of the selector *)

Section SelectFuel.
Variable narrow : Z -> Z -> Z -> Z * Z.
Variable axis : nat.

Lemma scan_up_more : forall fuel arr t i r,
  scan_up axis fuel arr t i = Ok r -> scan_up axis (S fuel) arr t i = Ok r.
Proof.
  induction fuel as [|fuel IH]; intros arr t i r H; [discriminate|].
  cbn [scan_up] in H. cbn [scan_up].
  destruct (compare_at axis arr i t) as [c0|e]; cbn [rbind] in *; [|discriminate].
  destruct (lt c0 (Fin 0)); [|exact H]. apply IH in H. exact H.
Qed.

Lemma scan_down_more : forall fuel arr t j r,
  scan_down axis fuel arr t j = Ok r -> scan_down axis (S fuel) arr t j = Ok r.
Proof.
  induction fuel as [|fuel IH]; intros arr t j r H; [discriminate|].
  cbn [scan_down] in H. cbn [scan_down].
  destruct (compare_at axis arr j t) as [c0|e]; cbn [rbind] in *; [|discriminate].
  destruct (gt c0 (Fin 0)); [|exact H]. apply IH in H. exact H.
Qed.

Lemma partition_more : forall fuel arr t i j r,
  partition axis fuel arr t i j = Ok r -> partition axis (S fuel) arr t i j = Ok r.
Proof.
  induction fuel as [|fuel IH]; intros arr t i j r H; [discriminate|].
  cbn [partition] in H. remember (S fuel) as f1 eqn:Ef. cbn [partition]. subst f1.
  destruct (i <? j); [|exact H].
  destruct (swap arr i j) as [a1|e]; cbn [rbind] in *; [|discriminate].
  destruct (scan_up axis fuel a1 t (i + 1)) as [i1|e] eqn:E1; cbn [rbind] in H; [|discriminate].
  rewrite (scan_up_more _ _ _ _ _ E1). cbn [rbind].
  destruct (scan_down axis fuel a1 t (j - 1)) as [j1|e] eqn:E2; cbn [rbind] in H; [|discriminate].
  rewrite (scan_down_more _ _ _ _ _ E2). cbn [rbind].
  apply IH. exact H.
Qed.

Lemma select_more : forall fuel arr left right k r,
  select narrow axis fuel arr left right k = Ok r ->
  select narrow axis (S fuel) arr left right k = Ok r.
Proof.
  induction fuel as [|fuel IH]; intros arr left right k r H; [discriminate|].
  cbn [select] in H. remember (S fuel) as f1 eqn:Ef. cbn [select]. subst f1.
  destruct (right >? left); [|exact H].
  assert (E0 : forall a1,
             (if right - left >? 600
              then let '(lo, hi) := narrow left right k in
                   select narrow axis fuel arr (Z.max left lo) (Z.min right hi) k
              else Ok arr) = Ok a1 ->
             (if right - left >? 600
              then let '(lo, hi) := narrow left right k in
                   select narrow axis (S fuel) arr (Z.max left lo) (Z.min right hi) k
              else Ok arr) = Ok a1).
  { intros a1 E. destruct (right - left >? 600); [|exact E].
    destruct (narrow left right k) as [lo hi]. apply IH. exact E. }
  destruct (if right - left >? 600
            then let '(lo, hi) := narrow left right k in
                 select narrow axis fuel arr (Z.max left lo) (Z.min right hi) k
            else Ok arr) as [a1|e] eqn:E1; cbn [rbind] in H; [|discriminate].
  rewrite (E0 a1 eq_refl). cbn [rbind].
  destruct (defined (zget a1 k)) as [t0|e]; cbn [rbind] in *; [|discriminate].
  destruct (swap a1 left k) as [a2|e]; cbn [rbind] in *; [|discriminate].
  destruct (compare_at axis a2 right t0) as [c0|e]; cbn [rbind] in *; [|discriminate].
  destruct (if gt c0 (Fin 0) then swap a2 left right else Ok a2) as [a3|e];
    cbn [rbind] in *; [|discriminate].
  destruct (partition axis fuel a3 t0 left right) as [[[a4 i4] j4]|e] eqn:E4;
    cbn [rbind] in H; [|discriminate].
  rewrite (partition_more _ _ _ _ _ _ E4). cbn [rbind].
  destruct (compare_at axis a4 left t0) as [c1|e]; cbn [rbind] in *; [|discriminate].
  destruct (if strict_eq c1 (Fin 0)
            then a5 <- swap a4 left j4;; Ok (a5, j4)
            else a5 <- swap a4 (j4 + 1) right;; Ok (a5, j4 + 1)) as [[a5 j5]|e];
    cbn [rbind] in *; [|discriminate].
  apply IH. exact H.
Qed.

Lemma multiSelect_loop_more : forall fuel arr stack n r,
  multiSelect_loop narrow axis fuel arr stack n = Ok r ->
  multiSelect_loop narrow axis (S fuel) arr stack n = Ok r.
Proof.
  induction fuel as [|fuel IH]; intros arr stack n r H; [discriminate|].
  cbn [multiSelect_loop] in H. remember (S fuel) as f1 eqn:Ef. cbn [multiSelect_loop]. subst f1.
  destruct stack as [|r0 [|l0 stack]]; [exact H|exact H|].
  destruct (r0 - l0 <=? n); [apply IH; exact H|].
  destruct (select narrow axis fuel arr l0 r0 (l0 + cdiv (r0 - l0) (2 * n) * n))
    as [a1|e] eqn:E1; cbn [rbind] in H; [|discriminate].
  rewrite (select_more _ _ _ _ _ _ E1). cbn [rbind]. apply IH. exact H.
Qed.

Lemma multiSelect_more (fuel k : nat) arr left right n r :
  multiSelect narrow axis fuel arr left right n = Ok r -> (fuel <= k)%nat ->
  multiSelect narrow axis k arr left right n = Ok r.
Proof.
  intros H Hk. unfold multiSelect in *. induction Hk as [|k Hk IH]; [exact H|].
  apply multiSelect_loop_more. exact IH.
Qed.

Hypothesis narrow_shrinks : narrow_ok narrow.

(** [multiSelect] returns, the same array whatever fuel it has left. *)
Lemma multiSelect_returns arr left right n :
  Forall (has_key axis) arr ->
  1 <= n -> 0 <= left -> left <= right -> right < len arr ->
  exists arr',
    (forall fuel, (3 * Z.to_nat (right - left) + 6 <= fuel)%nat ->
       multiSelect narrow axis fuel arr left right n = Ok arr') /\
    permuted_within left right arr arr'.
Proof.
  intros Hk Hn Hl Hr Hlen.
  destruct (multiSelect_permutes narrow axis narrow_shrinks
              (3 * Z.to_nat (right - left) + 6) arr left right n Hk Hn Hl Hr Hlen (le_n _))
    as (arr' & E & Pw).
  exists arr'. split; [|exact Pw]. intros fuel Hf.
  eapply multiSelect_more; eauto.
Qed.
End SelectFuel.

(** Bounds that leave the range [k .. k] shrink every range. *)
Lemma narrow_to_k_ok : narrow_ok narrow_to_k.
Proof. intros left right k H. unfold narrow_to_k. simpl. lia. Qed.

Lemma select_later narrow axis (fuel k : nat) arr left right kk r :
  select narrow axis fuel arr left right kk = Ok r -> (fuel <= k)%nat ->
  select narrow axis k arr left right kk = Ok r.
Proof.
  intros H Hk. induction Hk as [|k Hk IH]; [exact H|]. apply select_more. exact IH.
Qed.


(** * Deletion of an item the tree does not hold *)

Lemma node_induction (P : node -> Prop) :
  (forall ch h b, P (Leaf ch h b)) ->
  (forall ch h b, Forall P ch -> P (Inner ch h b)) ->
  forall n, P n.
Proof.
  intros HL HI. fix IH 1. intros [ch h b|ch h b].
  - apply HL.
  - apply HI. induction ch as [|c ch IHch]; constructor; [apply IH|exact IHch].
Qed.


Lemma last_opt_app {A} (l : list A) x : last_opt (l ++ [x]) = Some x.
Proof.
  unfold last_opt. rewrite map_app. simpl. apply last_last.
Qed.

Lemma len_app_one {A} (l : list A) x : (len (l ++ [x]) =? 0) = false.
Proof.
  apply Z.eqb_neq. unfold len. rewrite length_app. simpl. lia.
Qed.


Section RemoveAbsent.
Variable t : rbush_t.
Variable item : Item.

Local Abbreviation go := (remove_loop t item).


End RemoveAbsent.


(** * Boxes and their unions *)

Lemma rd_wr a i v j : rd (wr a i v) j = if Nat.eqb j i then v else rd a j.
Proof.
  unfold rd, wr, aget. revert a j. induction i as [|i IH]; intros a j.
  - destruct a, j; simpl; auto. destruct j; reflexivity.
  - destruct a as [|x a], j as [|j]; simpl; auto.
    + rewrite IH. destruct (Nat.eqb j i); auto. destruct j; reflexivity.
Qed.

Lemma length_wr a i v : length (wr a i v) = Nat.max (length a) (S i).
Proof.
  unfold wr. revert a. induction i as [|i IH]; intros a.
  - destruct a; simpl; auto. lia.
  - destruct a as [|x a]; simpl; rewrite IH; simpl; lia.
Qed.

Lemma box_ext (a b : box) :
  length a = length b -> (forall j, rd a j = rd b j) -> a = b.
Proof.
  intros L H. apply nth_ext with (d := NaN) (d' := NaN); [exact L|].
  intros n _. apply H.
Qed.

Lemma rd_out a j : (length a <= j)%nat -> rd a j = NaN.
Proof. intros H. unfold rd, aget. apply nth_overflow. exact H. Qed.

Lemma Forall_rd (P : num -> Prop) a j : Forall P a -> (j < length a)%nat -> P (rd a j).
Proof.
  intros H Hj. rewrite Forall_forall in H. apply H. unfold rd, aget. apply nth_In. exact Hj.
Qed.

Lemma Forall_of_rd (P : num -> Prop) a :
  (forall j, (j < length a)%nat -> P (rd a j)) -> Forall P a.
Proof.
  intros H. apply Forall_forall. intros x Hx.
  destruct (In_nth a x NaN Hx) as (n & Hn & E). rewrite <- E. apply H. exact Hn.
Qed.

(** ** [extend] coordinate by coordinate *)

Lemma extend_loop_spec d b :
  forall ks a,
    (forall k, In k ks -> (k < d)%nat) -> NoDup ks ->
    (d <= length a)%nat ->
    let r := fold_left
               (fun a i =>
                  let j := (d + i)%nat in
                  let a := wr a i (js_min (rd a i) (rd b i)) in
                  wr a j (js_max (rd a j) (rd b j))) ks a in
    (length a = (2 * d)%nat -> length r = (2 * d)%nat) /\
    forall j,
      rd r j =
        if (j <? d)%nat then (if existsb (Nat.eqb j) ks then js_min (rd a j) (rd b j) else rd a j)
        else if existsb (fun k => Nat.eqb j (d + k)) ks then js_max (rd a j) (rd b j)
             else rd a j.
Proof.
  induction ks as [|k ks IH]; intros a Hks Hnd Hl; simpl.
  - split; auto. intros j. destruct (j <? d)%nat; reflexivity.
  - inversion Hnd as [|? ? Hk Hnd']; subst.
    assert (Kd : (k < d)%nat) by (apply Hks; left; reflexivity).
    set (a1 := wr (wr a k (js_min (rd a k) (rd b k))) (d + k)
                  (js_max (rd (wr a k (js_min (rd a k) (rd b k))) (d + k)) (rd b (d + k)))).
    assert (L1 : (d <= length a1)%nat).
    { unfold a1. rewrite !length_wr. lia. }
    destruct (IH a1 (fun x Hx => Hks x (or_intror Hx)) Hnd' L1) as [IHl IHr].
    split.
    + intros La. apply IHl. unfold a1. rewrite !length_wr. lia.
    + intros j. rewrite IHr. unfold a1. rewrite !rd_wr.
      assert (Ek : forall x, existsb (Nat.eqb x) ks = true -> x <> k).
      { intros x Hx ->. apply Hk. apply existsb_exists in Hx.
        destruct Hx as (y & Hy & E). apply Nat.eqb_eq in E. subst. exact Hy. }
      assert (Ek' : forall x, existsb (fun k => Nat.eqb x (d + k)) ks = true -> x <> (d + k)%nat).
      { intros x Hx ->. apply Hk. apply existsb_exists in Hx.
        destruct Hx as (y & Hy & E). apply Nat.eqb_eq in E.
        assert (y = k) by lia. subst. exact Hy. }
      destruct (j <? d)%nat eqn:Jd.
      * apply Nat.ltb_lt in Jd.
        assert (N1 : Nat.eqb j (d + k) = false) by (apply Nat.eqb_neq; lia).
        assert (N2 : Nat.eqb (d + k) k = false) by (apply Nat.eqb_neq; lia).
        rewrite N1. destruct (Nat.eqb j k) eqn:Jk.
        -- apply Nat.eqb_eq in Jk. subst j. simpl.
           destruct (existsb (Nat.eqb k) ks) eqn:X; [exfalso; apply (Ek k X); reflexivity|].
           reflexivity.
        -- simpl. reflexivity.
      * apply Nat.ltb_ge in Jd.
        assert (N1 : Nat.eqb j k = false) by (apply Nat.eqb_neq; lia).
        rewrite N1. destruct (Nat.eqb j (d + k)) eqn:Jk.
        -- apply Nat.eqb_eq in Jk. subst j. simpl.
           assert (N2 : Nat.eqb (d + k) k = false) by (apply Nat.eqb_neq; lia).
           rewrite N2.
           destruct (existsb (fun k0 => Nat.eqb (d + k) (d + k0)) ks) eqn:X;
             [exfalso; apply (Ek' _ X); reflexivity|].
           reflexivity.
        -- simpl. reflexivity.
Qed.

Lemma existsb_seq_lt j d : (j < d)%nat -> existsb (Nat.eqb j) (seq 0 d) = true.
Proof.
  intros H. apply existsb_exists. exists j. split; [apply in_seq; lia|apply Nat.eqb_refl].
Qed.

Lemma existsb_seq_shift j d :
  (d <= j < 2 * d)%nat -> existsb (fun k => Nat.eqb j (d + k)) (seq 0 d) = true.
Proof.
  intros H. apply existsb_exists. exists (j - d)%nat. split; [apply in_seq; lia|].
  apply Nat.eqb_eq. lia.
Qed.

Lemma existsb_seq_shift_out j d :
  (2 * d <= j)%nat -> existsb (fun k => Nat.eqb j (d + k)) (seq 0 d) = false.
Proof.
  intros H. destruct (existsb _ _) eqn:E; auto.
  apply existsb_exists in E. destruct E as (y & Hy & E).
  apply in_seq in Hy. apply Nat.eqb_eq in E. lia.
Qed.

(** [extend] takes the smaller minimum and the larger maximum on every axis. *)
Lemma extend_spec d a b :
  length a = (2 * d)%nat ->
  length (extend d a b) = (2 * d)%nat /\
  (forall j, (j < d)%nat -> rd (extend d a b) j = js_min (rd a j) (rd b j)) /\
  (forall j, (d <= j < 2 * d)%nat -> rd (extend d a b) j = js_max (rd a j) (rd b j)).
Proof.
  intros La. unfold extend, axes.
  destruct (extend_loop_spec d b (seq 0 d) a) as [Hl Hr].
  - intros k Hk. apply in_seq in Hk. lia.
  - apply seq_NoDup.
  - lia.
  - split; [apply Hl; exact La|]. split; intros j Hj; rewrite Hr.
    + assert (G : (j <? d)%nat = true) by (apply Nat.ltb_lt; lia). rewrite G.
      rewrite existsb_seq_lt by lia. reflexivity.
    + assert (G : (j <? d)%nat = false) by (apply Nat.ltb_ge; lia). rewrite G.
      rewrite existsb_seq_shift by lia. reflexivity.
Qed.

(** ** Minimum and maximum of numbers that are not NaN *)

Ltac num_cases :=
  unfold js_min, js_max, is_nan, lt, not_nan in *; simpl;
  repeat match goal with
         | |- context [Z.ltb ?a ?b] => destruct (Z.ltb_spec a b)
         end;
  simpl; try reflexivity; try congruence; try (f_equal; lia); try lia.

Lemma js_min_comm a b : js_min a b = js_min b a.
Proof. destruct a, b; num_cases. Qed.

Lemma js_max_comm a b : js_max a b = js_max b a.
Proof. destruct a, b; num_cases. Qed.

Lemma js_min_assoc a b c : js_min (js_min a b) c = js_min a (js_min b c).
Proof. destruct a, b, c; num_cases. Qed.

Lemma js_max_assoc a b c : js_max (js_max a b) c = js_max a (js_max b c).
Proof. destruct a, b, c; num_cases. Qed.

Lemma js_min_idem a : js_min a a = a.
Proof. destruct a; num_cases. Qed.

Lemma js_max_idem a : js_max a a = a.
Proof. destruct a; num_cases. Qed.

Lemma js_min_not_nan a b : not_nan a -> not_nan b -> not_nan (js_min a b).
Proof. destruct a, b; num_cases. Qed.

Lemma js_max_not_nan a b : not_nan a -> not_nan b -> not_nan (js_max a b).
Proof. destruct a, b; num_cases. Qed.

Lemma js_min_PInf a : not_nan a -> js_min PInf a = a.
Proof. destruct a; num_cases. Qed.

Lemma js_max_NInf a : not_nan a -> js_max NInf a = a.
Proof. destruct a; num_cases. Qed.

Lemma finite_not_nan a : finite a -> not_nan a.
Proof. intros [z ->]. discriminate. Qed.

Lemma js_min_finite_l a b : finite a -> not_nan b -> b <> NInf -> finite (js_min a b).
Proof. intros [z ->] Hb Hn. destruct b; num_cases; eexists; reflexivity. Qed.

Lemma js_max_finite_l a b : finite a -> not_nan b -> b <> PInf -> finite (js_max a b).
Proof. intros [z ->] Hb Hn. destruct b; num_cases; eexists; reflexivity. Qed.

Lemma js_min_finite a b : finite a -> finite b -> finite (js_min a b).
Proof. intros [x ->] [y ->]. num_cases; eexists; reflexivity. Qed.

Lemma js_max_finite a b : finite a -> finite b -> finite (js_max a b).
Proof. intros [x ->] [y ->]. num_cases; eexists; reflexivity. Qed.

(** ** [extend] on boxes without NaN *)

Lemma fbox_clean d b : fbox d b -> clean d b.
Proof.
  intros [L F]. split; [exact L|]. eapply Forall_impl; [|exact F].
  intros a. apply finite_not_nan.
Qed.

Lemma clean_rd d b j : clean d b -> (j < 2 * d)%nat -> not_nan (rd b j).
Proof. intros [L F] H. apply Forall_rd; [exact F|lia]. Qed.

Lemma fbox_rd d b j : fbox d b -> (j < 2 * d)%nat -> finite (rd b j).
Proof. intros [L F] H. apply Forall_rd; [exact F|lia]. Qed.

Lemma extend_clean d a b : clean d a -> clean d b -> clean d (extend d a b).
Proof.
  intros Ha Hb. destruct (extend_spec d a b (proj1 Ha)) as (L & Hmin & Hmax).
  split; [exact L|]. apply Forall_of_rd. intros j Hj. rewrite L in Hj.
  destruct (Nat.lt_ge_cases j d).
  - rewrite Hmin by lia. apply js_min_not_nan; eapply clean_rd; eauto; lia.
  - rewrite Hmax by lia. apply js_max_not_nan; eapply clean_rd; eauto; lia.
Qed.

Lemma extend_fbox d a b : fbox d a -> fbox d b -> fbox d (extend d a b).
Proof.
  intros Ha Hb. destruct (extend_spec d a b (proj1 Ha)) as (L & Hmin & Hmax).
  split; [exact L|]. apply Forall_of_rd. intros j Hj. rewrite L in Hj.
  destruct (Nat.lt_ge_cases j d).
  - rewrite Hmin by lia. apply js_min_finite; eapply fbox_rd; eauto; lia.
  - rewrite Hmax by lia. apply js_max_finite; eapply fbox_rd; eauto; lia.
Qed.

Lemma extend_eq d a b r :
  length a = (2 * d)%nat -> length r = (2 * d)%nat ->
  (forall j, (j < d)%nat -> rd r j = js_min (rd a j) (rd b j)) ->
  (forall j, (d <= j < 2 * d)%nat -> rd r j = js_max (rd a j) (rd b j)) ->
  extend d a b = r.
Proof.
  intros La Lr Hmin Hmax. destruct (extend_spec d a b La) as (L & Emin & Emax).
  apply box_ext; [congruence|]. intros j.
  destruct (Nat.lt_ge_cases j d); [rewrite Emin, Hmin by lia; reflexivity|].
  destruct (Nat.lt_ge_cases j (2 * d)); [rewrite Emax, Hmax by lia; reflexivity|].
  rewrite !rd_out by lia. reflexivity.
Qed.

Lemma extend_comm d a b : clean d a -> clean d b -> extend d a b = extend d b a.
Proof.
  intros [La _] [Lb _]. destruct (extend_spec d b a Lb) as (L & Emin & Emax).
  apply extend_eq; auto; intros j Hj.
  - rewrite Emin by lia. apply js_min_comm.
  - rewrite Emax by lia. apply js_max_comm.
Qed.

Lemma extend_assoc d a b c :
  clean d a -> clean d b -> clean d c ->
  extend d (extend d a b) c = extend d a (extend d b c).
Proof.
  intros [La _] [Lb _] [Lc _].
  destruct (extend_spec d a b La) as (L1 & M1 & X1).
  destruct (extend_spec d b c Lb) as (L2 & M2 & X2).
  destruct (extend_spec d a (extend d b c) La) as (L3 & M3 & X3).
  apply extend_eq; auto; intros j Hj.
  - rewrite M3, M1, M2 by lia. symmetry. apply js_min_assoc.
  - rewrite X3, X1, X2 by lia. symmetry. apply js_max_assoc.
Qed.

Lemma extend_idem d a : clean d a -> extend d a a = a.
Proof.
  intros [La _]. apply extend_eq; auto; intros j Hj.
  - symmetry. apply js_min_idem.
  - symmetry. apply js_max_idem.
Qed.

Lemma extend_absorb d a b : clean d a -> clean d b -> extend d (extend d a b) b = extend d a b.
Proof.
  intros Ha Hb. rewrite extend_assoc by assumption. rewrite extend_idem by assumption.
  reflexivity.
Qed.

(** ** The empty box *)

Lemma rd_empty_box d j :
  rd (empty_box d) j = if (j <? d)%nat then PInf else if (j <? 2 * d)%nat then NInf else NaN.
Proof.
  unfold rd, aget, empty_box.
  destruct (j <? d)%nat eqn:E.
  - apply Nat.ltb_lt in E. rewrite app_nth1 by (rewrite repeat_length; lia).
    apply nth_repeat_lt. exact E.
  - apply Nat.ltb_ge in E. rewrite app_nth2 by (rewrite repeat_length; lia).
    rewrite repeat_length. destruct (j <? 2 * d)%nat eqn:E2.
    + apply Nat.ltb_lt in E2. apply nth_repeat_lt. lia.
    + apply Nat.ltb_ge in E2. apply nth_overflow. rewrite repeat_length. lia.
Qed.

Lemma length_empty_box d : length (empty_box d) = (2 * d)%nat.
Proof. unfold empty_box. rewrite length_app, !repeat_length. lia. Qed.

Lemma empty_box_clean d : clean d (empty_box d).
Proof.
  split; [apply length_empty_box|]. apply Forall_of_rd. intros j Hj.
  rewrite length_empty_box in Hj. rewrite rd_empty_box.
  destruct (j <? d)%nat; [discriminate|].
  assert (G : (j <? 2 * d)%nat = true) by (apply Nat.ltb_lt; lia). rewrite G. discriminate.
Qed.

Lemma extend_empty_l d b : clean d b -> extend d (empty_box d) b = b.
Proof.
  intros Hb. apply extend_eq; try apply length_empty_box; try apply Hb; intros j Hj;
    rewrite rd_empty_box.
  - assert (G : (j <? d)%nat = true) by (apply Nat.ltb_lt; lia). rewrite G.
    symmetry. apply js_min_PInf. eapply clean_rd; eauto. lia.
  - assert (G : (j <? d)%nat = false) by (apply Nat.ltb_ge; lia). rewrite G.
    assert (G2 : (j <? 2 * d)%nat = true) by (apply Nat.ltb_lt; lia). rewrite G2.
    symmetry. apply js_max_NInf. eapply clean_rd; eauto. lia.
Qed.

Lemma extend_empty_r d b : clean d b -> extend d b (empty_box d) = b.
Proof.
  intros Hb. rewrite extend_comm; auto using empty_box_clean. apply extend_empty_l. exact Hb.
Qed.

Ltac bool_nat :=
  repeat match goal with
         | |- context [(?a <? ?b)%nat] => destruct (Nat.ltb_spec a b)
         | |- context [(?a <=? ?b)%nat] => destruct (Nat.leb_spec a b)
         | |- context [Nat.eqb ?a ?b] => destruct (Nat.eqb_spec a b)
         end;
  simpl; try reflexivity; try lia.

Lemma empty_fill_loop d n :
  (n <= d)%nat ->
  let r := fold_left (fun e i => let e := wr e i PInf in wr e (d + i)%nat NInf) (seq 0 n) [] in
  length r = (if Nat.eqb n 0 then 0 else d + n)%nat /\
  forall j, rd r j = if (j <? n)%nat then PInf
                     else if ((d <=? j) && (j <? d + n))%nat then NInf else NaN.
Proof.
  induction n as [|n IH]; intros Hn; cbv zeta.
  - simpl. split; [reflexivity|]. intros j. rewrite rd_out by (simpl; lia).
    destruct (d <=? j)%nat eqn:A; simpl; [|reflexivity].
    apply Nat.leb_le in A.
    assert (G2 : (j <? d + 0)%nat = false) by (apply Nat.ltb_ge; lia). rewrite G2.
    reflexivity.
  - rewrite seq_S, fold_left_app. cbn [fold_left Nat.add].
    destruct (IH ltac:(lia)) as [L R]. cbv zeta in L, R.
    set (r := fold_left (fun e i => wr (wr e i PInf) (d + i) NInf) (seq 0 n) []) in *.
    split.
    + rewrite !length_wr, L. cbn [Nat.eqb].
      destruct (Nat.eqb n 0) eqn:E; [apply Nat.eqb_eq in E|]; lia.
    + intros j. rewrite !rd_wr, R. bool_nat.
Qed.

(** The array the creation branch of [empty] stores is the empty box. *)
Lemma empty_fill_is_empty_box d : empty_fill d = empty_box d.
Proof.
  destruct (empty_fill_loop d d (Nat.le_refl d)) as [L R]. cbv zeta in L, R.
  unfold empty_fill, axes. apply box_ext.
  - rewrite L, length_empty_box. destruct (Nat.eqb d 0) eqn:E; [apply Nat.eqb_eq in E|]; lia.
  - intros j. rewrite R, rd_empty_box.
    destruct (j <? d)%nat eqn:A; [reflexivity|]. apply Nat.ltb_ge in A.
    assert (G : (d <=? j)%nat = true) by (apply Nat.leb_le; lia). rewrite G. simpl.
    replace (d + d)%nat with (2 * d)%nat by lia. reflexivity.
Qed.

(** ** Unions *)

Lemma fold_extend_clean d l : forall a,
  clean d a -> Forall (clean d) l -> clean d (fold_left (extend d) l a).
Proof.
  induction l as [|b l IH]; intros a Ha Hl; simpl; [exact Ha|].
  inversion Hl; subst. apply IH; [apply extend_clean|]; assumption.
Qed.

Lemma union_clean d l : Forall (clean d) l -> clean d (union d l).
Proof. apply fold_extend_clean. apply empty_box_clean. Qed.

Lemma fold_extend_union d l : forall a,
  clean d a -> Forall (clean d) l ->
  fold_left (extend d) l a = extend d a (union d l).
Proof.
  unfold union. induction l as [|b l IH]; intros a Ha Hl; simpl.
  - symmetry. apply extend_empty_r. exact Ha.
  - inversion Hl as [|? ? Hb Hl']; subst.
    rewrite IH by (try apply extend_clean; assumption).
    rewrite (extend_empty_l d b Hb).
    rewrite (IH b Hb Hl').
    apply extend_assoc; auto. apply (union_clean d l Hl').
Qed.

Lemma union_cons d b l :
  clean d b -> Forall (clean d) l -> union d (b :: l) = extend d b (union d l).
Proof.
  intros Hb Hl. unfold union at 1. simpl. rewrite extend_empty_l by exact Hb.
  apply fold_extend_union; assumption.
Qed.

Lemma union_nil d : union d [] = empty_box d.
Proof. reflexivity. Qed.

Lemma union_app d l1 l2 :
  Forall (clean d) l1 -> Forall (clean d) l2 ->
  union d (l1 ++ l2) = extend d (union d l1) (union d l2).
Proof.
  intros H1 H2. unfold union at 1. rewrite fold_left_app.
  apply fold_extend_union; [apply union_clean|]; assumption.
Qed.

Lemma union_snoc d l b : union d (l ++ [b]) = extend d (union d l) b.
Proof. unfold union. rewrite fold_left_app. reflexivity. Qed.

Lemma union_perm d l l' :
  Permutation l l' -> Forall (clean d) l -> union d l = union d l'.
Proof.
  induction 1 as [|x l l' P IH|x y l|l l' l'' P1 IH1 P2 IH2]; intros Hl.
  - reflexivity.
  - inversion Hl; subst.
    rewrite !union_cons; auto; [f_equal; auto|]. eapply Permutation_Forall; eauto.
  - inversion Hl as [|? ? Hy Hl']; subst. inversion Hl' as [|? ? Hx Hl'']; subst.
    rewrite !union_cons; auto.
    rewrite <- !extend_assoc; auto using union_clean. f_equal. apply extend_comm; auto.
  - rewrite IH1 by exact Hl. apply IH2. eapply Permutation_Forall; eauto.
Qed.

Lemma union_fbox d l : l <> [] -> Forall (fbox d) l -> fbox d (union d l).
Proof.
  intros Hn Hl. destruct l as [|b l]; [congruence|]. clear Hn.
  inversion Hl as [|? ? Hb Hl']; subst.
  unfold union. simpl. rewrite extend_empty_l by (apply fbox_clean; exact Hb).
  clear Hl. revert b Hb. induction l as [|c l IH]; intros b Hb; simpl; [exact Hb|].
  inversion Hl'; subst. apply IH; auto. apply extend_fbox; assumption.
Qed.

(** Growing one member of a union grows the union. *)
Lemma union_replace d l1 x y l2 :
  Forall (clean d) l1 -> clean d x -> clean d y -> Forall (clean d) l2 ->
  union d (l1 ++ extend d x y :: l2) = extend d (union d (l1 ++ x :: l2)) y.
Proof.
  intros H1 Hx Hy H2.
  assert (Hxy : clean d (extend d x y)) by (apply extend_clean; assumption).
  rewrite !union_app by (auto; constructor; auto).
  rewrite !union_cons by auto.
  pose proof (union_clean d l1 H1) as C1. pose proof (union_clean d l2 H2) as C2.
  rewrite (extend_comm d x y) by auto.
  rewrite (extend_assoc d y x) by auto.
  rewrite <- (extend_assoc d (union d l1) y) by (auto using extend_clean).
  rewrite (extend_comm d (union d l1) y) by auto.
  rewrite (extend_assoc d y) by (auto using extend_clean).
  apply extend_comm; auto using extend_clean.
Qed.


(** ** Areas and margins of boxes with integer coordinates *)

Lemma add_finite a b : finite a -> finite b -> finite (add a b).
Proof. intros [x ->] [y ->]. eexists. reflexivity. Qed.

Lemma sub_finite a b : finite a -> finite b -> finite (sub a b).
Proof. intros [x ->] [y ->]. eexists. reflexivity. Qed.

Lemma mul_finite a b : finite a -> finite b -> finite (mul a b).
Proof. intros [x ->] [y ->]. eexists. reflexivity. Qed.

Lemma fold_finite (f : num -> nat -> num) d :
  (forall a i, finite a -> (i < d)%nat -> finite (f a i)) ->
  forall l a, (forall i, In i l -> (i < d)%nat) -> finite a -> finite (fold_left f l a).
Proof.
  intros Hf. induction l as [|i l IH]; intros a Hl Ha; simpl; [exact Ha|].
  apply IH; [intros; apply Hl; right; assumption|].
  apply Hf; [exact Ha|apply Hl; left; reflexivity].
Qed.

Lemma axes_lt d i : In i (axes d) -> (i < d)%nat.
Proof. unfold axes. intros H. apply in_seq in H. lia. Qed.

Lemma bboxArea_finite d a : fbox d a -> finite (bboxArea d a).
Proof.
  intros Ha. unfold bboxArea. apply fold_finite with (d := d).
  - intros x i Hx Hi. apply mul_finite; [exact Hx|].
    apply sub_finite; eapply fbox_rd; eauto; lia.
  - apply axes_lt.
  - eexists; reflexivity.
Qed.

Lemma bboxMargin_finite d a : fbox d a -> finite (bboxMargin d a).
Proof.
  intros Ha. unfold bboxMargin. apply fold_finite with (d := d).
  - intros x i Hx Hi. apply add_finite; [exact Hx|].
    apply sub_finite; eapply fbox_rd; eauto; lia.
  - apply axes_lt.
  - eexists; reflexivity.
Qed.

Lemma enlargedArea_finite d a b : fbox d a -> fbox d b -> finite (enlargedArea d a b).
Proof.
  intros Ha Hb. unfold enlargedArea. apply fold_finite with (d := d).
  - intros x i Hx Hi. apply mul_finite; [exact Hx|].
    apply sub_finite; [apply js_max_finite|apply js_min_finite]; eapply fbox_rd; eauto; lia.
  - apply axes_lt.
  - eexists; reflexivity.
Qed.

Lemma intersectionArea_finite d a b : fbox d a -> fbox d b -> finite (intersectionArea d a b).
Proof.
  intros Ha Hb. unfold intersectionArea.
  assert (G : forall ixs area, (forall i, In i ixs -> (i < d)%nat) -> finite area ->
                               finite (intersectionArea_loop d a b ixs area)).
  { induction ixs as [|i ixs IH]; intros area Hl Hf; simpl; [exact Hf|].
    assert (Hi : (i < d)%nat) by (apply Hl; left; reflexivity).
    assert (F : finite (mul area (js_max (Fin 0)
                 (sub (js_max (rd b i) (rd a i)) (js_min (rd b (d + i)) (rd a (d + i))))))).
    { apply mul_finite; [exact Hf|]. apply js_max_finite; [eexists; reflexivity|].
      apply sub_finite; [apply js_max_finite|apply js_min_finite];
        eapply fbox_rd; eauto; lia. }
    destruct (strict_eq _ _); [exact F|]. apply IH; [|exact F].
    intros; apply Hl; right; assumption. }
  apply G; [apply axes_lt|eexists; reflexivity].
Qed.

Lemma lt_finite_PInf a : finite a -> lt a PInf = true.
Proof. intros [z ->]. reflexivity. Qed.

(** ** The cache *)

Lemma aget_aset {A} (hole : A) l i v j :
  aget hole (aset hole l i v) j = if Nat.eqb j i then v else aget hole l j.
Proof.
  unfold aget. revert l j. induction i as [|i IH]; intros l j.
  - destruct l, j; simpl; auto. destruct j; reflexivity.
  - destruct l as [|x l], j as [|j]; simpl; auto.
    rewrite IH. destruct (Nat.eqb j i); auto. destruct j; reflexivity.
Qed.

Lemma empty_warm d c : warm d c -> empty d c = (Some (empty_box d), c).
Proof. unfold warm, empty. intros ->. reflexivity. Qed.

Lemma empty_m_warm d c : warm d c -> empty_m d c = Ok (Some (empty_box d), c).
Proof. intros H. unfold empty_m. rewrite empty_warm by exact H. reflexivity. Qed.

(** A call of [empty] keeps the cache sound, fills its entry, and returns
    [undefined] or the empty box. *)
Lemma empty_cache_ok d c :
  cache_ok c ->
  cache_ok (snd (empty d c)) /\ warm d (snd (empty d c)) /\
  (fst (empty d c) = None \/ fst (empty d c) = Some (empty_box d)).
Proof.
  intros Hc. unfold empty. destruct (cache_get c d) as [e|] eqn:E; simpl.
  - pose proof (Hc d e E) as ->. repeat split; auto.
  - split; [|split; [|left; reflexivity]].
    + intros d' e. unfold cache_get. rewrite aget_aset.
      destruct (Nat.eqb_spec d' d) as [->|N].
      * intros H. injection H as <-. apply empty_fill_is_empty_box.
      * apply Hc.
    + unfold warm, cache_get. rewrite aget_aset, Nat.eqb_refl.
      rewrite empty_fill_is_empty_box. reflexivity.
Qed.


(** * Well-formed nodes *)

Section WfFacts.
Variable d : nat.
Variables maxE lo : Z.
Hypothesis lo_pos : 1 <= lo.

Lemma wf_bbox m h n : wf d maxE lo m h n -> bbox_of n = Some (union d (child_boxes n)).
Proof. intros H. inversion H; subst; reflexivity. Qed.

Lemma wf_height m h n : wf d maxE lo m h n -> height_of n = h.
Proof. intros H. inversion H; subst; reflexivity. Qed.

Lemma wf_height_pos m h n : wf d maxE lo m h n -> 1 <= h.
Proof. intros H. inversion H; subst; lia. Qed.

Lemma wf_kids m h n : wf d maxE lo m h n -> kids_ok d maxE lo h n.
Proof. intros H. inversion H; subst; simpl; auto. Qed.

Lemma wf_count m h n : wf d maxE lo m h n -> m <= nchildren n <= maxE.
Proof. intros H. inversion H; subst; simpl; lia. Qed.

Lemma wf_weaken m m' h n : wf d maxE lo m h n -> m' <= m -> wf d maxE lo m' h n.
Proof.
  intros H Hm. inversion H; subst.
  - apply wf_leaf; auto; lia.
  - apply wf_inner; auto; lia.
Qed.


(** A node is well formed when its children are, their number is in range
    and its [bbox] is their union. *)
Lemma wf_from_parts m h n :
  kids_ok d maxE lo h n ->
  (is_leaf n = false -> 1 <= nchildren n) ->
  m <= nchildren n <= maxE ->
  bbox_of n = Some (union d (child_boxes n)) ->
  wf d maxE lo m h n.
Proof.
  intros K N C B. destruct n as [ch hh b | ch hh b]; simpl in *.
  - destruct K as (-> & -> & V). subst b. apply wf_leaf; auto; lia.
  - destruct K as (-> & H2 & V). subst b. apply wf_inner; auto; try lia.
Qed.

Lemma valid_item_fbox it : valid_item d it -> fbox d (toBBox it).
Proof. intros [H _]. exact H. Qed.

Lemma len_pos_nonnil {A} (l : list A) : 1 <= len l -> l <> [].
Proof. intros H ->. unfold len in H. simpl in H. lia. Qed.

Lemma map_nonnil {A B} (f : A -> B) (l : list A) : l <> [] -> map f l <> [].
Proof. destruct l; simpl; congruence. Qed.

(** The [bbox] of a well-formed node with a child has integer coordinates. *)
Lemma wf_fbox : forall n m h,
  wf d maxE lo m h n -> 1 <= nchildren n -> fbox d (node_box n).
Proof.
  induction n as [ch hh b | ch hh b IH] using node_induction; intros m h W N;
    inversion W; subst; unfold node_box; simpl in *.
  - apply union_fbox.
    + apply map_nonnil, len_pos_nonnil. exact N.
    + apply Forall_map. eapply Forall_impl; [|eassumption].
      intros it. apply valid_item_fbox.
  - apply union_fbox.
    + apply map_nonnil, len_pos_nonnil. exact N.
    + apply Forall_map. rewrite Forall_forall in *. intros c Hc.
      eapply IH; eauto.
      match goal with H : forall x, In x ch -> wf _ _ _ _ _ x |- _ =>
        pose proof (wf_count _ _ _ (H c Hc)) end. lia.
Qed.

Lemma wf_lo_fbox h n : wf d maxE lo lo h n -> fbox d (node_box n).
Proof.
  intros W. eapply wf_fbox; eauto. pose proof (wf_count _ _ _ W). lia.
Qed.

(** The boxes of the children of a node whose children are well formed. *)
Lemma kids_boxes_fbox h n : kids_ok d maxE lo h n -> Forall (fbox d) (child_boxes n).
Proof.
  destruct n as [ch hh b | ch hh b]; simpl; intros (_ & _ & V); apply Forall_map.
  - eapply Forall_impl; [|exact V]. intros it. apply valid_item_fbox.
  - eapply Forall_impl; [|exact V]. intros c. apply wf_lo_fbox.
Qed.

Lemma kids_boxes_clean h n : kids_ok d maxE lo h n -> Forall (clean d) (child_boxes n).
Proof.
  intros K. eapply Forall_impl; [|eapply kids_boxes_fbox; eauto].
  intros b. apply fbox_clean.
Qed.

Lemma kids_defined h ch hh b :
  kids_ok d maxE lo h (Inner ch hh b) -> Forall (fun c => bbox_of c = Some (node_box c)) ch.
Proof.
  simpl. intros (_ & _ & V). eapply Forall_impl; [|exact V].
  intros c W. rewrite (wf_bbox _ _ _ W). unfold node_box. rewrite (wf_bbox _ _ _ W).
  reflexivity.
Qed.
End WfFacts.

(** * Loops over index ranges *)

Lemma zrange_nil lo hi : hi <= lo -> zrange lo hi = [].
Proof. intros H. unfold zrange. replace (Z.to_nat (hi - lo)) with O by lia. reflexivity. Qed.

Lemma zrange_cons lo hi : lo < hi -> zrange lo hi = lo :: zrange (lo + 1) hi.
Proof.
  intros H. unfold zrange.
  replace (Z.to_nat (hi - lo)) with (S (Z.to_nat (hi - (lo + 1)))) by lia.
  simpl. f_equal; [lia|]. rewrite <- seq_shift, map_map. apply map_ext. intros k. lia.
Qed.

Lemma zrange_snoc lo hi : lo <= hi -> zrange lo (hi + 1) = zrange lo hi ++ [hi].
Proof.
  intros H. unfold zrange.
  replace (Z.to_nat (hi + 1 - lo)) with (S (Z.to_nat (hi - lo))) by lia.
  rewrite seq_S, map_app. simpl. do 2 f_equal. lia.
Qed.

Lemma in_zrange i lo hi : In i (zrange lo hi) <-> lo <= i < hi.
Proof.
  unfold zrange. rewrite in_map_iff. split.
  - intros (k & <- & Hk). apply in_seq in Hk. lia.
  - intros H. exists (Z.to_nat (i - lo)). split; [lia|]. apply in_seq. lia.
Qed.

Lemma slice_nil {A} (l : list A) lo hi : hi <= lo -> slice l lo hi = [].
Proof. intros H. unfold slice. replace (Z.to_nat (hi - lo)) with O by lia. reflexivity. Qed.

Lemma skipn_length_app {A} (a l : list A) : skipn (length a) (a ++ l) = l.
Proof. induction a; simpl; auto. Qed.

Lemma skipn_S_length_app {A} (a l : list A) x : skipn (S (length a)) (a ++ x :: l) = l.
Proof. induction a; simpl; auto. Qed.

Lemma slice_cons {A} (l : list A) lo hi x :
  0 <= lo -> lo < hi -> zget l lo = Some x -> slice l lo hi = x :: slice l (lo + 1) hi.
Proof.
  intros H0 H1 Hx. apply zget_inv in Hx. destruct Hx as [Hr Hx].
  unfold slice. replace (Z.to_nat (hi - lo)) with (S (Z.to_nat (hi - (lo + 1)))) by lia.
  replace (Z.to_nat (lo + 1)) with (S (Z.to_nat lo)) by lia.
  destruct (nth_error_split_at _ _ _ Hx) as (a & b & -> & La).
  rewrite <- La. rewrite skipn_length_app, skipn_S_length_app. reflexivity.
Qed.

Lemma slice_all {A} (l : list A) : slice l 0 (len l) = l.
Proof.
  unfold slice, len. simpl. rewrite Z.sub_0_r, Nat2Z.id. apply firstn_all.
Qed.

Lemma slice_length {A} (l : list A) lo hi :
  0 <= lo -> lo <= hi -> hi <= len l -> len (slice l lo hi) = hi - lo.
Proof.
  intros H0 H1 H2. unfold slice, len in *. rewrite length_firstn, length_skipn. lia.
Qed.

Lemma slice_prefix {A} (l : list A) hi : 0 <= hi -> slice l 0 hi = firstn (Z.to_nat hi) l.
Proof. intros H. unfold slice. simpl. rewrite Z.sub_0_r. reflexivity. Qed.

Lemma slice_suffix {A} (l : list A) lo :
  0 <= lo -> slice l lo (len l) = skipn (Z.to_nat lo) l.
Proof.
  intros H. unfold slice. apply firstn_all2. rewrite length_skipn. unfold len. lia.
Qed.

(** * The boxes of the children *)

Lemma len_map {A B} (f : A -> B) l : len (map f l) = len l.
Proof. unfold len. rewrite length_map. reflexivity. Qed.

Lemma len_child_boxes n : len (child_boxes n) = nchildren n.
Proof. destruct n; simpl; apply len_map. Qed.

Lemma zget_map {A B} (f : A -> B) l i : zget (map f l) i = option_map f (zget l i).
Proof.
  unfold zget. destruct (i <? 0); [reflexivity|]. apply nth_error_map.
Qed.

Lemma child_bbox_ok n i b :
  children_defined n -> zget (child_boxes n) i = Some b -> child_bbox n i = Ok (Some b).
Proof.
  intros D H. destruct n as [ch h bb | ch h bb]; simpl in *.
  - rewrite zget_map in H. rewrite H. reflexivity.
  - rewrite zget_map in H. destruct (zget ch i) as [c|] eqn:E; [|discriminate].
    simpl in H. injection H as <-. simpl.
    unfold children_defined in D. simpl in D. rewrite Forall_forall in D.
    apply zget_inv in E. destruct E as [_ E]. apply nth_error_In in E.
    rewrite (D c E). reflexivity.
Qed.

Lemma distBBox_fold dim n : forall k p a,
  children_defined n -> 0 <= k -> p <= nchildren n ->
  (Z.to_nat (p - k) <= Z.to_nat (p - k))%nat ->
  foldM (fun bbox i => cb <- child_bbox n i ;; extend_js dim bbox cb) (zrange k p) (Some a)
  = Ok (Some (fold_left (extend dim) (slice (child_boxes n) k p) a)).
Proof.
  intros k p. remember (Z.to_nat (p - k)) as m eqn:Em. revert k Em.
  induction m as [|m IH]; intros k Em a D H0 H1 _.
  - rewrite zrange_nil, slice_nil by lia. reflexivity.
  - assert (Hr : 0 <= k < len (child_boxes n)) by (rewrite len_child_boxes; lia).
    destruct (zget_in_range _ _ Hr) as [b Hb].
    rewrite zrange_cons by lia. rewrite (slice_cons _ k p b) by (auto; lia).
    simpl. rewrite (child_bbox_ok n k b D Hb). simpl.
    apply IH; auto; lia.
Qed.

(** [distBBox] over the children [k .. p - 1], once the cache is filled. *)
Lemma distBBox_ok dim n k p c :
  warm dim c -> children_defined n -> 0 <= k -> p <= nchildren n ->
  distBBox dim n k p c = Ok (Some (union dim (slice (child_boxes n) k p)), c).
Proof.
  intros W D H0 H1. unfold distBBox, mbind, lift. rewrite (empty_m_warm dim c W).
  rewrite distBBox_fold by (auto; lia). reflexivity.
Qed.

Lemma nchildren_nonneg n : 0 <= nchildren n.
Proof. destruct n; simpl; apply len_nonneg. Qed.

Lemma calcBBox_ok dim n c :
  warm dim c -> children_defined n ->
  calcBBox dim n c = Ok (set_bbox n (Some (union dim (child_boxes n))), c).
Proof.
  intros W D. unfold calcBBox, mbind, ret.
  rewrite distBBox_ok by (auto; lia).
  rewrite <- len_child_boxes, slice_all. reflexivity.
Qed.


(** * Sorting and splitting a node *)

Lemma insert_sorted_perm {A} (gtb : A -> A -> bool) x l :
  Permutation (insert_sorted gtb x l) (x :: l).
Proof.
  induction l as [|y l IH]; simpl; [reflexivity|].
  destruct (gtb y x); [reflexivity|].
  rewrite IH. apply perm_swap.
Qed.

Lemma sort_by_perm {A} (gtb : A -> A -> bool) l : Permutation (sort_by gtb l) l.
Proof.
  unfold sort_by.
  assert (G : forall acc, Permutation (fold_left (fun acc x => insert_sorted gtb x acc) l acc)
                                      (acc ++ l)).
  { induction l as [|x l IH]; intros acc; simpl.
    - rewrite app_nil_r. reflexivity.
    - rewrite IH. rewrite insert_sorted_perm. simpl.
      apply Permutation_cons_app. reflexivity. }
  apply (G []).
Qed.

Lemma keyed_fold axis ch : forall acc,
  Forall (fun c => bbox_of c = Some (node_box c)) ch ->
  foldM (keyed_step axis) ch acc =
  Ok (acc ++ map (fun c => (rd (node_box c) axis, c)) ch).
Proof.
  induction ch as [|c ch IH]; intros acc H; simpl.
  - rewrite app_nil_r. reflexivity.
  - inversion H as [|? ? Hc Hch]; subst. unfold keyed_step at 1. rewrite Hc. simpl.
    rewrite IH by exact Hch. rewrite <- app_assoc. reflexivity.
Qed.

Lemma sort_children_ok axis n :
  children_defined n -> exists n', sort_children axis n = Ok n' /\ perm_children n n'.
Proof.
  intros D. destruct n as [ch h b | ch h b]; simpl.
  - eexists. split; [reflexivity|]. simpl. split; [|split; reflexivity].
    symmetry. apply sort_by_perm.
  - destruct (length ch <? 2)%nat.
    + eexists. split; [reflexivity|]. simpl. auto.
    + rewrite keyed_fold by exact D. simpl. eexists. split; [reflexivity|].
      simpl. split; [|split; reflexivity].
      symmetry. etransitivity; [apply Permutation_map, sort_by_perm|].
      rewrite map_map. simpl. rewrite map_id. reflexivity.
Qed.

(** ** What a permutation of the children keeps *)

Lemma perm_children_refl n : perm_children n n.
Proof. destruct n; simpl; auto. Qed.

Lemma perm_children_trans a b c : perm_children a b -> perm_children b c -> perm_children a c.
Proof.
  destruct a, b, c; simpl; try tauto; intros (P1 & -> & ->) (P2 & -> & ->);
    (split; [etransitivity; eauto|auto]).
Qed.

Lemma perm_children_count n n' : perm_children n n' -> nchildren n' = nchildren n.
Proof.
  destruct n, n'; simpl; try tauto; intros (P & _); unfold len;
    rewrite (Permutation_length P); reflexivity.
Qed.

Lemma perm_children_boxes n n' :
  perm_children n n' -> Permutation (child_boxes n) (child_boxes n').
Proof.
  destruct n, n'; simpl; try tauto; intros (P & _); apply Permutation_map; exact P.
Qed.

Lemma perm_children_defined n n' :
  perm_children n n' -> children_defined n -> children_defined n'.
Proof.
  unfold children_defined. destruct n, n'; simpl; try tauto; intros (P & _) H; auto.
  eapply Permutation_Forall; eauto.
Qed.

Lemma perm_children_kids d maxE lo h n n' :
  perm_children n n' -> kids_ok d maxE lo h n -> kids_ok d maxE lo h n'.
Proof.
  destruct n, n'; simpl; try tauto; intros (P & <- & _) (H1 & H2 & H3);
    (split; [exact H1|split; [exact H2|eapply Permutation_Forall; eauto]]).
Qed.

Lemma perm_children_items n n' :
  perm_children n n' -> Permutation (all_items n) (all_items n').
Proof.
  destruct n, n'; simpl; try tauto; intros (P & _); auto.
  apply Permutation_flat_map. exact P.
Qed.

Lemma perm_children_bbox n n' : perm_children n n' -> bbox_of n' = bbox_of n.
Proof. destruct n, n'; simpl; try tauto; intros (_ & _ & ->); reflexivity. Qed.

Lemma perm_children_height n n' : perm_children n n' -> height_of n' = height_of n.
Proof. destruct n, n'; simpl; try tauto; intros (_ & -> & _); reflexivity. Qed.

Lemma perm_children_leaf n n' : perm_children n n' -> is_leaf n' = is_leaf n.
Proof. destruct n, n'; simpl; tauto. Qed.

Lemma kids_ok_defined d maxE lo h n : 1 <= lo -> kids_ok d maxE lo h n -> children_defined n.
Proof.
  intros Hlo K. destruct n as [ch hh b | ch hh b]; unfold children_defined; simpl.
  - constructor.
  - eapply kids_defined; eauto.
Qed.

Lemma in_firstn {A} (x : A) n l : In x (firstn n l) -> In x l.
Proof.
  revert l. induction n as [|n IH]; intros l H; simpl in H; [tauto|].
  destruct l as [|y l]; simpl in *; [tauto|]. destruct H as [->|H]; auto.
Qed.

Lemma in_skipn {A} (x : A) n l : In x (skipn n l) -> In x l.
Proof.
  revert l. induction n as [|n IH]; intros l H; simpl in H; [exact H|].
  destruct l as [|y l]; simpl in *; [tauto|]. auto.
Qed.

Lemma in_slice_in {A} (x : A) l lo hi : In x (slice l lo hi) -> In x l.
Proof. unfold slice. intros H. eapply in_skipn, in_firstn, H. Qed.

Lemma Forall_slice {A} (P : A -> Prop) l lo hi : Forall P l -> Forall P (slice l lo hi).
Proof.
  rewrite !Forall_forall. intros H x Hx. apply H. eapply in_slice_in; eauto.
Qed.

Lemma slice_nonnil {A} (l : list A) lo hi :
  0 <= lo -> lo < hi -> hi <= len l -> slice l lo hi <> [].
Proof.
  intros H0 H1 H2 E. pose proof (slice_length l lo hi H0 ltac:(lia) H2) as L.
  rewrite E in L. unfold len in L. simpl in L. lia.
Qed.

Section SplitProofs.
Variable t : rbush_t.
Variable c : cache.
Variable lo : Z.
Hypothesis lo_pos : 1 <= lo.
Hypothesis c_warm : warm (_dimension t) c.

Local Abbreviation d := (_dimension t).
Local Abbreviation maxE := (_maxEntries t).

Lemma grow_fold_ok n :
  children_defined n ->
  forall l b mg,
    (forall i, In i l -> 0 <= i < nchildren n) ->
    exists b' mg', foldM (grow_margin t n) l (Some b, mg) = Ok (Some b', mg').
Proof.
  intros D. induction l as [|i l IH]; intros b mg Hl; simpl.
  - eauto.
  - assert (Hi : 0 <= i < len (child_boxes n)).
    { rewrite len_child_boxes. apply Hl. left. reflexivity. }
    destruct (zget_in_range _ _ Hi) as [cb Hcb].
    unfold grow_margin at 1. rewrite (child_bbox_ok n i cb D Hcb). simpl.
    apply IH. intros j Hj. apply Hl. right. exact Hj.
Qed.

Lemma allDistMargin_ok n m axis :
  children_defined n -> 0 <= m -> m <= nchildren n ->
  exists mg n',
    _allDistMargin t n m (nchildren n) axis c = Ok (mg, n', c) /\ perm_children n n'.
Proof.
  intros D H0 H1.
  destruct (sort_children_ok axis n D) as (n1 & E1 & P1).
  pose proof (perm_children_defined _ _ P1 D) as D1.
  pose proof (perm_children_count _ _ P1) as C1.
  unfold _allDistMargin, mbind, lift, ret. rewrite E1.
  rewrite !distBBox_ok by (auto; lia). simpl.
  destruct (grow_fold_ok n1 D1 (zrange m (nchildren n - m))
              (union d (slice (child_boxes n1) 0 m))
              (add (bboxMargin d (union d (slice (child_boxes n1) 0 m)))
                   (bboxMargin d (union d (slice (child_boxes n1) (nchildren n - m)
                                                  (nchildren n))))))
    as (b1 & mg1 & E2).
  { intros i Hi. apply in_zrange in Hi. lia. }
  rewrite E2.
  destruct (grow_fold_ok n1 D1 (rev (zrange m (nchildren n - m)))
              (union d (slice (child_boxes n1) (nchildren n - m) (nchildren n))) mg1)
    as (b2 & mg2 & E3).
  { intros i Hi. apply in_rev in Hi. apply in_zrange in Hi. lia. }
  rewrite E3. eauto.
Qed.

Lemma chooseSplitAxis_ok n m :
  children_defined n -> 0 <= m -> m <= nchildren n ->
  exists n', _chooseSplitAxis t n m (nchildren n) c = Ok (n', c) /\ perm_children n n'.
Proof.
  intros D H0 H1.
  assert (G : forall l n0 a bm,
             perm_children n n0 ->
             exists n' a' bm',
               mfoldM (axis_step t m (nchildren n)) l (n0, a, bm) c = Ok ((n', a', bm'), c) /\
               perm_children n n').
  { induction l as [|x l IH]; intros n0 a bm P; simpl.
    - unfold ret. eauto.
    - pose proof (perm_children_count _ _ P) as C0.
      destruct (allDistMargin_ok n0 m x) as (mg & n1 & E & P1).
      + eapply perm_children_defined; eauto.
      + exact H0.
      + lia.
      + rewrite C0 in E. unfold mbind, axis_step at 1. unfold mbind. rewrite E.
        pose proof (perm_children_trans _ _ _ P P1) as P2.
        destruct (le_undef mg bm); unfold ret; apply IH; exact P2. }
  destruct (G (axes d) n O None (perm_children_refl n)) as (n' & a' & bm' & E & P).
  exists n'. split; [|exact P].
  unfold _chooseSplitAxis, mbind. rewrite E. rewrite Nat.ltb_irrefl. reflexivity.
Qed.

Lemma index_step_ok n h st i :
  kids_ok d maxE lo h n -> 1 <= i -> i < nchildren n ->
  exists mo ma idx,
    index_step t n (nchildren n) st i c = Ok ((mo, ma, idx), c) /\
    (idx = snd st \/ idx = Some i) /\
    (fst (fst st) = PInf -> idx = Some i).
Proof.
  intros K H1 H2. destruct st as [[mo ma] idx].
  pose proof (kids_ok_defined _ _ _ _ _ lo_pos K) as D.
  pose proof (kids_boxes_fbox d maxE lo lo_pos h n K) as F.
  assert (F1 : fbox d (union d (slice (child_boxes n) 0 i))).
  { apply union_fbox; [apply slice_nonnil; rewrite ?len_child_boxes; lia|].
    apply Forall_slice. exact F. }
  assert (F2 : fbox d (union d (slice (child_boxes n) i (nchildren n)))).
  { apply union_fbox; [apply slice_nonnil; rewrite ?len_child_boxes; lia|].
    apply Forall_slice. exact F. }
  unfold index_step, mbind, lift, ret. rewrite !distBBox_ok by (auto; lia). simpl.
  destruct (intersectionArea_finite d _ _ F1 F2) as [ov Eov]. rewrite Eov.
  destruct (lt (Fin ov) mo) eqn:L1.
  - eexists _, _, _. split; [reflexivity|]. split; auto.
  - destruct (strict_eq (Fin ov) mo) eqn:S1.
    + destruct (lt _ ma); eexists _, _, _; (split; [reflexivity|]); simpl; split; auto;
        intros ->; discriminate.
    + eexists _, _, _. split; [reflexivity|]. simpl. split; auto. intros ->. discriminate.
Qed.

Lemma chooseSplitIndex_ok n h m :
  kids_ok d maxE lo h n -> 1 <= m -> 2 * m <= nchildren n ->
  exists i, _chooseSplitIndex t n m (nchildren n) c = Ok (Some i, c) /\
            m <= i <= nchildren n - m.
Proof.
  intros K H1 H2.
  assert (G : forall l st j,
             (forall i, In i l -> m <= i <= nchildren n - m) ->
             snd st = Some j -> m <= j <= nchildren n - m ->
             exists mo ma j',
               mfoldM (index_step t n (nchildren n)) l st c = Ok ((mo, ma, Some j'), c) /\
               m <= j' <= nchildren n - m).
  { induction l as [|i l IH]; intros st j Hl Hs Hj; simpl.
    - destruct st as [[mo ma] idx]. simpl in Hs. subst idx. unfold ret. eauto.
    - assert (Hi : m <= i <= nchildren n - m) by (apply Hl; left; reflexivity).
      assert (Hl' : forall x, In x l -> m <= x <= nchildren n - m)
        by (intros; apply Hl; right; assumption).
      destruct (index_step_ok n h st i K) as (mo & ma & idx & E & [I|I] & _); try lia;
        unfold mbind; rewrite E.
      + apply (IH (mo, ma, idx) j Hl'); [simpl; rewrite I; exact Hs|exact Hj].
      + apply (IH (mo, ma, idx) i Hl'); [simpl; exact I|exact Hi]. }
  unfold _chooseSplitIndex, mbind.
  rewrite zrange_cons by lia.
  cbn [mfoldM]. unfold mbind.
  destruct (index_step_ok n h (PInf, PInf, None) m K) as (mo & ma & idx & E & _ & I);
    try lia.
  rewrite E. rewrite (I eq_refl).
  destruct (G (zrange (m + 1) (nchildren n - m + 1)) (mo, ma, Some m) m)
    as (mo' & ma' & j' & E' & Hj'); auto; try lia.
  { intros i Hi. apply in_zrange in Hi. lia. }
  rewrite E'. unfold ret. eauto.
Qed.

Lemma set_bbox_boxes n b : child_boxes (set_bbox n b) = child_boxes n.
Proof. destruct n; reflexivity. Qed.

Lemma set_bbox_items n b : all_items (set_bbox n b) = all_items n.
Proof. destruct n; reflexivity. Qed.

Lemma set_bbox_count n b : nchildren (set_bbox n b) = nchildren n.
Proof. destruct n; reflexivity. Qed.

Lemma set_bbox_kids h n b : kids_ok d maxE lo h n -> kids_ok d maxE lo h (set_bbox n b).
Proof. destruct n; simpl; auto. Qed.

Lemma set_bbox_leaf n b : is_leaf (set_bbox n b) = is_leaf n.
Proof. destruct n; reflexivity. Qed.

Lemma set_bbox_bbox n b : bbox_of (set_bbox n b) = b.
Proof. destruct n; reflexivity. Qed.

Lemma set_bbox_defined n b : children_defined n -> children_defined (set_bbox n b).
Proof. destruct n; auto. Qed.

(** A node whose children are well formed becomes well formed when
    [calcBBox] sets its [bbox], if the number of its children is in range. *)
Lemma calcBBox_wf m h n :
  kids_ok d maxE lo h n -> 1 <= nchildren n -> m <= nchildren n <= maxE ->
  exists n',
    calcBBox d n c = Ok (n', c) /\ wf d maxE lo m h n' /\
    node_box n' = union d (child_boxes n) /\
    child_boxes n' = child_boxes n /\ all_items n' = all_items n /\
    is_leaf n' = is_leaf n /\ nchildren n' = nchildren n.
Proof.
  intros K N C. pose proof (kids_ok_defined _ _ _ _ _ lo_pos K) as D.
  exists (set_bbox n (Some (union d (child_boxes n)))).
  split; [apply calcBBox_ok; auto|].
  split; [|split; [|split; [|split; [|split]]]].
  - apply wf_from_parts.
    + apply set_bbox_kids. exact K.
    + intros _. rewrite set_bbox_count. exact N.
    + rewrite set_bbox_count. exact C.
    + rewrite set_bbox_bbox, set_bbox_boxes. reflexivity.
  - unfold node_box. rewrite set_bbox_bbox. reflexivity.
  - apply set_bbox_boxes.
  - apply set_bbox_items.
  - apply set_bbox_leaf.
  - apply set_bbox_count.
Qed.

Lemma len_firstn {A} (l : list A) k : 0 <= k <= len l -> len (firstn (Z.to_nat k) l) = k.
Proof. intros H. unfold len in *. rewrite length_firstn. lia. Qed.

Lemma len_skipn {A} (l : list A) k : 0 <= k <= len l -> len (skipn (Z.to_nat k) l) = len l - k.
Proof. intros H. unfold len in *. rewrite length_skipn. lia. Qed.

Lemma Forall_firstn {A} (P : A -> Prop) k l : Forall P l -> Forall P (firstn k l).
Proof. rewrite !Forall_forall. intros H x Hx. apply H. eapply in_firstn; eauto. Qed.

Lemma Forall_skipn {A} (P : A -> Prop) k l : Forall P l -> Forall P (skipn k l).
Proof. rewrite !Forall_forall. intros H x Hx. apply H. eapply in_skipn; eauto. Qed.

(** The steps of [_split] on a node with one child too many: both halves
    are well formed, hold at least [minEntries] children, and together hold
    what the node held. *)
Lemma split_node_ok n h :
  kids_ok d maxE lo h n ->
  1 <= _minEntries t -> 2 * _minEntries t <= maxE + 1 ->
  maxE < nchildren n <= maxE + 1 ->
  exists na i k0 v0 n1 n2,
    _chooseSplitAxis t n (_minEntries t) (nchildren n) c = Ok (na, c) /\
    _chooseSplitIndex t na (_minEntries t) (nchildren na) c = Ok (Some i, c) /\
    nchildren na = nchildren n /\
    splice_from na (Some i) = Ok (k0, v0) /\
    calcBBox d k0 c = Ok (n1, c) /\
    calcBBox d v0 c = Ok (n2, c) /\
    wf d maxE lo (_minEntries t) h n1 /\
    wf d maxE lo (_minEntries t) h n2 /\
    extend d (node_box n1) (node_box n2) = union d (child_boxes n) /\
    Permutation (all_items n1 ++ all_items n2) (all_items n) /\
    height_of n1 = height_of n.
Proof.
  intros K Hm1 Hm2 HM.
  pose proof (kids_ok_defined _ _ _ _ _ lo_pos K) as D.
  destruct (chooseSplitAxis_ok n (_minEntries t) D) as (na & E1 & P); try lia.
  pose proof (perm_children_count _ _ P) as Ca.
  pose proof (perm_children_kids _ _ _ _ _ _ P K) as Ka.
  destruct (chooseSplitIndex_ok na h (_minEntries t) Ka) as (i & E2 & Hi); try lia.
  assert (I0 : (i <? 0) = false) by (apply Z.ltb_ge; lia).
  exists na, i.
  destruct na as [ch hh b | ch hh b]; simpl in Ca, Hi, Ka.
  - destruct Ka as (-> & -> & V).
    destruct (calcBBox_wf (_minEntries t) 1 (Leaf (firstn (Z.to_nat i) ch) 1 b))
      as (n1 & E4 & W1 & B1 & CB1 & I1 & _).
    { simpl. repeat split; auto. apply Forall_firstn. exact V. }
    { simpl. rewrite len_firstn; lia. }
    { simpl. rewrite len_firstn; lia. }
    destruct (calcBBox_wf (_minEntries t) 1 (Leaf (skipn (Z.to_nat i) ch) 1 None))
      as (n2 & E5 & W2 & B2 & CB2 & I2 & _).
    { simpl. repeat split; auto. apply Forall_skipn. exact V. }
    { simpl. rewrite len_skipn; lia. }
    { simpl. rewrite len_skipn; lia. }
    exists (Leaf (firstn (Z.to_nat i) ch) 1 b), (Leaf (skipn (Z.to_nat i) ch) 1 None), n1, n2.
    split; [exact E1|]. split; [exact E2|]. split; [exact Ca|].
    split; [simpl; rewrite I0; reflexivity|]. split; [exact E4|]. split; [exact E5|].
    split; [exact W1|]. split; [exact W2|].
    assert (Vb : Forall (clean d) (map toBBox ch)).
    { apply Forall_map. eapply Forall_impl; [|exact V]. intros it Hit.
      apply fbox_clean. apply valid_item_fbox. exact Hit. }
    split; [|split].
    + rewrite B1, B2. simpl. rewrite <- union_app.
      * rewrite <- map_app, firstn_skipn.
        symmetry. apply union_perm; [|exact (kids_boxes_clean _ _ _ lo_pos _ n K)].
        apply (perm_children_boxes _ _ P).
      * rewrite <- firstn_map. apply Forall_firstn. exact Vb.
      * rewrite <- skipn_map. apply Forall_skipn. exact Vb.
    + rewrite I1, I2. simpl. rewrite firstn_skipn.
      symmetry. apply (perm_children_items _ _ P).
    + rewrite (wf_height _ _ _ _ _ _ W1).
      symmetry. destruct n; simpl in *; try tauto; try (destruct K as (-> & _); reflexivity).
  - destruct Ka as (-> & Hh & V).
    destruct (calcBBox_wf (_minEntries t) h (Inner (firstn (Z.to_nat i) ch) h b))
      as (n1 & E4 & W1 & B1 & CB1 & I1 & _).
    { simpl. repeat split; auto. apply Forall_firstn. exact V. }
    { simpl. rewrite len_firstn; lia. }
    { simpl. rewrite len_firstn; lia. }
    destruct (calcBBox_wf (_minEntries t) h (Inner (skipn (Z.to_nat i) ch) h None))
      as (n2 & E5 & W2 & B2 & CB2 & I2 & _).
    { simpl. repeat split; auto. apply Forall_skipn. exact V. }
    { simpl. rewrite len_skipn; lia. }
    { simpl. rewrite len_skipn; lia. }
    exists (Inner (firstn (Z.to_nat i) ch) h b), (Inner (skipn (Z.to_nat i) ch) h None), n1, n2.
    split; [exact E1|]. split; [exact E2|]. split; [exact Ca|].
    split; [simpl; rewrite I0; reflexivity|]. split; [exact E4|]. split; [exact E5|].
    split; [exact W1|]. split; [exact W2|].
    assert (Vb : Forall (clean d) (map node_box ch)).
    { apply Forall_map. eapply Forall_impl; [|exact V]. intros x Hx.
      apply fbox_clean. exact (wf_lo_fbox _ _ _ lo_pos _ _ Hx). }
    split; [|split].
    + rewrite B1, B2. simpl. rewrite <- union_app.
      * rewrite <- map_app, firstn_skipn.
        symmetry. apply union_perm; [|exact (kids_boxes_clean _ _ _ lo_pos _ n K)].
        apply (perm_children_boxes _ _ P).
      * rewrite <- firstn_map. apply Forall_firstn. exact Vb.
      * rewrite <- skipn_map. apply Forall_skipn. exact Vb.
    + rewrite I1, I2. simpl. rewrite <- flat_map_app, firstn_skipn.
      symmetry. apply (perm_children_items _ _ P).
    + rewrite (wf_height _ _ _ _ _ _ W1).
      symmetry. destruct n; simpl in *; try tauto; try (destruct K as (-> & _); reflexivity).
Qed.
End SplitProofs.


(** * Insertion *)

(** ** Paths and [write_through] *)

Lemma zget_pnth (path : list node) j :
  (j < length path)%nat -> zget path (Z.of_nat j) = Some (pnth path j).
Proof.
  intros H. unfold zget, pnth.
  destruct (Z.ltb_spec (Z.of_nat j) 0) as [L|L]; [lia|].
  rewrite Nat2Z.id. apply nth_error_nth'. exact H.
Qed.

Lemma nth_error_pnth (path : list node) j :
  (j < length path)%nat -> nth_error path j = Some (pnth path j).
Proof. intros H. apply nth_error_nth'. exact H. Qed.

Lemma pnth_cons p rest m : pnth (p :: rest) (S m) = pnth rest m.
Proof. reflexivity. Qed.

Lemma replace_nth_twice {A} i (l : list A) x y :
  replace_nth i (replace_nth i l x) y = replace_nth i l y.
Proof.
  revert i. induction l as [|z l IH]; intros [|i]; simpl; auto. rewrite IH. reflexivity.
Qed.

Lemma set_child_twice p i a b : set_child (set_child p i a) i b = set_child p i b.
Proof. destruct p; simpl; [reflexivity|]. rewrite replace_nth_twice. reflexivity. Qed.

Lemma wt_length path : forall idxs j n',
  length (write_through path idxs j n') = length path.
Proof.
  induction path as [|p rest IH]; intros idxs j n'; simpl; [reflexivity|].
  destruct j as [|j']; [reflexivity|].
  specialize (IH (tl idxs) j' n').
  destruct idxs as [|i idxs']; simpl in *.
  - rewrite IH. reflexivity.
  - destruct (write_through rest idxs' j' n'); simpl in *; rewrite <- IH; reflexivity.
Qed.

Lemma wt_at path : forall idxs j n',
  (j < length path)%nat -> pnth (write_through path idxs j n') j = n'.
Proof.
  induction path as [|p rest IH]; intros idxs j n' H; simpl in H; [lia|].
  destruct j as [|j']; [reflexivity|].
  simpl. specialize (IH (tl idxs) j' n' ltac:(lia)).
  destruct idxs as [|i idxs']; simpl in *.
  - exact IH.
  - destruct (write_through rest idxs' j' n'); exact IH.
Qed.

Lemma wt_below path : forall idxs j n' m,
  (j < m)%nat -> pnth (write_through path idxs j n') m = pnth path m.
Proof.
  induction path as [|p rest IH]; intros idxs j n' m H; simpl; [reflexivity|].
  destruct j as [|j'].
  - destruct m as [|m']; [lia|]. reflexivity.
  - destruct m as [|m']; [lia|].
    specialize (IH (tl idxs) j' n' m' ltac:(lia)).
    destruct idxs as [|i idxs']; simpl in *.
    + exact IH.
    + destruct (write_through rest idxs' j' n'); exact IH.
Qed.

Lemma wt_above path : forall idxs j n' m,
  (m < j)%nat -> (j < length path)%nat -> (j <= length idxs)%nat ->
  pnth (write_through path idxs j n') m =
  set_child (pnth path m) (nth m idxs O) (pnth (write_through path idxs j n') (S m)).
Proof.
  induction path as [|p rest IH]; intros idxs j n' m Hm Hj Hi; simpl in Hj; [lia|].
  destruct j as [|j']; [lia|].
  destruct idxs as [|i idxs']; simpl in Hi; [lia|].
  simpl.
  pose proof (wt_length rest idxs' j' n') as L.
  destruct (write_through rest idxs' j' n') as [|c0 rest'] eqn:E; simpl in L; [lia|].
  destruct m as [|m'].
  - reflexivity.
  - rewrite !pnth_cons. simpl nth.
    specialize (IH idxs' j' n' m' ltac:(lia) ltac:(lia) ltac:(lia)).
    rewrite E in IH. exact IH.
Qed.

Lemma anc_wt P I path k j X :
  anc P I path k -> (j <= k)%nat -> (j < length path)%nat -> (j <= length I)%nat ->
  anc P I (write_through path I j X) j.
Proof.
  intros A Hk Hj Hi m Hm.
  rewrite wt_above by lia.
  rewrite (A m) by lia. rewrite set_child_twice. reflexivity.
Qed.

Lemma anc_le P I path k j : anc P I path k -> (j <= k)%nat -> anc P I path j.
Proof. intros A H m Hm. apply A. lia. Qed.

(** ** [_chooseSubtree] *)

Section ChooseProofs.
Variable d : nat.
Variable maxE lo : Z.
Hypothesis lo_pos : 1 <= lo.
Variable bx : box.
Hypothesis bx_finite : fbox d bx.

Lemma choose_step_ok ch st i c0 :
  nth_error ch i = Some c0 ->
  (exists b, bbox_of c0 = Some b /\ fbox d b) ->
  (snd st = None /\ snd (fst st) = PInf \/
   exists j c1, snd st = Some (j, c1) /\ nth_error ch j = Some c1) ->
  exists st',
    choose_step d (Some bx) st (i, c0) = Ok st' /\
    exists j c1, snd st' = Some (j, c1) /\ nth_error ch j = Some c1.
Proof.
  intros Hi (b & Hb & Fb) Hst.
  destruct st as [[ma me] tg]. unfold choose_step.
  rewrite Hb. simpl.
  destruct (bboxArea_finite d b Fb) as [a Ea].
  destruct (enlargedArea_finite d bx b bx_finite Fb) as [e Ee].
  rewrite Ea, Ee. simpl sub.
  destruct Hst as [(T & E) | (j & c1 & T & N)]; simpl in T.
  - simpl in E. subst tg me. simpl. eexists. split; [reflexivity|]. simpl. eauto.
  - subst tg.
    destruct (lt _ me); [eexists; split; [reflexivity|]; simpl; eauto|].
    destruct (strict_eq _ me); [|eexists; split; [reflexivity|]; simpl; eauto].
    destruct (lt (Fin a) ma); eexists; (split; [reflexivity|]); simpl; eauto.
Qed.

Lemma choose_fold_ok ch : forall l st,
  (forall i c0, In (i, c0) l ->
     nth_error ch i = Some c0 /\ exists b, bbox_of c0 = Some b /\ fbox d b) ->
  (snd st = None /\ snd (fst st) = PInf \/
   exists j c1, snd st = Some (j, c1) /\ nth_error ch j = Some c1) ->
  exists st',
    foldM (choose_step d (Some bx)) l st = Ok st' /\
    (l = [] /\ st' = st \/ exists j c1, snd st' = Some (j, c1) /\ nth_error ch j = Some c1).
Proof.
  induction l as [|[i c0] l IH]; intros st Hl Hst; simpl.
  - eexists. split; [reflexivity|]. left. auto.
  - destruct (Hl i c0 (or_introl eq_refl)) as (Hi & Hb).
    destruct (choose_step_ok ch st i c0 Hi Hb Hst) as (st1 & E1 & H1).
    rewrite E1. simpl.
    destruct (IH st1) as (st' & E' & H').
    { intros. apply Hl. right. assumption. }
    { right. exact H1. }
    exists st'. split; [exact E'|]. right.
    destruct H' as [(-> & ->)|H']; assumption.
Qed.

Lemma in_combine_seq {A} (l : list A) : forall k i x,
  In (i, x) (combine (seq k (length l)) l) -> nth_error l (i - k) = Some x /\ (k <= i)%nat.
Proof.
  induction l as [|y l IH]; intros k i x H; simpl in H; [tauto|].
  destruct H as [H|H].
  - inversion H; subst. rewrite Nat.sub_diag. simpl. auto.
  - apply IH in H. destruct H as (H & L). split; [|lia].
    replace (i - k)%nat with (S (i - S k)) by lia. simpl. exact H.
Qed.

Lemma choose_child_ok ch :
  ch <> [] -> Forall (fun c0 => exists b, bbox_of c0 = Some b /\ fbox d b) ch ->
  exists i c0, choose_child d (Some bx) ch = Ok (Some (i, c0)) /\ nth_error ch i = Some c0.
Proof.
  intros Hne F. unfold choose_child.
  destruct (choose_fold_ok ch (combine (seq 0 (length ch)) ch) (PInf, PInf, None))
    as (st' & E & H).
  - intros i c0 Hin. pose proof (in_combine_seq ch 0 i c0 Hin) as (N & _).
    rewrite Nat.sub_0_r in N. split; [exact N|].
    rewrite Forall_forall in F. apply F. eapply nth_error_In; eauto.
  - left. auto.
  - rewrite E. destruct H as [(C & _)|(j & c1 & S1 & N)].
    + destruct ch; [congruence|discriminate].
    + destruct st' as [[ma me] tg]. simpl in S1. subst tg. simpl. eauto.
Qed.

(** [_chooseSubtree] walks down [level] levels from a node of a well-formed
    tree: the path it returns is a chain of well-formed nodes. *)
Lemma chooseSubtree_ok : forall (fuel : nat) n m H level path idxs chosen,
  wf d maxE lo m H n ->
  0 <= level - len path <= H - 1 ->
  (Z.to_nat (level - len path) < fuel)%nat ->
  exists P' I',
    chooseSubtree fuel d (Some bx) n level path idxs chosen = Ok (path ++ P', idxs ++ I') /\
    chain P' I' /\ pnth P' 0 = n /\
    len P' = level - len path + 1 /\
    (forall j, (1 <= j < length P')%nat -> wf d maxE lo lo (H - Z.of_nat j) (pnth P' j)).
Proof.
  induction fuel as [|fuel IH]; intros n m H level path idxs chosen W Hl Hf; [lia|].
  assert (Lp : len (path ++ [n]) = len path + 1).
  { unfold len. rewrite length_app. simpl. lia. }
  simpl. inversion W as [m0 ch b C1 C2 V B | m0 h ch b C0 C1 C2 Hh V B]; subst.
  - exists [Leaf ch 1 (Some (union d (map toBBox ch)))], []. rewrite app_nil_r.
    split; [reflexivity|]. split; [|split; [reflexivity|split]].
    + split; [reflexivity|]. simpl. intros k Hk. lia.
    + unfold len in *. simpl. lia.
    + simpl. intros j Hj. lia.
  - rewrite Lp.
    destruct (Z.eqb_spec (len path + 1 - 1) level) as [El|El].
    + exists [Inner ch H (Some (union d (map node_box ch)))], []. rewrite app_nil_r.
      split; [reflexivity|]. split; [|split; [reflexivity|split]].
      * split; [reflexivity|]. simpl. intros k Hk. lia.
      * unfold len in *. simpl. lia.
      * simpl. intros j Hj. lia.
    + destruct (choose_child_ok ch) as (i & c0 & E & N).
      { apply len_pos_nonnil. exact C0. }
      { rewrite Forall_forall in V |- *. intros x Hx. exists (node_box x).
        pose proof (V x Hx) as Wx. split.
        - unfold node_box. rewrite (wf_bbox _ _ _ _ _ _ Wx). reflexivity.
        - exact (wf_lo_fbox _ _ _ lo_pos _ _ Wx). }
      rewrite E. cbn [rbind].
      assert (Wc : wf d maxE lo lo (H - 1) c0).
      { rewrite Forall_forall in V. apply V. eapply nth_error_In; eauto. }
      destruct (IH c0 lo (H - 1) level (path ++ [Inner ch H (Some (union d (map node_box ch)))])
                  (idxs ++ [i]) true Wc) as (P' & I' & E' & Ch & H0 & L' & W').
      { rewrite Lp. lia. }
      { rewrite Lp. lia. }
      exists (Inner ch H (Some (union d (map node_box ch))) :: P'), (i :: I').
      rewrite E'. rewrite <- !app_assoc. simpl.
      split; [reflexivity|]. split; [|split; [reflexivity|split]].
      * destruct Ch as (Ch1 & Ch2). split; [simpl; lia|].
        intros k Hk. destruct k as [|k].
        -- simpl. unfold pnth in H0. rewrite <- H0 in N. unfold pnth. simpl. exact N.
        -- rewrite !pnth_cons. simpl nth. apply Ch2. simpl in Hk. lia.
      * rewrite Lp in L'. unfold len in *. simpl length. lia.
      * intros j Hj. destruct j as [|j]; [lia|]. rewrite pnth_cons.
        destruct j as [|j].
        -- rewrite H0. replace (H - Z.of_nat 1) with (H - 1) by lia. exact Wc.
        -- replace (H - Z.of_nat (S (S j))) with (H - 1 - Z.of_nat (S j)) by lia.
           apply W'. simpl in Hj. lia.
Qed.
End ChooseProofs.

(** ** Children replaced along the path *)

Lemma nchildren_set_child p i c0 : nchildren (set_child p i c0) = nchildren p.
Proof.
  destruct p; simpl; [reflexivity|]. unfold len. rewrite replace_nth_length. reflexivity.
Qed.

Lemma replace_nth_mid {A} (l1 l2 : list A) x y :
  replace_nth (length l1) (l1 ++ x :: l2) y = l1 ++ y :: l2.
Proof.
  rewrite <- (Nat.add_0_r (length l1)). rewrite replace_nth_app_r. reflexivity.
Qed.

Lemma last_map_some {A} (l : list A) (dflt : A) :
  l <> [] -> last (map Some l) None = Some (nth (length l - 1) l dflt).
Proof.
  induction l as [|x l IH]; intros H; [congruence|].
  destruct l as [|y l]; [reflexivity|].
  change (last (map Some (x :: y :: l)) None) with (last (map Some (y :: l)) None).
  rewrite IH by discriminate. simpl. rewrite Nat.sub_0_r. reflexivity.
Qed.

Lemma extend_swap d x u v :
  clean d x -> clean d u -> clean d v ->
  extend d (extend d x u) v = extend d (extend d x v) u.
Proof.
  intros Cx Cu Cv. rewrite !extend_assoc by assumption.
  rewrite (extend_comm d u v) by assumption. reflexivity.
Qed.

(** The union of the boxes of a list of children in which the child [x] is
    replaced by children whose boxes have the union of [x]'s box and [bx]. *)
Lemma union_replaced d (l1 l2 ys : list box) x bx :
  Forall (clean d) l1 -> Forall (clean d) l2 -> Forall (clean d) ys ->
  clean d x -> clean d bx ->
  union d ys = extend d x bx ->
  forall hd tl, ys = hd :: tl ->
  union d (l1 ++ hd :: l2 ++ tl) = extend d (union d (l1 ++ x :: l2)) bx.
Proof.
  intros C1 C2 Cy Cx Cb U hd tl E.
  assert (C12 : Forall (clean d) (l1 ++ l2)) by (apply Forall_app; auto).
  assert (P1 : Permutation (l1 ++ hd :: l2 ++ tl) (ys ++ (l1 ++ l2))).
  { subst ys. simpl. rewrite <- Permutation_middle. constructor.
    rewrite app_assoc. rewrite Permutation_app_comm. reflexivity. }
  assert (P2 : Permutation (l1 ++ x :: l2) (x :: (l1 ++ l2))).
  { symmetry. apply Permutation_middle. }
  rewrite (union_perm d _ _ P1).
  - rewrite (union_perm d _ _ P2).
    + rewrite union_app by assumption. rewrite union_cons by assumption. rewrite U.
      apply extend_swap; auto. apply union_clean. exact C12.
    + apply Forall_app. split; [assumption|]. constructor; assumption.
  - subst ys. inversion Cy; subst.
    apply Forall_app. split; [assumption|]. constructor; [assumption|].
    apply Forall_app. split; assumption.
Qed.

Lemma flat_map_replaced {A B} (f : A -> list B) (l1 l2 : list A) x hd tl added :
  Permutation (flat_map f (hd :: tl)) (added ++ f x) ->
  Permutation (flat_map f (l1 ++ hd :: l2 ++ tl)) (added ++ flat_map f (l1 ++ x :: l2)).
Proof.
  intros Hp. rewrite !flat_map_app. simpl in *. rewrite flat_map_app.
  transitivity ((f hd ++ flat_map f tl) ++ flat_map f l1 ++ flat_map f l2).
  - etransitivity; [apply Permutation_app_comm|]. rewrite <- !app_assoc.
    apply Permutation_app_head.
    etransitivity; [apply Permutation_app_comm|]. rewrite <- !app_assoc. reflexivity.
  - rewrite Hp. rewrite <- !app_assoc. apply Permutation_app_head.
    rewrite !app_assoc. apply Permutation_app_tail. apply Permutation_app_comm.
Qed.

Lemma union_one d b : clean d b -> union d [b] = b.
Proof.
  intros C. rewrite union_cons by (auto; constructor). rewrite union_nil.
  apply extend_empty_r. exact C.
Qed.

Lemma union_two d a b : clean d a -> clean d b -> union d [a; b] = extend d a b.
Proof.
  intros Ca Cb. rewrite union_cons; [|assumption|constructor; [assumption|constructor]].
  rewrite union_one by assumption. reflexivity.
Qed.

(** ** The loops of [_insert] along a path *)

Section InsertPath.
Variable t : rbush_t.
Variable c : cache.
Variable lo : Z.
Hypothesis lo_pos : 1 <= lo.
Hypothesis lo_min : lo <= _minEntries t.
Hypothesis min_max : 2 * _minEntries t <= _maxEntries t + 1.
Hypothesis max_two : 2 <= _maxEntries t.
Hypothesis c_warm : warm (_dimension t) c.
Variable P : list node.
Variable I : list nat.
Variable H : Z.
Variable bx : box.
Variable added : list Item.
Hypothesis chainPI : chain P I.
Hypothesis wfP : wf_path (_dimension t) (_maxEntries t) lo H P.
Hypothesis bx_finite : fbox (_dimension t) bx.

Local Abbreviation d := (_dimension t).
Local Abbreviation maxE := (_maxEntries t).
Local Abbreviation pending := (pend (_dimension t) (_maxEntries t) lo H P bx added).
Local Abbreviation settle := (settled (_dimension t) (_maxEntries t) lo H P bx added).
Local Abbreviation state := (path_state (_dimension t) (_maxEntries t) lo H P I bx added).

Lemma P_box j :
  (j < length P)%nat ->
  bbox_of (pnth P j) = Some (node_box (pnth P j)) /\
  clean d (node_box (pnth P j)) /\
  node_box (pnth P j) = union d (child_boxes (pnth P j)).
Proof.
  intros Hj. pose proof (wfP j Hj) as W.
  pose proof (wf_bbox _ _ _ _ _ _ W) as B. unfold node_box. rewrite B. simpl.
  split; [reflexivity|]. split; [|reflexivity].
  apply union_clean. eapply kids_boxes_clean; [exact lo_pos|]. eapply wf_kids. exact W.
Qed.

Lemma bx_clean : clean d bx.
Proof. apply fbox_clean. exact bx_finite. Qed.

Lemma P_decompose j :
  (S j < length P)%nat ->
  exists l1 l2,
    pnth P j = Inner (l1 ++ pnth P (S j) :: l2) (H - Z.of_nat j)
                 (Some (node_box (pnth P j))) /\
    length l1 = nth j I O /\
    Forall (wf d maxE lo lo (H - Z.of_nat (S j))) (l1 ++ pnth P (S j) :: l2) /\
    min_at lo j <= len (l1 ++ pnth P (S j) :: l2) <= maxE /\ 2 <= H - Z.of_nat j.
Proof.
  intros Hj. destruct chainPI as (L & Ch).
  pose proof (Ch j ltac:(lia)) as N.
  pose proof (wfP j ltac:(lia)) as W.
  destruct (P_box j ltac:(lia)) as (B & _).
  destruct (pnth P j) as [ch hh b | ch hh b] eqn:Ep.
  - simpl in N. destruct (nth j I O); discriminate.
  - pose proof (wf_kids _ _ _ _ _ _ W) as K. simpl in K. destruct K as (-> & Hh & V).
    pose proof (wf_count _ _ _ _ _ _ W) as C. simpl in C, N.
    destruct (nth_error_split_at _ _ _ N) as (l1 & l2 & E & Ll).
    exists l1, l2. rewrite <- E.
    split; [f_equal; exact B|]. split; [exact Ll|].
    split; [|split; [lia|lia]].
    replace (H - Z.of_nat (S j)) with (H - Z.of_nat j - 1) by lia. exact V.
Qed.

Lemma pend_settle j n :
  (j < length P)%nat -> pending j n -> nchildren n <= maxE ->
  exists b, bbox_of n = Some b /\ settle j (set_bbox n (Some (extend d b bx))).
Proof.
  intros Hj (K & N1 & N2 & B & U & It) C.
  destruct (P_box j Hj) as (_ & CB & _).
  assert (E : exists b, bbox_of n = Some b /\
                        extend d b bx = extend d (node_box (pnth P j)) bx).
  { destruct B as [B|B]; rewrite B; eexists; (split; [reflexivity|]); [reflexivity|].
    apply extend_absorb; [exact CB|exact bx_clean]. }
  destruct E as (b & Eb & Ee). exists b. split; [exact Eb|].
  split; [|split].
  - apply wf_from_parts.
    + apply set_bbox_kids. exact K.
    + intros _. rewrite set_bbox_count. exact N1.
    + rewrite set_bbox_count. lia.
    + rewrite set_bbox_bbox, set_bbox_boxes, U, Ee. reflexivity.
  - unfold node_box. rewrite set_bbox_bbox. simpl. exact Ee.
  - rewrite set_bbox_items. exact It.
Qed.

(** The parent of the node at depth [S j] once that node is replaced by
    [hd], with [tl] appended to the children. *)
Lemma replaced_pend j hd tl :
  (S j < length P)%nat ->
  Forall (wf d maxE lo lo (H - Z.of_nat (S j))) (hd :: tl) ->
  len tl <= 1 ->
  union d (map node_box (hd :: tl)) = extend d (node_box (pnth P (S j))) bx ->
  Permutation (flat_map all_items (hd :: tl)) (added ++ all_items (pnth P (S j))) ->
  exists l1 l2,
    pnth P j = Inner (l1 ++ pnth P (S j) :: l2) (H - Z.of_nat j)
                 (Some (node_box (pnth P j))) /\
    length l1 = nth j I O /\
    pending j (Inner (l1 ++ hd :: l2 ++ tl) (H - Z.of_nat j) (Some (node_box (pnth P j)))).
Proof.
  intros Hj W Lt U It.
  destruct (P_decompose j Hj) as (l1 & l2 & E & Ll & V & C & Hh).
  exists l1, l2. split; [exact E|]. split; [exact Ll|].
  apply Forall_app in V. destruct V as (V1 & V2). inversion V2 as [|x0 l0 Vx V2']; subst.
  inversion W as [|x1 l3 Wh Wt]; subst.
  assert (Cl : forall l, Forall (wf d maxE lo lo (H - Z.of_nat (S j))) l ->
                         Forall (clean d) (map node_box l)).
  { intros l F. apply Forall_map. eapply Forall_impl; [|exact F].
    intros x Hx. apply fbox_clean. exact (wf_lo_fbox _ _ _ lo_pos _ _ Hx). }
  assert (Ln : len (l1 ++ hd :: l2 ++ tl) = len (l1 ++ pnth P (S j) :: l2) + len tl).
  { unfold len. rewrite !length_app. simpl. rewrite length_app. lia. }
  pose proof (len_nonneg tl) as Lt0.
  pose proof (len_nonneg l1) as Ll0. pose proof (len_nonneg l2) as Ll2.
  assert (Lc : 1 <= len (l1 ++ pnth P (S j) :: l2)).
  { unfold len in *. rewrite length_app. simpl. lia. }
  split; [|split; [|split; [|split; [|split]]]].
  - simpl. split; [reflexivity|]. split; [exact Hh|].
    replace (H - Z.of_nat j - 1) with (H - Z.of_nat (S j)) by lia.
    apply Forall_app. split; [exact V1|]. constructor; [exact Wh|].
    apply Forall_app. split; assumption.
  - cbn [nchildren]. lia.
  - cbn [nchildren]. lia.
  - left. rewrite E at 1. reflexivity.
  - simpl. rewrite map_app. simpl. rewrite map_app.
    assert (Cx : clean d (node_box (pnth P (S j)))).
    { apply fbox_clean. exact (wf_lo_fbox _ _ _ lo_pos _ _ Vx). }
    rewrite (union_replaced d (map node_box l1) (map node_box l2) (map node_box (hd :: tl))
               (node_box (pnth P (S j))) bx (Cl _ V1) (Cl _ V2') (Cl _ W) Cx bx_clean U
               (node_box hd) (map node_box tl) eq_refl).
    destruct (P_box j ltac:(lia)) as (_ & _ & B). rewrite B. rewrite E.
    simpl. rewrite map_app. reflexivity.
  - simpl all_items. rewrite E. simpl all_items.
    apply flat_map_replaced. exact It.
Qed.

Lemma settled_parent j n :
  (S j < length P)%nat -> settle (S j) n ->
  pending j (set_child (pnth P j) (nth j I O) n) /\
  nchildren (set_child (pnth P j) (nth j I O) n) <= maxE.
Proof.
  intros Hj (W & B & It).
  assert (Cn : clean d (node_box n)).
  { apply fbox_clean. exact (wf_lo_fbox _ _ _ lo_pos _ _ W). }
  destruct (replaced_pend j n [] Hj) as (l1 & l2 & E & Ll & Pd).
  - constructor; [exact W|constructor].
  - unfold len. simpl. lia.
  - simpl map. rewrite union_one by exact Cn. exact B.
  - simpl. rewrite app_nil_r. exact It.
  - split.
    + rewrite E. simpl. rewrite <- Ll. rewrite replace_nth_mid.
      rewrite app_nil_r in Pd. exact Pd.
    + rewrite nchildren_set_child.
      pose proof (wf_count _ _ _ _ _ _ (wfP j ltac:(lia))). lia.
Qed.

Lemma split_parent j n1 n2 :
  (S j < length P)%nat ->
  wf d maxE lo lo (H - Z.of_nat (S j)) n1 ->
  wf d maxE lo lo (H - Z.of_nat (S j)) n2 ->
  extend d (node_box n1) (node_box n2) = extend d (node_box (pnth P (S j))) bx ->
  Permutation (all_items n1 ++ all_items n2) (added ++ all_items (pnth P (S j))) ->
  exists p',
    push_child (set_child (pnth P j) (nth j I O) n1) (ENode n2) = Ok p' /\ pending j p'.
Proof.
  intros Hj W1 W2 B It.
  assert (C1 : clean d (node_box n1)).
  { apply fbox_clean. exact (wf_lo_fbox _ _ _ lo_pos _ _ W1). }
  assert (C2 : clean d (node_box n2)).
  { apply fbox_clean. exact (wf_lo_fbox _ _ _ lo_pos _ _ W2). }
  destruct (replaced_pend j n1 [n2] Hj) as (l1 & l2 & E & Ll & Pd).
  - constructor; [exact W1|constructor; [exact W2|constructor]].
  - unfold len. simpl. lia.
  - simpl map. rewrite union_two by assumption. exact B.
  - simpl. rewrite app_nil_r. exact It.
  - rewrite E. simpl. rewrite <- Ll. rewrite replace_nth_mid.
    eexists. split; [reflexivity|].
    replace ((l1 ++ n1 :: l2) ++ [n2]) with (l1 ++ n1 :: l2 ++ [n2]); [exact Pd|].
    rewrite <- app_assoc. reflexivity.
Qed.
Lemma state_zget path j : state path j -> zget path (Z.of_nat j) = Some (pnth path j).
Proof. intros (L & Hj & _). apply zget_pnth. lia. Qed.

Lemma H_pos : 1 <= H.
Proof.
  destruct chainPI as (L & _).
  pose proof (wf_height_pos _ _ _ _ _ _ (wfP O ltac:(lia))). simpl in *. lia.
Qed.

(** One call of [_split] at level [j] of a path whose node at [j] has one
    child too many: a new root when [j] is 0, and the parent pending
    otherwise. *)
Lemma split_step path j :
  state path j -> maxE < nchildren (pnth path j) ->
  match j with
  | O => exists path' root,
           _split t path I 0 c = Ok ((path', Some root), c) /\
           wf d maxE lo 0 (H + 1) root /\
           Permutation (all_items root) (added ++ all_items (pnth P 0))
  | S j' => exists path',
           _split t path I (Z.of_nat j) c = Ok ((path', None), c) /\ state path' j'
  end.
Proof.
  intros St Ov. pose proof (state_zget _ _ St) as Z0.
  destruct St as (L & Hj & A & K & N1 & N2 & B & U & It).
  destruct (split_node_ok t c lo lo_pos c_warm (pnth path j) (H - Z.of_nat j) K
              ltac:(lia) min_max ltac:(lia))
    as (na & i & k0 & v0 & n1 & n2 & E1 & E2 & Ca & E3 & E4 & E5 & W1 & W2 & Bx & Its & Hh).
  apply (fun w => wf_weaken _ _ _ _ lo _ _ w lo_min) in W1.
  apply (fun w => wf_weaken _ _ _ _ lo _ _ w lo_min) in W2.
  destruct chainPI as (Lc & Ch).
  destruct j as [|j'].
  - unfold _split, mbind, lift, ret. simpl Z.of_nat in Z0. rewrite Z0. cbn [defined].
    rewrite E1. rewrite <- Ca. rewrite E2. rewrite E3. rewrite E4, E5.
    cbn [Z.eqb]. unfold _splitRoot.
    destruct (calcBBox_wf t c lo lo_pos c_warm 0 (H + 1) (Inner [n1; n2] (height_of n1 + 1) None))
      as (r & Er & Wr & _ & _ & Ir & _).
    { simpl. rewrite (wf_height _ _ _ _ _ _ W1). simpl Z.of_nat.
      split; [lia|]. split; [pose proof H_pos; lia|].
      simpl Z.of_nat in W1, W2.
      replace (H + 1 - 1) with (H - 0) by lia.
      constructor; [exact W1|constructor; [exact W2|constructor]]. }
    { unfold nchildren, len. simpl. lia. }
    { unfold nchildren, len. simpl. lia. }
    rewrite Er. eexists _, r. split; [reflexivity|]. split; [exact Wr|].
    rewrite Ir. simpl. rewrite app_nil_r. rewrite Its. exact It.
  - unfold _split, mbind, lift, ret. rewrite Z0. cbn [defined].
    rewrite E1. rewrite <- Ca. rewrite E2. rewrite E3. rewrite E4, E5.
    destruct (Z.eqb_spec (Z.of_nat (S j')) 0) as [Ez|_]; [lia|].
    rewrite Nat2Z.id.
    replace (Z.of_nat (S j') - 1) with (Z.of_nat j') by lia.
    rewrite Nat2Z.id.
    set (path1 := write_through path I (S j') n1).
    assert (L1 : length path1 = length P).
    { unfold path1. rewrite wt_length. exact L. }
    assert (A1 : anc P I path1 (S j')).
    { unfold path1. apply (anc_wt P I path (S j')); auto; lia. }
    rewrite (zget_pnth path1 j') by lia. cbn [defined].
    rewrite (A1 j') by lia.
    assert (X1 : pnth path1 (S j') = n1).
    { unfold path1. apply wt_at. lia. }
    rewrite X1.
    destruct (split_parent j' n1 n2 Hj W1 W2) as (p' & Ep & Pp).
    { rewrite Bx. exact U. }
    { rewrite Its. exact It. }
    rewrite Ep. eexists. split; [reflexivity|].
    split; [rewrite wt_length; exact L1|]. split; [lia|].
    split.
    + apply (anc_wt P I path1 (S j')); auto; lia.
    + rewrite wt_at by lia. exact Pp.
Qed.
Lemma split_loop_unfold fuel path j root :
  state path j ->
  split_loop t (S fuel) path I (Z.of_nat j) root c =
  if maxE <? nchildren (pnth path j) then
    mbind (_split t path I (Z.of_nat j))
      (fun pr => split_loop t fuel (fst pr) I (Z.of_nat j - 1)
                   (match snd pr with Some _ => snd pr | None => root end)) c
  else Ok ((path, Z.of_nat j, root), c).
Proof.
  intros St. cbn [split_loop]. rewrite Z.geb_leb.
  destruct (Z.leb_spec 0 (Z.of_nat j)) as [_|Hn]; [|lia].
  unfold mbind at 1. unfold lift at 1. rewrite (state_zget _ _ St). cbn [defined].
  rewrite Z.gtb_ltb. destruct (maxE <? nchildren (pnth path j)); [|reflexivity].
  unfold mbind. destruct (_split t path I (Z.of_nat j) c) as [[[p r] c']|e]; reflexivity.
Qed.

(** The loop of [_insert] that splits: it ends with a new root, or at a
    level whose node has no child too many. *)
Lemma split_loop_ok : forall j (fuel : nat) path,
  state path j -> (j + 1 < fuel)%nat ->
  (exists path' root,
     split_loop t fuel path I (Z.of_nat j) None c = Ok ((path', -1, Some root), c) /\
     wf d maxE lo 0 (H + 1) root /\
     Permutation (all_items root) (added ++ all_items (pnth P 0))) \/
  (exists path' j',
     split_loop t fuel path I (Z.of_nat j) None c = Ok ((path', Z.of_nat j', None), c) /\
     state path' j' /\ nchildren (pnth path' j') <= maxE).
Proof.
  induction j as [|j IH]; intros fuel path St Hf;
    (destruct fuel as [|fuel]; [lia|]); rewrite (split_loop_unfold _ _ _ _ St);
    match goal with
    | |- context [_maxEntries t <? ?x] => destruct (Z.ltb_spec (_maxEntries t) x) as [Ov|Ov]
    end.
  - destruct (split_step path O St Ov) as (path' & root & E & W & It).
    left. exists path', root. unfold mbind. simpl Z.of_nat. rewrite E.
    destruct fuel as [|fuel]; [lia|]. cbn [split_loop]. simpl.
    split; [reflexivity|]. split; assumption.
  - right. exists path, O. split; [reflexivity|]. split; [exact St|lia].
  - destruct (split_step path (S j) St Ov) as (path' & E & St').
    unfold mbind. rewrite E. cbn [fst snd].
    replace (Z.of_nat (S j) - 1) with (Z.of_nat j) by lia.
    apply IH; [exact St'|lia].
  - right. exists path, (S j). split; [reflexivity|]. split; [exact St|lia].
Qed.

(** The loop of [_adjustParentBBoxes] from a settled node up to the root. *)
Lemma adjust_settled : forall j path,
  length path = length P -> (j < length P)%nat -> anc P I path j ->
  settle j (pnth path j) ->
  exists path',
    foldM (adjust_step t (Some bx) I) (rev (zrange 0 (Z.of_nat j))) path = Ok path' /\
    length path' = length P /\ settle O (pnth path' O).
Proof.
  induction j as [|j IH]; intros path L Hj A S0.
  - simpl. exists path. auto.
  - rewrite Nat2Z.inj_succ. unfold Z.succ. rewrite zrange_snoc by lia.
    rewrite rev_app_distr. simpl rev. simpl app. cbn [foldM].
    unfold adjust_step at 1. rewrite zget_pnth by lia. cbn [defined rbind].
    rewrite (A j) by lia.
    destruct (settled_parent j _ Hj S0) as (Pd & C).
    destruct (pend_settle j _ ltac:(lia) Pd C) as (b & Eb & S1).
    rewrite Eb. unfold extend_js. cbn [defined rbind]. rewrite Nat2Z.id.
    destruct chainPI as (Lc & _).
    apply IH.
    + rewrite wt_length. exact L.
    + lia.
    + apply (anc_wt P I path (S j)); auto; lia.
    + rewrite wt_at by lia. exact S1.
Qed.

Lemma adjust_ok path j :
  state path j -> nchildren (pnth path j) <= maxE ->
  exists path',
    _adjustParentBBoxes t (Some bx) path I (Z.of_nat j) = Ok path' /\
    length path' = length P /\ settle O (pnth path' O).
Proof.
  intros (L & Hj & A & Pd) C. unfold _adjustParentBBoxes.
  rewrite zrange_snoc by lia. rewrite rev_app_distr. simpl rev. simpl app. cbn [foldM].
  unfold adjust_step at 1. rewrite zget_pnth by lia. cbn [defined rbind].
  destruct (pend_settle j _ Hj Pd C) as (b & Eb & S1).
  rewrite Eb. unfold extend_js. cbn [defined rbind]. rewrite Nat2Z.id.
  destruct chainPI as (Lc & _).
  apply adjust_settled.
  - rewrite wt_length. exact L.
  - exact Hj.
  - apply (anc_wt P I path j); auto; lia.
  - rewrite wt_at by lia. exact S1.
Qed.
End InsertPath.

(** ** [_insert] *)

Lemma anc_self P I : chain P I -> anc P I P (length I).
Proof.
  intros (L & Ch) m Hm. specialize (Ch m Hm).
  destruct (pnth P m) as [ch h b | ch h b]; simpl in *; [reflexivity|].
  rewrite replace_nth_same by exact Ch. reflexivity.
Qed.

Section InsertProofs.
Variable t : rbush_t.
Variable c : cache.
Variable lo : Z.
Hypothesis lo_pos : 1 <= lo.
Hypothesis lo_min : lo <= _minEntries t.
Hypothesis min_max : 2 * _minEntries t <= _maxEntries t + 1.
Hypothesis max_two : 2 <= _maxEntries t.
Hypothesis c_warm : warm (_dimension t) c.

Local Abbreviation d := (_dimension t).
Local Abbreviation maxE := (_maxEntries t).

Lemma entry_box_ok H e level :
  entry_ok d maxE lo H e level ->
  exists bx, entry_bbox e = Some bx /\ fbox d bx.
Proof.
  destruct e as [it|s]; simpl.
  - intros (V & _). exists (toBBox it). split; [reflexivity|].
    apply valid_item_fbox. exact V.
  - intros (W & _). exists (node_box s). split.
    + rewrite (wf_bbox _ _ _ _ _ _ W). unfold node_box.
      rewrite (wf_bbox _ _ _ _ _ _ W). reflexivity.
    + exact (wf_lo_fbox _ _ _ lo_pos _ _ W).
Qed.

(** The node at the end of the path takes the entry: the path is in the
    state the loops of [_insert] start from. *)
Lemma insert_start P I H e bx :
  chain P I -> wf_path d maxE lo H P ->
  entry_ok d maxE lo H e (Z.of_nat (length I)) ->
  entry_bbox e = Some bx -> fbox d bx ->
  exists n' B,
    push_child (pnth P (length I)) e = Ok n' /\ bbox_of n' = Some B /\
    path_state d maxE lo H P I bx (entry_items e)
      (write_through P I (length I) (set_bbox n' (Some (extend d B bx)))) (length I).
Proof.
  intros Ch Wp Eo Eb Fb. pose proof Ch as (L & Ch').
  pose proof (Wp (length I) ltac:(lia)) as W.
  assert (Cb : clean d bx) by (apply fbox_clean; exact Fb).
  assert (G : forall n',
             push_child (pnth P (length I)) e = Ok n' ->
             bbox_of n' = bbox_of (pnth P (length I)) ->
             kids_ok d maxE lo (H - Z.of_nat (length I)) n' ->
             nchildren n' = nchildren (pnth P (length I)) + 1 ->
             child_boxes n' = child_boxes (pnth P (length I)) ++ [bx] ->
             Permutation (all_items n') (entry_items e ++ all_items (pnth P (length I))) ->
             exists n' B,
               push_child (pnth P (length I)) e = Ok n' /\ bbox_of n' = Some B /\
               path_state d maxE lo H P I bx (entry_items e)
                 (write_through P I (length I) (set_bbox n' (Some (extend d B bx))))
                 (length I)).
  { intros n' Ep Bn K Cn Bs It.
    pose proof (wf_bbox _ _ _ _ _ _ W) as Bw.
    pose proof (wf_count _ _ _ _ _ _ W) as Cw.
    pose proof (nchildren_nonneg (pnth P (length I))) as Nn.
    exists n', (node_box (pnth P (length I))).
    split; [exact Ep|]. split; [rewrite Bn, Bw; unfold node_box; rewrite Bw; reflexivity|].
    split; [rewrite wt_length; reflexivity|]. split; [lia|].
    split; [apply (anc_wt P I P (length I)); [apply anc_self; exact Ch|lia|lia|lia]|].
    rewrite wt_at by lia.
    split; [apply set_bbox_kids; exact K|].
    rewrite set_bbox_count, set_bbox_bbox, set_bbox_boxes, set_bbox_items.
    split; [lia|]. split; [lia|]. split; [right; reflexivity|].
    split; [|exact It].
    rewrite Bs, union_snoc. unfold node_box. rewrite Bw. reflexivity. }
  destruct e as [it|s]; simpl in Eo, Eb.
  - destruct Eo as (V & El). inversion Eb; subst bx.
    pose proof (wf_kids _ _ _ _ _ _ W) as K.
    destruct (pnth P (length I)) as [ch h b | ch h b] eqn:Ep; simpl in K.
    + destruct K as (-> & Hh & Vc).
      apply (G (Leaf (ch ++ [it]) 1 b)).
      * reflexivity.
      * reflexivity.
      * simpl. split; [reflexivity|]. split; [exact Hh|].
        apply Forall_app. split; [exact Vc|]. constructor; [exact V|constructor].
      * unfold nchildren, len. rewrite length_app. simpl. lia.
      * simpl. rewrite map_app. reflexivity.
      * simpl. symmetry. apply Permutation_cons_append.
    + lia.
  - destruct Eo as (Ws & El). 
    pose proof (wf_bbox _ _ _ _ _ _ Ws) as Bs. rewrite Bs in Eb. inversion Eb; subst bx.
    pose proof (wf_kids _ _ _ _ _ _ W) as K.
    destruct (pnth P (length I)) as [ch h b | ch h b] eqn:Ep; simpl in K.
    + lia.
    + destruct K as (-> & Hh & Vc).
      apply (G (Inner (ch ++ [s]) (H - Z.of_nat (length I)) b)).
      * reflexivity.
      * reflexivity.
      * simpl. split; [reflexivity|]. split; [exact Hh|].
        apply Forall_app. split; [exact Vc|]. constructor; [exact Ws|constructor].
      * unfold nchildren, len. rewrite length_app. simpl. lia.
      * simpl. rewrite map_app. simpl. unfold node_box at 2. rewrite Bs. reflexivity.
      * simpl. rewrite flat_map_app. simpl. rewrite app_nil_r.
        apply Permutation_app_comm.
Qed.

(** [_insert] in a well-formed tree of height [H]: it returns once its
    fuel exceeds [H], the new tree is well formed, of height [H] or [H + 1],
    and holds what the tree held and what the entry brings. *)
Lemma insert_entry_ok e level H (fuel : nat) :
  wf d maxE lo 0 H (data t) ->
  entry_ok d maxE lo H e level ->
  (Z.to_nat H + 1 <= fuel)%nat ->
  exists root',
    _insert t fuel e level c = Ok (root', c) /\
    (wf d maxE lo 0 H root' \/ wf d maxE lo 0 (H + 1) root') /\
    Permutation (all_items root') (entry_items e ++ all_items (data t)).
Proof.
  intros W Eo Hf.
  destruct (entry_box_ok H e level Eo) as (bx & Eb & Fb).
  pose proof (wf_height_pos _ _ _ _ _ _ W) as Hp.
  assert (Hl : 0 <= level <= H - 1).
  { destruct e; simpl in Eo; lia. }
  destruct (chooseSubtree_ok d maxE lo lo_pos bx Fb fuel (data t) 0 H level [] [] false W)
    as (P & I & Ec & Ch & P0 & Lp & Wj).
  { unfold len. simpl. lia. }
  { unfold len. simpl. lia. }
  simpl app in Ec. pose proof Ch as (Lc & _).
  assert (Ll : level = Z.of_nat (length I)).
  { unfold len in Lp. simpl in Lp. lia. }
  assert (Wp : wf_path d maxE lo H P).
  { intros j Hj. destruct j as [|j].
    - rewrite P0. simpl. replace (H - 0) with H by lia. exact W.
    - apply Wj. lia. }
  subst level.
  destruct (insert_start P I H e bx Ch Wp Eo Eb Fb) as (n' & B & Ep & Bn & St).
  unfold _insert. unfold mbind at 1. unfold lift at 1. rewrite Eb, Ec.
  unfold mbind at 1. unfold lift at 1.
  rewrite (last_map_some P dnode) by (destruct P; [simpl in Lc; lia|discriminate]).
  replace (length P - 1)%nat with (length I) by lia.
  cbn [defined]. fold (pnth P (length I)).
  unfold mbind at 1. unfold lift at 1. rewrite Ep.
  unfold mbind at 1. unfold lift at 1. rewrite Bn. unfold extend_js. cbn [defined rbind].
  replace (length P - 1)%nat with (length I) by lia.
  destruct (split_loop_ok t c lo lo_pos lo_min min_max max_two c_warm P I H bx (entry_items e)
              Ch Wp Fb (length I) fuel _ St ltac:(lia))
    as [(path' & root & Es & Wr & It) | (path' & j' & Es & St' & Cn)].
  - unfold mbind at 1. rewrite Es. unfold mbind at 1. unfold lift at 1.
    unfold _adjustParentBBoxes. simpl. unfold ret.
    exists root. split; [reflexivity|]. split; [right; exact Wr|].
    rewrite It, P0. reflexivity.
  - unfold mbind at 1. rewrite Es. unfold mbind at 1. unfold lift at 1.
    destruct (adjust_ok t lo lo_pos P I H bx (entry_items e) Ch Wp Fb path' j' St' Cn)
      as (path2 & Ea & L2 & (W2 & _ & It2)).
    rewrite Ea. unfold lift.
    destruct path2 as [|r rest]; [simpl in L2; lia|]. simpl.
    exists r. split; [reflexivity|]. simpl in W2, It2.
    replace (H - 0) with H in W2 by lia.
    split; [left; exact W2|]. rewrite It2, P0. reflexivity.
Qed.
End InsertProofs.

(** ** More fuel changes no result of [_insert] *)

Lemma chooseSubtree_more : forall (fuel : nat) d bbox n level path idxs chosen r,
  chooseSubtree fuel d bbox n level path idxs chosen = Ok r ->
  chooseSubtree (S fuel) d bbox n level path idxs chosen = Ok r.
Proof.
  induction fuel as [|fuel IH]; intros d bbox n level path idxs chosen r H; [discriminate|].
  cbn [chooseSubtree] in H. remember (S fuel) as f1 eqn:Ef. cbn [chooseSubtree]. subst f1.
  destruct n as [ch h b | ch h b]; [exact H|].
  destruct (len (path ++ [Inner ch h b]) - 1 =? level); [exact H|].
  destruct (choose_child d bbox ch) as [[[i c0]|]|e]; cbn [rbind] in *;
    try discriminate; try exact H.
  apply IH. exact H.
Qed.

Lemma split_loop_more t : forall (fuel : nat) path idxs level root c r,
  split_loop t fuel path idxs level root c = Ok r ->
  split_loop t (S fuel) path idxs level root c = Ok r.
Proof.
  induction fuel as [|fuel IH]; intros path idxs level root c r H; [discriminate|].
  cbn [split_loop] in H. remember (S fuel) as f1 eqn:Ef. cbn [split_loop]. subst f1.
  destruct (level >=? 0); [|exact H].
  unfold mbind at 1 in H. unfold mbind at 1.
  destruct (lift (defined (zget path level)) c) as [[n c1]|e]; [|discriminate].
  destruct (nchildren n >? _maxEntries t); [|exact H].
  unfold mbind at 1 in H. unfold mbind at 1.
  destruct (_split t path idxs level c1) as [[[p1 r1] c2]|e]; [|discriminate].
  apply IH. exact H.
Qed.

Lemma _insert_more t (fuel : nat) e level c r :
  _insert t fuel e level c = Ok r -> _insert t (S fuel) e level c = Ok r.
Proof.
  unfold _insert. intros H.
  unfold mbind at 1 in H. unfold mbind at 1. unfold lift at 1 in H. unfold lift at 1.
  destruct (chooseSubtree fuel (_dimension t) (entry_bbox e) (data t) level [] [] false)
    as [[insertPath idxs]|e1] eqn:E1; [|discriminate].
  rewrite (chooseSubtree_more _ _ _ _ _ _ _ _ _ E1).
  unfold mbind at 1 in H. unfold mbind at 1.
  destruct (lift (defined (last (map Some insertPath) None)) c) as [[n c1]|e1];
    [|discriminate].
  unfold mbind at 1 in H. unfold mbind at 1.
  destruct (lift (push_child n e) c1) as [[n1 c2]|e1]; [|discriminate].
  unfold mbind at 1 in H. unfold mbind at 1.
  destruct (lift (extend_js (_dimension t) (bbox_of n1) (entry_bbox e)) c2) as [[b c3]|e1];
    [|discriminate].
  unfold mbind at 1 in H. unfold mbind at 1.
  destruct (split_loop t fuel
              (write_through insertPath idxs (length insertPath - 1) (set_bbox n1 b))
              idxs level None c3) as [[[[p1 l1] r1] c4]|e1] eqn:E2; [|discriminate].
  rewrite (split_loop_more _ _ _ _ _ _ _ _ E2). exact H.
Qed.

Lemma _insert_later t (fuel k : nat) e level c r :
  _insert t fuel e level c = Ok r -> (fuel <= k)%nat -> _insert t k e level c = Ok r.
Proof.
  intros H Hk. induction Hk as [|k Hk IH]; [exact H|]. apply _insert_more. exact IH.
Qed.

(** [_insert] returns, the same tree whatever fuel it has left. *)
Lemma insert_entry_returns t c lo e level H :
  1 <= lo -> lo <= _minEntries t -> 2 * _minEntries t <= _maxEntries t + 1 ->
  2 <= _maxEntries t -> warm (_dimension t) c ->
  wf (_dimension t) (_maxEntries t) lo 0 H (data t) ->
  entry_ok (_dimension t) (_maxEntries t) lo H e level ->
  exists root',
    (forall fuel, (Z.to_nat H + 1 <= fuel)%nat -> _insert t fuel e level c = Ok (root', c)) /\
    (wf (_dimension t) (_maxEntries t) lo 0 H root' \/
     wf (_dimension t) (_maxEntries t) lo 0 (H + 1) root') /\
    Permutation (all_items root') (entry_items e ++ all_items (data t)).
Proof.
  intros H1 H2 H3 H4 Cw W Eo.
  destruct (insert_entry_ok t c lo H1 H2 H3 H4 Cw e level H (Z.to_nat H + 1) W Eo (le_n _))
    as (root' & E & Wr & It).
  exists root'. split; [|split; assumption].
  intros fuel Hf. eapply _insert_later; eauto.
Qed.


(** * Deletion *)

(** ** The traversal *)

Lemma indexOf_some item ch index :
  indexOf item ch = Some index ->
  exists x, nth_error ch index = Some x /\ same_item x item = true.
Proof.
  revert index. induction ch as [|y ch IH]; intros index H; simpl in H; [discriminate|].
  destruct (same_item y item) eqn:E.
  - inversion H; subst. exists y. auto.
  - destruct (indexOf item ch) as [k|]; simpl in H; [|discriminate].
    inversion H; subst. simpl. apply IH. reflexivity.
Qed.

Lemma child_indexes_app l a i :
  child_indexes l = Ok a -> 0 <= i ->
  child_indexes (l ++ [Some i]) = Ok (a ++ [Z.to_nat i]).
Proof.
  revert a. induction l as [|x l IH]; intros a H Hi; simpl in *.
  - inversion H; subst. destruct (Z.ltb_spec i 0); [lia|]. reflexivity.
  - destruct (child_index x) as [k|e]; simpl in *; [|discriminate].
    destruct (child_indexes l) as [r|e]; simpl in *; [|discriminate].
    inversion H; subst. rewrite (IH r eq_refl Hi). reflexivity.
Qed.

Lemma last_opt_pnth (path : list node) x :
  last_opt path = Some x -> pnth path (length path - 1) = x.
Proof.
  intros H. destruct path as [|p rest]; [discriminate|].
  unfold last_opt in H. rewrite (last_map_some (p :: rest) dnode) in H by discriminate.
  inversion H. reflexivity.
Qed.

Lemma pnth_app_l (a b : list node) m : (m < length a)%nat -> pnth (a ++ b) m = pnth a m.
Proof. intros H. unfold pnth. apply app_nth1. exact H. Qed.

Lemma pnth_app_r (a : list node) x : pnth (a ++ [x]) (length a) = x.
Proof. unfold pnth. rewrite app_nth2 by lia. rewrite Nat.sub_diag. reflexivity. Qed.

Lemma chain_snoc path idxs k n :
  chain path idxs ->
  nth_error (subnodes (pnth path (length idxs))) k = Some n ->
  chain (path ++ [n]) (idxs ++ [k]).
Proof.
  intros (L & Ch) N. split.
  - rewrite !length_app. simpl. lia.
  - intros m Hm. rewrite length_app in Hm. simpl in Hm.
    destruct (Nat.eq_dec m (length idxs)) as [->|Ne].
    + rewrite pnth_app_l by lia. rewrite nth_middle.
      replace (S (length idxs)) with (length path) by lia. rewrite pnth_app_r. exact N.
    + rewrite !pnth_app_l by lia. rewrite app_nth1 by lia. apply Ch. lia.
Qed.

Lemma walk_ctx_down root path indexes idxs0 i chp hp bp n :
  walk_ctx root path indexes idxs0 ->
  last_opt path = Some (Inner chp hp bp) ->
  zget chp i = Some n ->
  walk_ctx root (path ++ [n]) (indexes ++ [Some i]) (idxs0 ++ [Z.to_nat i]).
Proof.
  intros (L & Ci & Ch & R) Lp Z0.
  apply zget_inv in Z0. destruct Z0 as (Hi & N).
  pose proof Ch as (Lc & _).
  split; [rewrite !length_app; simpl; lia|]. split; [|split].
  - destruct indexes as [|x indexes]; [simpl in L; lia|]. simpl.
    simpl in Ci. apply child_indexes_app; [exact Ci|lia].
  - apply chain_snoc; [exact Ch|].
    apply last_opt_pnth in Lp. replace (length idxs0) with (length path - 1)%nat by lia.
    rewrite Lp. exact N.
  - rewrite pnth_app_l by lia. exact R.
Qed.

Section RemoveFound.
Variable t : rbush_t.
Variable item : Item.
Variable root : node.

Local Abbreviation go := (remove_loop t item).

(** The traversal of a subtree entered from its parent at index [i] comes
    back to the parent's next child, or ends with the item found. *)
Lemma visit_general :
  forall n, inner_defined n ->
  forall path indexes idxs0 i chp hp bp,
    walk_ctx root path indexes idxs0 ->
    last_opt path = Some (Inner chp hp bp) ->
    zget chp i = Some n ->
    (exists k, forall fuel,
       go (k + fuel)%nat (Some n) path indexes (Some i) (Some (Inner chp hp bp)) false
       = go fuel (zget chp (i + 1)) path indexes (Some (i + 1)) (Some (Inner chp hp bp)) false)
    \/
    (exists k r,
       (forall fuel,
          go (k + fuel)%nat (Some n) path indexes (Some i) (Some (Inner chp hp bp)) false
          = Ok (Some r)) /\
       found_result item root r).
Proof.
  induction n as [ch h b | ch h b IHch] using node_induction;
    intros Hd path indexes idxs0 i chp hp bp Cx Hp Hz.
  - pose proof (walk_ctx_down _ _ _ _ _ _ _ _ _ Cx Hp Hz) as (L' & Ci' & Ch' & R').
    destruct Cx as (L & Ci & Ch & R). pose proof Ch as (Lc & _).
    destruct (indexOf item ch) as [index|] eqn:Ei.
    + right. exists 1%nat. eexists. split.
      * intros fuel. cbn [Nat.add remove_loop rbind]. rewrite Ei.
        destruct (Z.eqb_spec (len path) 0) as [E0|_]; [unfold len in E0; lia|].
        destruct indexes as [|x0 indexes]; [simpl in L; lia|].
        simpl tl in Ci' |- *. rewrite Ci'. cbn [rbind]. reflexivity.
      * destruct (indexOf_some _ _ _ Ei) as (x & Nx & Sx).
        exists (path ++ [Leaf ch h b]), (idxs0 ++ [Z.to_nat i]), ch, h, b, index, x.
        split; [exact Ch'|]. split; [exact R'|].
        assert (Ll : length (idxs0 ++ [Z.to_nat i]) = length path).
        { rewrite length_app. simpl. lia. }
        split; [rewrite Ll; apply pnth_app_r|].
        split; [exact Nx|]. split; [exact Sx|].
        rewrite Ll. rewrite length_app. simpl.
        replace (length path + 1 - 1)%nat with (length path) by lia. reflexivity.
    + left. exists 1%nat. intros fuel. cbn [Nat.add remove_loop rbind].
      rewrite Ei. reflexivity.
  - inversion Hd as [|ch' h' b' Hch]; subst.
    destruct (contains (_dimension t) b' (toBBox item)) eqn:C.
    + pose proof (walk_ctx_down _ _ _ _ _ _ _ _ _ Cx Hp Hz) as Cx'.
      assert (Kids : forall m j, (m + Z.to_nat j = length ch)%nat -> 0 <= j ->
                (exists k, forall fuel,
                  go (k + fuel)%nat (zget ch j) (path ++ [Inner ch h (Some b')])
                    (indexes ++ [Some i]) (Some j) (Some (Inner ch h (Some b'))) false
                  = go fuel None (path ++ [Inner ch h (Some b')])
                      (indexes ++ [Some i]) (Some (len ch)) (Some (Inner ch h (Some b'))) false)
                \/
                (exists k r,
                   (forall fuel,
                      go (k + fuel)%nat (zget ch j) (path ++ [Inner ch h (Some b')])
                        (indexes ++ [Some i]) (Some j) (Some (Inner ch h (Some b'))) false
                      = Ok (Some r)) /\
                   found_result item root r)).
      { induction m as [|m IHm]; intros j Hm Hj.
        - left. exists 0%nat. intros fuel. cbn [Nat.add].
          assert (j = len ch) by (unfold len; lia). subst j.
          rewrite zget_out by lia. reflexivity.
        - assert (Hr : 0 <= j < len ch) by (unfold len; lia).
          destruct (zget_in_range ch j Hr) as [c0 Hc]. rewrite Hc.
          assert (Hin : In c0 ch).
          { apply zget_inv in Hc. destruct Hc as [_ Hc]. eapply nth_error_In; eauto. }
          rewrite Forall_forall in IHch, Hch.
          destruct (IHch c0 Hin (Hch c0 Hin)
                      (path ++ [Inner ch h (Some b')]) (indexes ++ [Some i])
                      (idxs0 ++ [Z.to_nat i]) j ch h (Some b')
                      Cx' (last_opt_app _ _) Hc) as [[k1 E1] | (k1 & r & E1 & F1)].
          + destruct (IHm (j + 1)) as [[k2 E2] | (k2 & r & E2 & F2)]; try lia.
            * left. exists (k1 + k2)%nat. intros fuel.
              rewrite <- Nat.add_assoc. rewrite E1. apply E2.
            * right. exists (k1 + k2)%nat, r. split; [|exact F2]. intros fuel.
              rewrite <- Nat.add_assoc. rewrite E1. apply E2.
          + right. exists k1, r. split; assumption. }
      destruct (Kids (length ch) 0 ltac:(lia) ltac:(lia)) as [[k Ek] | (k & r & Ek & F)].
      * left. exists (1 + (k + 1))%nat. intros fuel.
        replace (1 + (k + 1) + fuel)%nat with (S (k + S fuel)) by lia.
        cbn [remove_loop rbind contains_js defined bbox_of]. rewrite C.
        cbn [rbind]. rewrite Ek.
        cbn [remove_loop]. rewrite len_app_one. cbn [negb].
        rewrite !last_opt_app. cbn [rbind defined].
        rewrite !removelast_last. rewrite Hp. reflexivity.
      * right. exists (1 + k)%nat, r. split; [|exact F]. intros fuel.
        cbn [Nat.add remove_loop rbind contains_js defined bbox_of]. rewrite C.
        cbn [rbind]. apply Ek.
    + left. exists 1%nat. intros fuel.
      cbn [Nat.add remove_loop rbind contains_js defined bbox_of]. rewrite C.
      reflexivity.
Qed.
End RemoveFound.

Section RemoveTraversal.
Variable t : rbush_t.
Variable item : Item.

Local Abbreviation go := (remove_loop t item).

(** The traversal of [remove] ends: with nothing found, or with a path to
    the leaf that held the item. *)
Lemma remove_loop_total :
  inner_defined (data t) ->
  exists k r,
    (forall fuel, (k <= fuel)%nat -> go fuel (Some (data t)) [] [] None None false = Ok r) /\
    (r = None \/ exists r', r = Some r' /\ found_result item (data t) r').
Proof.
  intros Hd. destruct (data t) as [ch h b | ch h b] eqn:D.
  - destruct (indexOf item ch) as [index|] eqn:Ei.
    + exists 1%nat. eexists. split.
      * intros fuel Hf. destruct fuel as [|fuel]; [lia|].
        cbn [remove_loop rbind]. rewrite Ei. simpl. reflexivity.
      * right. eexists. split; [reflexivity|].
        destruct (indexOf_some _ _ _ Ei) as (x & Nx & Sx).
        exists [Leaf ch h b], [], ch, h, b, index, x.
        split; [split; [reflexivity|simpl; intros; lia]|].
        split; [reflexivity|]. split; [reflexivity|].
        split; [exact Nx|]. split; [exact Sx|]. reflexivity.
    + exists 2%nat, None. split; [|left; reflexivity]. intros fuel Hf.
      destruct fuel as [|[|fuel]]; try lia.
      cbn [remove_loop rbind]. rewrite Ei. reflexivity.
  - inversion Hd as [|ch' h' b' Hch]; subst.
    destruct (contains (_dimension t) b' (toBBox item)) eqn:C.
    + assert (Cx : walk_ctx (Inner ch h (Some b')) [Inner ch h (Some b')] [None] []).
      { split; [reflexivity|]. split; [reflexivity|]. split; [|reflexivity].
        split; [reflexivity|]. simpl. intros. lia. }
      assert (Kids : forall m j, (m + Z.to_nat j = length ch)%nat -> 0 <= j ->
                (exists k, forall fuel,
                  go (k + fuel)%nat (zget ch j) [Inner ch h (Some b')]
                    [None] (Some j) (Some (Inner ch h (Some b'))) false
                  = go fuel None [Inner ch h (Some b')]
                      [None] (Some (len ch)) (Some (Inner ch h (Some b'))) false)
                \/
                (exists k r,
                   (forall fuel,
                      go (k + fuel)%nat (zget ch j) [Inner ch h (Some b')]
                        [None] (Some j) (Some (Inner ch h (Some b'))) false
                      = Ok (Some r)) /\
                   found_result item (Inner ch h (Some b')) r)).
      { induction m as [|m IHm]; intros j Hm Hj.
        - left. exists 0%nat. intros fuel. cbn [Nat.add].
          assert (j = len ch) by (unfold len; lia). subst j.
          rewrite zget_out by lia. reflexivity.
        - assert (Hr : 0 <= j < len ch) by (unfold len; lia).
          destruct (zget_in_range ch j Hr) as [c0 Hc]. rewrite Hc.
          assert (Hin : In c0 ch).
          { apply zget_inv in Hc. destruct Hc as [_ Hc]. eapply nth_error_In; eauto. }
          rewrite Forall_forall in Hch.
          destruct (visit_general t item (Inner ch h (Some b')) c0 (Hch c0 Hin)
                      [Inner ch h (Some b')] [None] [] j ch h (Some b') Cx eq_refl Hc)
            as [[k1 E1] | (k1 & r & E1 & F1)].
          + destruct (IHm (j + 1)) as [[k2 E2] | (k2 & r & E2 & F2)]; try lia.
            * left. exists (k1 + k2)%nat. intros fuel.
              rewrite <- Nat.add_assoc. rewrite E1. apply E2.
            * right. exists (k1 + k2)%nat, r. split; [|exact F2]. intros fuel.
              rewrite <- Nat.add_assoc. rewrite E1. apply E2.
          + right. exists k1, r. split; assumption. }
      destruct (Kids (length ch) 0 ltac:(lia) ltac:(lia)) as [[k Ek] | (k & r & Ek & F)].
      * exists (1 + (k + 2))%nat, None. split; [|left; reflexivity]. intros fuel Hf.
        replace fuel with (S (k + S (S (fuel - k - 3)))) by lia.
        cbn [remove_loop rbind contains_js defined bbox_of]. rewrite C.
        cbn [rbind]. rewrite Ek. reflexivity.
      * exists (1 + k)%nat, (Some r). split; [|right; eauto]. intros fuel Hf.
        replace fuel with (S (k + (fuel - k - 1))) by lia.
        cbn [remove_loop rbind contains_js defined bbox_of]. rewrite C.
        cbn [rbind]. apply Ek.
    + exists 2%nat, None. split; [|left; reflexivity]. intros fuel Hf.
      destruct fuel as [|[|fuel]]; try lia.
      cbn [remove_loop rbind contains_js defined bbox_of]. rewrite C. reflexivity.
Qed.
End RemoveTraversal.

(** ** [_condense] *)

Lemma remove_nth_perm {A} (l : list A) : forall i x,
  nth_error l i = Some x -> Permutation (x :: remove_nth i l) l.
Proof.
  induction l as [|y l IH]; intros [|i] x H; simpl in *; try discriminate.
  - inversion H; subst. reflexivity.
  - rewrite perm_swap. constructor. apply IH. exact H.
Qed.

Lemma remove_nth_mid {A} (l1 l2 : list A) y : remove_nth (length l1) (l1 ++ y :: l2) = l1 ++ l2.
Proof. induction l1 as [|z l1 IH]; simpl; [reflexivity|]. rewrite IH. reflexivity. Qed.

Lemma in_remove_nth {A} (l : list A) : forall i x, In x (remove_nth i l) -> In x l.
Proof.
  induction l as [|y l IH]; intros [|i] x H; simpl in *; auto.
  destruct H as [H|H]; eauto.
Qed.

Lemma Forall_remove_nth {A} (Q : A -> Prop) l i : Forall Q l -> Forall Q (remove_nth i l).
Proof. rewrite !Forall_forall. intros H x Hx. apply H. eapply in_remove_nth; eauto. Qed.

Lemma length_remove_nth {A} (l : list A) : forall i, (length (remove_nth i l) <= length l)%nat.
Proof.
  induction l as [|y l IH]; intros [|i]; simpl; auto. specialize (IH i). lia.
Qed.

Lemma no_children_no_items n : nchildren n = 0 -> all_items n = [].
Proof.
  destruct n as [ch h b | ch h b]; unfold nchildren, len; simpl; intros H;
    destruct ch; simpl in *; try reflexivity; lia.
Qed.

Lemma chain_wf_path d maxE lo H P I :
  1 <= lo -> chain P I -> wf d maxE lo 0 H (pnth P 0) -> wf_path d maxE lo H P.
Proof.
  intros Hlo (L & Ch) W j. induction j as [|j IH]; intros Hj.
  - simpl. replace (H - 0) with H by lia. exact W.
  - specialize (IH ltac:(lia)). specialize (Ch j ltac:(lia)).
    pose proof (wf_kids _ _ _ _ _ _ IH) as K.
    destruct (pnth P j) as [ch h b | ch h b]; simpl in Ch, K.
    + destruct (nth j I O); discriminate.
    + destruct K as (_ & _ & V). rewrite Forall_forall in V.
      simpl min_at. replace (H - Z.of_nat (S j)) with (H - Z.of_nat j - 1) by lia.
      apply V. eapply nth_error_In; eauto.
Qed.

Section CondenseProofs.
Variable t : rbush_t.
Variable c : cache.
Hypothesis c_warm : warm (_dimension t) c.
Variable P : list node.
Variable I : list nat.
Variable H : Z.
Variable x : Item.
Hypothesis chainPI : chain P I.
Hypothesis wfP : wf_path (_dimension t) (_maxEntries t) 1 H P.

Local Abbreviation d := (_dimension t).
Local Abbreviation maxE := (_maxEntries t).
Local Abbreviation cpending := (cpend (_dimension t) (_maxEntries t) H P x).
Local Abbreviation cst := (cstate (_dimension t) (_maxEntries t) H P I x).

Lemma clear_warm : clear t c = Ok (set_data t (Leaf [] 1 (Some (empty_box d))), c).
Proof. unfold clear, mbind. rewrite empty_m_warm by exact c_warm. reflexivity. Qed.

Lemma cpend_parent_drop j n :
  (S j < length P)%nat -> cpending (S j) n -> nchildren n = 0 ->
  cpending j (drop_child (set_child (pnth P j) (nth j I O) n) (nth j I O)).
Proof.
  intros Hj (K & C & It) N0.
  destruct (P_decompose t 1 ltac:(lia) P I H chainPI wfP j Hj)
    as (l1 & l2 & E & Ll & V & Cn & Hh).
  rewrite E. simpl. rewrite <- Ll. rewrite replace_nth_mid, remove_nth_mid.
  apply Forall_app in V. destruct V as (V1 & V2). inversion V2 as [|x0 l0 Vx V2']; subst.
  rewrite (no_children_no_items n N0) in It.
  apply Permutation_length_1_inv in It.
  split; [|split].
  - simpl. split; [reflexivity|]. split; [exact Hh|].
    replace (H - Z.of_nat j - 1) with (H - Z.of_nat (S j)) by lia.
    apply Forall_app. split; assumption.
  - cbn [nchildren]. unfold len in *. rewrite length_app in *. simpl in Cn. lia.
  - rewrite E. simpl. rewrite !flat_map_app. simpl. rewrite It. simpl.
    apply Permutation_middle.
Qed.

Lemma cpend_parent_set j n' :
  (S j < length P)%nat ->
  wf d maxE 1 1 (H - Z.of_nat (S j)) n' ->
  Permutation (x :: all_items n') (all_items (pnth P (S j))) ->
  cpending j (set_child (pnth P j) (nth j I O) n').
Proof.
  intros Hj W It.
  destruct (P_decompose t 1 ltac:(lia) P I H chainPI wfP j Hj)
    as (l1 & l2 & E & Ll & V & Cn & Hh).
  rewrite E. simpl. rewrite <- Ll. rewrite replace_nth_mid.
  apply Forall_app in V. destruct V as (V1 & V2). inversion V2 as [|x0 l0 Vx V2']; subst.
  split; [|split].
  - simpl. split; [reflexivity|]. split; [exact Hh|].
    replace (H - Z.of_nat j - 1) with (H - Z.of_nat (S j)) by lia.
    apply Forall_app. split; [exact V1|]. constructor; assumption.
  - cbn [nchildren]. unfold len in *. rewrite length_app in *. simpl in *. lia.
  - rewrite E. simpl. rewrite !flat_map_app. simpl.
    rewrite <- It. simpl. apply Permutation_middle.
Qed.

(** [_condense] from level [j] up to the root: what it returns is well
    formed and holds the items of the tree but [x]. *)
Lemma condense_ok : forall j path,
  cst path j ->
  exists root',
    _condense t (S j) path I c = Ok (root', c) /\
    wf d maxE 1 0 (height_of root') root' /\
    Permutation (x :: all_items root') (all_items (pnth P 0)).
Proof.
  induction j as [|j IH]; intros path (L & Hj & A & K & C & It);
    destruct chainPI as (Lc & _);
    cbn [_condense]; unfold mbind at 1; unfold lift at 1;
    rewrite (nth_error_pnth path) by lia; cbn [defined];
    match goal with
    | |- context [nchildren ?n =? 0] => destruct (Z.eqb_spec (nchildren n) 0) as [N0|N0]
    end.
  - unfold mbind. rewrite clear_warm. unfold ret. simpl.
    eexists. split; [reflexivity|]. split.
    + apply wf_leaf; try (unfold len; simpl; lia); [constructor|].
      simpl. rewrite union_nil. reflexivity.
    + simpl. rewrite (no_children_no_items _ N0) in It. exact It.
  - pose proof (nchildren_nonneg (pnth path 0)) as Nn.
    destruct (calcBBox_wf t c 1 ltac:(lia) c_warm 0 (H - Z.of_nat 0) (pnth path 0) K)
      as (n' & E & W & _ & _ & In' & _); try lia.
    unfold mbind at 1. rewrite E.
    destruct path as [|p0 rest]; [simpl in L; lia|]. simpl.
    unfold lift. simpl. exists n'. split; [reflexivity|].
    rewrite (wf_height _ _ _ _ _ _ W). split; [exact W|].
    rewrite In'. exact It.
  - unfold mbind at 1. unfold lift at 1.
    rewrite (nth_error_pnth path j) by lia. cbn [defined].
    rewrite (A j) by lia.
    apply IH. split; [rewrite wt_length; exact L|]. split; [lia|]. split.
    + apply (anc_wt P I path (S j)); auto; lia.
    + rewrite wt_at by lia. apply cpend_parent_drop; [lia| |exact N0].
      split; [exact K|]. split; assumption.
  - pose proof (nchildren_nonneg (pnth path (S j))) as Nn.
    destruct (calcBBox_wf t c 1 ltac:(lia) c_warm 1 (H - Z.of_nat (S j)) (pnth path (S j)) K)
      as (n' & E & W & _ & _ & In' & _); try lia.
    unfold mbind at 1. rewrite E.
    apply IH. split; [rewrite wt_length; exact L|]. split; [lia|].
    assert (A' : anc P I (write_through path I (S j) n') (S j)).
    { apply (anc_wt P I path (S j)); auto; lia. }
    split; [apply (anc_le _ _ _ _ _ A'); lia|].
    rewrite (A' j) by lia. rewrite wt_at by lia.
    apply cpend_parent_set; [lia|exact W|]. rewrite In'. exact It.
Qed.
End CondenseProofs.

(** ** [remove] *)

Lemma wf_inner_defined d maxE lo : forall n m h, wf d maxE lo m h n -> inner_defined n.
Proof.
  induction n as [ch hh b | ch hh b IH] using node_induction; intros m h W.
  - constructor.
  - inversion W; subst. constructor.
    rewrite Forall_forall in *. intros x Hx. eapply IH; eauto.
Qed.

(** [remove] in a well-formed tree returns; the tree is as it was when the
    item is not found, and otherwise well formed with one item less, an
    item that is the object given. *)
Lemma remove_ok t c item H :
  warm (_dimension t) c ->
  wf (_dimension t) (_maxEntries t) 1 0 H (data t) ->
  exists k t',
    (forall fuel, (k <= fuel)%nat -> remove fuel (Some item) t c = Ok (t', c)) /\
    (t' = t \/
     exists x root',
       same_item x item = true /\ t' = set_data t root' /\
       wf (_dimension t) (_maxEntries t) 1 0 (height_of root') root' /\
       Permutation (x :: all_items root') (all_items (data t))).
Proof.
  intros Cw W.
  destruct (remove_loop_total t item (wf_inner_defined _ _ _ _ _ _ W))
    as (k & r & Er & [->|(r' & -> & F)]).
  - exists k, t. split; [|left; reflexivity]. intros fuel Hf.
    unfold remove, mbind, lift. rewrite (Er fuel Hf). reflexivity.
  - destruct F as (P & I & ch & h & b & index & x & Ch & P0 & Pl & Nx & Sx & ->).
    rewrite <- P0 in W.
    pose proof (chain_wf_path _ _ 1 H P I ltac:(lia) Ch W) as Wp.
    pose proof Ch as (Lc & _).
    destruct (condense_ok t c Cw P I H x Ch Wp (length I)
                (write_through P I (length I) (Leaf (remove_nth index ch) h b)))
      as (root' & Ec & Wr & It).
    { split; [rewrite wt_length; reflexivity|]. split; [lia|]. split.
      - apply (anc_wt P I P (length I)); [apply anc_self; exact Ch|lia|lia|lia].
      - rewrite wt_at by lia.
        pose proof (Wp (length I) ltac:(lia)) as Wl. rewrite Pl in Wl.
        pose proof (wf_kids _ _ _ _ _ _ Wl) as K. simpl in K. destruct K as (-> & Hh & V).
        pose proof (wf_count _ _ _ _ _ _ Wl) as Cn. simpl in Cn.
        split; [|split].
        + simpl. split; [reflexivity|]. split; [exact Hh|].
          apply Forall_remove_nth. exact V.
        + cbn [nchildren]. pose proof (length_remove_nth ch index). unfold len in *. lia.
        + rewrite Pl. simpl. apply remove_nth_perm. exact Nx. }
    exists k, (set_data t root'). split.
    + intros fuel Hf. unfold remove, mbind, lift. rewrite (Er fuel Hf).
      rewrite wt_length. rewrite Lc.
      rewrite Ec. reflexivity.
    + right. exists x, root'. split; [exact Sx|]. split; [reflexivity|].
      split; [exact Wr|]. rewrite <- P0. exact It.
Qed.

Lemma remove_cold t c item (fuel : nat) :
  data t = Leaf [] 1 None -> (2 <= fuel)%nat -> remove fuel (Some item) t c = Ok (t, c).
Proof.
  intros D Hf. destruct fuel as [|[|fuel]]; try lia.
  unfold remove, mbind, lift. rewrite D. reflexivity.
Qed.

(** ** More fuel changes no result of [remove] *)

Ltac case_head H :=
  match type of H with
  | rbind ?x _ = _ => destruct x eqn:?; cbn [rbind] in H |- *; try discriminate H
  | (match ?x with _ => _ end) = _ => destruct x eqn:?; try discriminate H
  end.

Lemma remove_loop_more t item : forall (fuel : nat) n path indexes i parent goingUp r,
  remove_loop t item fuel n path indexes i parent goingUp = Ok r ->
  remove_loop t item (S fuel) n path indexes i parent goingUp = Ok r.
Proof.
  induction fuel as [|fuel IH]; intros n path indexes i parent goingUp r H; [discriminate|].
  cbn [remove_loop] in H. remember (S fuel) as f1 eqn:Ef. cbn [remove_loop]. subst f1.
  repeat first [exact H | apply IH; exact H | case_head H].
Qed.

Lemma remove_more (fuel : nat) x t c r :
  remove fuel x t c = Ok r -> remove (S fuel) x t c = Ok r.
Proof.
  destruct x as [it|]; [|intros H; exact H].
  unfold remove. intros H. unfold mbind at 1 in H. unfold mbind at 1.
  unfold lift at 1 in H. unfold lift at 1.
  destruct (remove_loop t it fuel (Some (data t)) [] [] None None false) as [r0|e] eqn:E;
    [|discriminate].
  rewrite (remove_loop_more _ _ _ _ _ _ _ _ _ _ E). exact H.
Qed.


(** * Bulk loading *)

(** ** The sizes of the slices *)

Lemma cdiv_pos a b : 1 <= a -> 1 <= b -> 1 <= cdiv a b.
Proof. intros Ha Hb. pose proof (cdiv_bounds a b ltac:(lia)). nia. Qed.

Lemma cdiv_le_of_mul a b q : 0 < b -> a <= q * b -> cdiv a b <= q.
Proof. intros Hb H. pose proof (cdiv_bounds a b Hb). nia. Qed.

Lemma sqrt_up_one D : 1 <= D -> 1 <= Z.sqrt_up D.
Proof. intros H. pose proof (proj2 (Z.sqrt_up_pos D) ltac:(lia)). lia. Qed.

Lemma pow_step M h : 1 <= h -> M ^ h = M * M ^ (h - 1).
Proof.
  intros H. replace h with (Z.succ (h - 1)) at 1 by lia. apply Z.pow_succ_r. lia.
Qed.

Lemma pow_ge_one M h : 1 <= M -> 0 <= h -> 1 <= M ^ h.
Proof. intros HM Hh. pose proof (Z.pow_pos_nonneg M h ltac:(lia) Hh). lia. Qed.

Lemma pow_ge_base M h : 1 <= M -> 1 <= h -> M <= M ^ h.
Proof.
  intros HM Hh. rewrite pow_step by exact Hh.
  pose proof (pow_ge_one M (h - 1) HM ltac:(lia)). nia.
Qed.

Lemma good_leaf M N : good M 1 N -> 1 <= N <= M.
Proof. intros (_ & H & _). rewrite Z.pow_1_r in H. exact H. Qed.

Lemma good_inner M h N : 1 <= M -> good M h N -> 2 <= h -> M < N.
Proof.
  intros HM (_ & _ & H) Hh. specialize (H Hh).
  pose proof (pow_ge_base M (h - 1) HM ltac:(lia)). lia.
Qed.

(** Below a node that is not the root of the construction every slice is
    good for the height below. *)
Lemma good_child M h N s :
  2 <= M -> good M h N -> 2 <= h ->
  1 <= s -> N - (M - 1) * cdiv N M <= s -> s <= cdiv N M ->
  good M (h - 1) s.
Proof.
  intros HM (_ & (N1 & Nh) & Nl) Hh Hs Hlo Hhi. specialize (Nl Hh).
  pose proof (cdiv_bounds N M ltac:(lia)) as (Q1 & Q2).
  set (q := cdiv N M) in *.
  rewrite (pow_step M h) in Nh by lia.
  set (P := M ^ (h - 1)) in *.
  assert (HP : 1 <= P) by (apply pow_ge_one; lia).
  assert (Hq : q <= P) by nia.
  split; [lia|]. split; [lia|]. intros Hh'.
  unfold P in Nl. rewrite (pow_step M (h - 1)) in Nl by lia.
  replace (h - 1 - 1) with (h - 2) in * by lia.
  set (Q := M ^ (h - 2)) in *.
  assert (HQ : 1 <= Q) by (apply pow_ge_one; lia).
  assert (Hq2 : 2 * Q <= q) by nia.
  nia.
Qed.

(** At the root of the construction, of [D] children, as well. *)
Lemma good_child_top M h N :
  4 <= M -> M < N -> M ^ (h - 1) <= N <= M ^ h ->
  let D := cdiv N (M ^ (h - 1)) in
  2 <= h /\ 1 <= D <= M /\
  forall s, 1 <= s -> N - (D - 1) * cdiv N D <= s -> s <= cdiv N D -> good M (h - 1) s.
Proof.
  intros HM HN (Hl & Hu) D.
  assert (Hh : 2 <= h).
  { destruct (Z_lt_le_dec h 2) as [L|L]; [|exact L]. exfalso.
    destruct (Z_lt_le_dec h 0) as [L0|L0].
    - rewrite Z.pow_neg_r in Hu by lia. lia.
    - assert (h = 0 \/ h = 1) as [->| ->] by lia; simpl in Hu; lia. }
  rewrite (pow_step M h) in Hu by lia.
  set (P := M ^ (h - 1)) in *.
  assert (HP : M <= P) by (apply pow_ge_base; lia).
  pose proof (cdiv_bounds N P ltac:(lia)) as (D1 & D2). fold D in D1, D2.
  assert (HD : 1 <= D <= M) by nia.
  split; [exact Hh|]. split; [exact HD|].
  intros s Hs Hlo Hhi.
  pose proof (cdiv_bounds N D ltac:(lia)) as (Q1 & Q2).
  set (q := cdiv N D) in *.
  assert (Hq : q <= P) by nia.
  split; [lia|]. split; [lia|]. intros Hh'.
  unfold P in *. rewrite (pow_step M (h - 1)) in * by lia.
  replace (h - 1 - 1) with (h - 2) in * by lia.
  set (Q := M ^ (h - 2)) in *.
  assert (HQ : 1 <= Q) by (apply pow_ge_one; lia).
  destruct (Z.eq_dec D 1) as [E1|N1].
  - rewrite E1 in *. nia.
  - assert (Hq2 : 2 * Q <= q).
    { destruct (Z_lt_le_dec q (2 * Q)) as [L|L]; [|exact L]. exfalso.
      assert (q * D <= (2 * Q - 1) * D) by nia.
      assert ((D - 1) * (4 * Q) <= (D - 1) * (M * Q)) by nia.
      nia. }
    nia.
Qed.

(** ** Slices of the array *)

Lemma slice_app {A} (l : list A) a b c0 :
  0 <= a -> a <= b -> b <= c0 -> c0 <= len l ->
  slice l a c0 = slice l a b ++ slice l b c0.
Proof.
  intros Ha Hab Hbc Hc.
  remember (Z.to_nat (b - a)) as m eqn:Em. revert a Ha Hab Em.
  induction m as [|m IH]; intros a Ha Hab Em.
  - assert (a = b) by lia. subst a. rewrite (slice_nil l b b) by lia. reflexivity.
  - destruct (zget_in_range l a ltac:(lia)) as [x Hx].
    rewrite (slice_cons l a c0 x) by (auto; lia).
    rewrite (slice_cons l a b x) by (auto; lia).
    simpl. f_equal. apply IH; lia.
Qed.

Lemma slice_ext {A} (l l' : list A) a b :
  0 <= a -> b <= len l -> (forall i, a <= i < b -> zget l' i = zget l i) ->
  slice l' a b = slice l a b.
Proof.
  intros Ha Hb He.
  destruct (Z_le_gt_dec b a) as [L|L]; [rewrite !slice_nil by lia; reflexivity|].
  remember (Z.to_nat (b - a)) as m eqn:Em. revert a Ha L He Em.
  induction m as [|m IH]; intros a Ha L He Em; [lia|].
  destruct (zget_in_range l a ltac:(lia)) as [x Hx].
  rewrite (slice_cons l a b x) by (auto; lia).
  rewrite (slice_cons l' a b x); [|lia|lia|rewrite He by lia; exact Hx].
  f_equal. destruct (Z_le_gt_dec b (a + 1)) as [L1|L1].
  - rewrite !slice_nil by lia. reflexivity.
  - apply IH; try lia. intros i Hi. apply He. lia.
Qed.

Lemma permuted_within_before lo hi (a b : list Item) l0 p :
  permuted_within lo hi a b -> 0 <= l0 -> p <= lo -> p <= len a ->
  slice b l0 p = slice a l0 p.
Proof.
  intros (_ & _ & Hz) H0 Hp Hl. apply slice_ext; auto.
  intros i Hi. apply Hz. lia.
Qed.

Lemma permuted_within_valid d lo hi (a b : list Item) :
  permuted_within lo hi a b -> Forall (valid_item d) a -> Forall (valid_item d) b.
Proof.
  intros (_ & Hp & _) F. rewrite Forall_forall in *. intros x Hx.
  apply F. eapply Permutation_in; eauto.
Qed.

Lemma valid_has_key d axis (items : list Item) :
  (axis < d)%nat -> Forall (valid_item d) items -> Forall (has_key axis) items.
Proof.
  intros Ha F. eapply Forall_impl; [|exact F].
  intros it ((L & Fi) & _). unfold has_key, key.
  apply (Forall_rd finite); [exact Fi|lia].
Qed.

(** ** One round of the construction *)

Section BuildUnfold.
Variable narrow : Z -> Z -> Z -> Z * Z.
Variable log_ceil : Z -> Z -> Z.
Variable t : rbush_t.

Lemma build_S (fuel : nat) items left right height :
  _build narrow log_ceil t (S fuel) items left right height =
  let N := right - left + 1 in
  let Mx := _maxEntries t in
  if N <=? Mx then
    if left <? 0 then lift (Throw OutOfModel)
    else
      mbind (calcBBox (_dimension t) (Leaf (slice items left (right + 1)) 1 None))
        (fun n => ret (items, n))
  else
    let '(height, Mx) :=
      if height =? 0 then
        let height := log_ceil N Mx in
        (height, cdiv N (Mx ^ (height - 1)))
      else (height, Mx) in
    let N2 := cdiv N Mx in
    let N1 := N2 * Z.sqrt_up Mx in
    mbind (buildAxis narrow log_ceil t fuel items [] height O left right N1 N2)
      (fun p => let '(items, children) := p in
                mbind (calcBBox (_dimension t) (Inner children height None))
                  (fun n => ret (items, n))).
Proof. reflexivity. Qed.

Lemma buildAxis_S (fuel : nat) items children height axis left right N1 N2 :
  buildAxis narrow log_ceil t (S fuel) items children height axis left right N1 N2 =
  mbind (lift (multiSelect narrow axis fuel items left right N1))
    (fun items =>
       buildAxis_loop narrow log_ceil t fuel items children height axis left right N1 N2).
Proof. reflexivity. Qed.

Lemma buildAxis_loop_S (fuel : nat) items children height axis i right N1 N2 :
  buildAxis_loop narrow log_ceil t (S fuel) items children height axis i right N1 N2 =
  if i <=? right then
    mbind
      (if (axis + 1 <? _dimension t)%nat then
         buildAxis narrow log_ceil t fuel items children height (axis + 1) i
           (Z.min (i + N1 - 1) right) N2 N1
       else
         mbind (_build narrow log_ceil t fuel items i (Z.min (i + N1 - 1) right) (height - 1))
           (fun p => let '(items, n) := p in ret (items, children ++ [n])))
      (fun p => let '(items, children) := p in
                buildAxis_loop narrow log_ceil t fuel items children height axis
                  (i + N1) right N1 N2)
  else ret (items, children).
Proof. reflexivity. Qed.
End BuildUnfold.

(** ** The children of a node under construction *)

Section BuildChildren.
Variable narrow : Z -> Z -> Z -> Z * Z.
Variable log_ceil : Z -> Z -> Z.
Variable t : rbush_t.
Variable c : cache.
Variables h D left0 right0 N2 N1 : Z.
Hypothesis narrow_shrinks : narrow_ok narrow.
Hypothesis c_warm : warm (_dimension t) c.
Hypothesis dim2 : (2 <= _dimension t)%nat.
Hypothesis Hh : 2 <= h.
Hypothesis D_pos : 1 <= D.
Hypothesis left0_nn : 0 <= left0.
Hypothesis range0 : left0 <= right0.
Hypothesis N2_def : N2 = cdiv (right0 - left0 + 1) D.
Hypothesis N1_def : N1 = N2 * Z.sqrt_up D.
Hypothesis below : build_spec narrow log_ceil t c (h - 1).
Hypothesis sizes : forall s,
  1 <= s -> (right0 - left0 + 1) - (D - 1) * N2 <= s -> s <= N2 ->
  good (_maxEntries t) (h - 1) s.

Local Abbreviation d := (_dimension t).
Local Abbreviation maxE := (_maxEntries t).
Local Abbreviation grown := (acc (_dimension t) (_maxEntries t) h left0 right0 N2 D).
Local Abbreviation chunk := (chunk_ok left0 right0 N2).

Lemma N2_pos : 1 <= N2.
Proof. rewrite N2_def. apply cdiv_pos; lia. Qed.

Lemma N_le : right0 - left0 + 1 <= D * N2.
Proof.
  rewrite N2_def. pose proof (cdiv_bounds (right0 - left0 + 1) D ltac:(lia)). lia.
Qed.

Lemma N1_mult : exists S, 1 <= S /\ N1 = S * N2.
Proof.
  exists (Z.sqrt_up D). split; [apply sqrt_up_one; exact D_pos|]. rewrite N1_def. lia.
Qed.

Lemma N1_ge : N2 <= N1.
Proof. destruct N1_mult as (S & HS & ->). pose proof N2_pos. nia. Qed.

Lemma aligned_add x s : aligned left0 N2 x -> s = N1 \/ s = N2 -> aligned left0 N2 (x + s).
Proof.
  intros (k & Hk & ->) [-> | ->].
  - destruct N1_mult as (S & HS & ->). exists (k + S). split; lia.
  - exists (k + 1). split; lia.
Qed.

Lemma grown_start items : grown items [] left0.
Proof.
  split; [constructor|]. split; [unfold len; simpl; lia|].
  split; [left; unfold len; simpl; lia|].
  rewrite slice_nil by lia. reflexivity.
Qed.

Lemma grown_permuted lo hi items items' children pos :
  grown items children pos -> permuted_within lo hi items items' ->
  pos <= lo -> pos <= len items -> grown items' children pos.
Proof.
  intros (F & L & Ps & It) Pw Hp Hl.
  split; [exact F|]. split; [exact L|]. split; [exact Ps|].
  rewrite (permuted_within_before lo hi items items' left0 pos Pw); auto.
Qed.

(** One child built, at the last axis. *)
Lemma child_step items children i nr :
  chunk i nr -> nr - i + 1 <= N2 ->
  grown items children i -> Forall (valid_item d) items -> right0 < len items ->
  exists k items1 n,
    (forall fuel, (k <= fuel)%nat ->
       _build narrow log_ceil t fuel items i nr (h - 1) c = Ok ((items1, n), c)) /\
    permuted_within i nr items items1 /\
    grown items1 (children ++ [n]) (nr + 1).
Proof.
  intros (C1 & C2 & C3 & _ & Cend) Hs (F & Ln & Pos & It) V Hlen.
  pose proof N2_pos as HN2. pose proof N_le as HN.
  pose proof (len_nonneg children) as Lc.
  destruct Pos as [(Pi & Pr)|Pi]; [|lia].
  assert (Lt : len children < D) by nia.
  assert (Hsz : nr = right0 \/ (nr < right0 /\ nr + 1 = i + N2)).
  { destruct (Z.eq_dec nr right0) as [E|E]; [left; exact E|right].
    destruct Cend as [E'|(k' & Hk' & Ek')]; [contradiction|].
    split; [lia|]. assert (k' - len children = 1) by nia. nia. }
  destruct (below items i nr) as (k & items1 & n & E & Pw & W & Itn); auto; try lia.
  { apply sizes; [lia| |lia]. destruct Hsz as [->|(_ & Hsz)]; nia. }
  exists k, items1, n. split; [exact E|]. split; [exact Pw|].
  pose proof (permuted_within_len _ _ _ _ Pw) as Ll.
  split; [|split; [|split]].
  - apply Forall_app. split; [exact F|]. constructor; [exact W|constructor].
  - unfold len in *. rewrite length_app. simpl. lia.
  - destruct Hsz as [->|(Hlt & Hsz)]; [right; reflexivity|left].
    unfold len in *. rewrite length_app. simpl. split; [|lia]. rewrite Hsz, Pi. lia.
  - rewrite flat_map_app. simpl. rewrite app_nil_r.
    rewrite (slice_app items1 left0 i (nr + 1)) by lia.
    rewrite (permuted_within_before i nr items items1 left0 i Pw) by lia.
    apply Permutation_app; [exact It|].
    rewrite Itn. symmetry. apply (permuted_within_slice i nr items items1 Pw); lia.
Qed.
Lemma steps_facts axis s1 s2 size :
  steps_ok N1 N2 axis s1 s2 size ->
  (s1 = N1 \/ s1 = N2) /\ (s2 = N1 \/ s2 = N2) /\ 1 <= s1.
Proof.
  pose proof N2_pos. pose proof N1_ge.
  intros [(_ & -> & ->)|(_ & [(-> & ->)|(-> & -> & _)])]; repeat split; auto; lia.
Qed.

(** [buildAxis] at every axis: it pushes the children for its range. *)
Lemma buildAxis_ok : forall (rem axis : nat),
  (axis + rem = _dimension t)%nat -> (1 <= rem)%nat ->
  forall items children l r s1 s2,
    chunk l r -> steps_ok N1 N2 axis s1 s2 (r - l + 1) ->
    grown items children l -> Forall (valid_item d) items -> right0 < len items ->
    exists k items' children',
      (forall fuel, (k <= fuel)%nat ->
         buildAxis narrow log_ceil t fuel items children h axis l r s1 s2 c
         = Ok ((items', children'), c)) /\
      permuted_within l r items items' /\
      grown items' children' (r + 1).
Proof.
  induction rem as [|rem IHrem]; intros axis Ha Hr items children l r s1 s2 Ck St G V Hlen;
    [lia|].
  pose proof N2_pos as HN2. pose proof N1_ge as HN1.
  destruct (steps_facts _ _ _ _ St) as (S1 & S2 & S1p).
  pose proof Ck as (C1 & C2 & C3 & Al & Cend).
  destruct (multiSelect_returns narrow axis narrow_shrinks items l r s1)
    as (items0 & Em & Pw0); try lia.
  { apply (valid_has_key d); [lia|exact V]. }
  pose proof (permuted_within_len _ _ _ _ Pw0) as L0.
  pose proof (grown_permuted l r items items0 children l G Pw0 ltac:(lia) ltac:(lia)) as G0.
  pose proof (permuted_within_valid d _ _ _ _ Pw0 V) as V0.
  assert (Loop : forall (m : nat) i its chs,
             (Z.to_nat (r - i + 1) <= m)%nat -> l <= i ->
             (i <= r -> aligned left0 N2 i /\ grown its chs i) ->
             (r < i -> grown its chs (r + 1)) ->
             Forall (valid_item d) its -> right0 < len its ->
             exists k its' chs',
               (forall fuel, (k <= fuel)%nat ->
                  buildAxis_loop narrow log_ceil t fuel its chs h axis i r s1 s2 c
                  = Ok ((its', chs'), c)) /\
               permuted_within l r its its' /\
               grown its' chs' (r + 1)).
  { assert (Done : forall i its chs,
               r < i -> grown its chs (r + 1) ->
               exists k its' chs',
                 (forall fuel, (k <= fuel)%nat ->
                    buildAxis_loop narrow log_ceil t fuel its chs h axis i r s1 s2 c
                    = Ok ((its', chs'), c)) /\
                 permuted_within l r its its' /\
                 grown its' chs' (r + 1)).
    { intros i its chs Gt Gr. exists 1%nat, its, chs.
      split; [|split; [apply permuted_within_refl|exact Gr]].
      intros fuel Hf. destruct fuel as [|fuel]; [lia|]. rewrite buildAxis_loop_S.
      destruct (Z.leb_spec i r); [lia|]. reflexivity. }
    induction m as [|m IHm]; intros i its chs Hm Hi Hin Hout Vi Li;
      (destruct (Z_le_gt_dec i r) as [Le|Gt]; [|apply Done; [lia|apply Hout; lia]]);
      [lia|].
    - destruct (Hin Le) as (Ai & Gi).
      set (nr := Z.min (i + s1 - 1) r).
      assert (Cnr : chunk i nr).
      { unfold nr. split; [lia|]. split; [lia|]. split; [lia|]. split; [exact Ai|].
        destruct (Z_le_gt_dec r (i + s1 - 1)) as [L1|L1].
        - rewrite Z.min_r by lia. exact Cend.
        - rewrite Z.min_l by lia. right.
          replace (i + s1 - 1 + 1) with (i + s1) by lia. apply aligned_add; assumption. }
      assert (Inner : exists k1 its1 chs1,
                 (forall fuel, (k1 <= fuel)%nat ->
                    (if (axis + 1 <? _dimension t)%nat
                     then buildAxis narrow log_ceil t fuel its chs h (axis + 1) i nr s2 s1
                     else mbind (_build narrow log_ceil t fuel its i nr (h - 1))
                            (fun p => let '(items, n) := p in ret (items, chs ++ [n]))) c
                    = Ok ((its1, chs1), c)) /\
                 permuted_within i nr its its1 /\ grown its1 chs1 (nr + 1)).
      { destruct (Nat.ltb_spec (axis + 1) (_dimension t)) as [Lt|Ge].
        - rewrite Nat.add_1_r.
          apply (IHrem (S axis)); auto; try lia.
          unfold nr. right. split; [lia|].
          destruct St as [(_ & -> & ->)|(_ & [(-> & ->)|(-> & -> & Sz)])].
          + left. auto.
          + right. split; [reflexivity|]. split; [reflexivity|]. lia.
          + left. auto.
        - destruct (child_step its chs i nr Cnr) as (k1 & its1 & n & E1 & Pw1 & G1); auto.
          { unfold nr. destruct St as [(A0 & _)|(_ & [(-> & ->)|(-> & -> & Sz)])]; lia. }
          exists k1, its1, (chs ++ [n]). split; [|split; assumption].
          intros fuel Hf. unfold mbind. rewrite (E1 fuel Hf). reflexivity. }
      destruct Inner as (k1 & its1 & chs1 & E1 & Pw1 & G1).
      pose proof (permuted_within_len _ _ _ _ Pw1) as L1.
      destruct (IHm (i + s1) its1 chs1) as (k2 & its' & chs' & E2 & Pw2 & G2); try lia.
      + intros Le'. split; [apply aligned_add; assumption|].
        replace (i + s1) with (nr + 1) by (unfold nr; lia). exact G1.
      + intros Gt'. replace (r + 1) with (nr + 1) by (unfold nr; lia). exact G1.
      + exact (permuted_within_valid d _ _ _ _ Pw1 Vi).
      + exists (S (Nat.max k1 k2)), its', chs'. split; [|split; [|exact G2]].
        * intros fuel Hf. destruct fuel as [|fuel]; [lia|]. rewrite buildAxis_loop_S.
          destruct (Z.leb_spec i r); [|lia]. unfold nr in E1.
          unfold mbind at 1. rewrite (E1 fuel ltac:(lia)).
          apply E2. lia.
        * eapply permuted_within_trans; [|exact Pw2].
          apply (permuted_within_weaken i nr); [exact Pw1|lia|unfold nr; lia]. }
  destruct (Loop (Z.to_nat (r - l + 1)) l items0 children (le_n _) ltac:(lia))
    as (k2 & items' & children' & E2 & Pw2 & G2); auto; try lia.
  exists (S (Nat.max (3 * Z.to_nat (r - l) + 6) k2)), items', children'.
  split; [|split; [|exact G2]].
  - intros fuel Hf. destruct fuel as [|fuel]; [lia|]. rewrite buildAxis_S.
    unfold mbind at 1. unfold lift at 1. rewrite (Em fuel ltac:(lia)).
    apply E2. lia.
  - eapply permuted_within_trans; eauto.
Qed.
(** The node whose children [buildAxis] has pushed, once [calcBBox] has
    set its [bbox]. *)
Lemma build_node items :
  D <= maxE -> Forall (valid_item d) items -> right0 < len items ->
  exists k items' n,
    (forall fuel, (k <= fuel)%nat ->
       mbind (buildAxis narrow log_ceil t fuel items [] h O left0 right0 N1 N2)
         (fun p => let '(items, children) := p in
                   mbind (calcBBox d (Inner children h None))
                     (fun n => ret (items, n))) c
       = Ok ((items', n), c)) /\
    permuted_within left0 right0 items items' /\
    wf d maxE 1 1 h n /\
    Permutation (all_items n) (slice items left0 (right0 + 1)).
Proof.
  intros HD V Hlen. pose proof N2_pos as HN2.
  destruct (buildAxis_ok (_dimension t) O eq_refl ltac:(lia) items [] left0 right0 N1 N2)
    as (k & items' & children & E & Pw & (F & Ln & _ & It)); auto.
  - split; [lia|]. split; [lia|]. split; [lia|]. split; [exists 0; lia|left; reflexivity].
  - left. auto.
  - apply grown_start.
  - pose proof (permuted_within_len _ _ _ _ Pw) as Ll.
    assert (Hne : 1 <= len children).
    { destruct children as [|x l]; [|unfold len; simpl; lia]. simpl in It.
      apply Permutation_nil in It.
      pose proof (slice_length items' left0 (right0 + 1) ltac:(lia) ltac:(lia) ltac:(lia)) as Sl.
      rewrite It in Sl. unfold len in Sl. simpl in Sl. lia. }
    destruct (calcBBox_wf t c 1 ltac:(lia) c_warm 1 h (Inner children h None))
      as (n & En & W & _ & _ & In' & _).
    { simpl. split; [reflexivity|]. split; [exact Hh|exact F]. }
    { exact Hne. }
    { cbn [nchildren]. lia. }
    exists k, items', n. split; [|split; [exact Pw|split; [exact W|]]].
    + intros fuel Hf. unfold mbind at 1. rewrite (E fuel Hf).
      unfold mbind. rewrite En. reflexivity.
    + rewrite In'. simpl. rewrite It.
      apply (permuted_within_slice left0 right0 items items' Pw); lia.
Qed.
End BuildChildren.

(** ** [_build] *)

Section BuildProofs.
Variable narrow : Z -> Z -> Z -> Z * Z.
Variable log_ceil : Z -> Z -> Z.
Variable t : rbush_t.
Variable c : cache.
Hypothesis narrow_shrinks : narrow_ok narrow.
Hypothesis height_exact : log_ceil_ok log_ceil.
Hypothesis c_warm : warm (_dimension t) c.
Hypothesis dim2 : (2 <= _dimension t)%nat.
Hypothesis max4 : 4 <= _maxEntries t.

Local Abbreviation d := (_dimension t).
Local Abbreviation maxE := (_maxEntries t).

(** A range of at most [maxEntries] items becomes a leaf. *)
Lemma build_leaf_ok items left right height :
  1 <= right - left + 1 <= maxE -> 0 <= left -> right < len items ->
  Forall (valid_item d) items ->
  exists n,
    (forall fuel, (1 <= fuel)%nat ->
       _build narrow log_ceil t fuel items left right height c = Ok ((items, n), c)) /\
    wf d maxE 1 1 1 n /\
    Permutation (all_items n) (slice items left (right + 1)).
Proof.
  intros HN Hl Hr V.
  destruct (calcBBox_wf t c 1 ltac:(lia) c_warm 1 1 (Leaf (slice items left (right + 1)) 1 None))
    as (n & En & W & _ & _ & In' & _).
  { simpl. split; [reflexivity|]. split; [reflexivity|]. apply Forall_slice. exact V. }
  { cbn [nchildren]. rewrite slice_length by lia. lia. }
  { cbn [nchildren]. rewrite slice_length by lia. lia. }
  exists n. split; [|split; [exact W|rewrite In'; reflexivity]].
  intros fuel Hf. destruct fuel as [|fuel]; [lia|]. rewrite build_S. cbv zeta.
  destruct (Z.leb_spec (right - left + 1) maxE); [|lia].
  destruct (Z.ltb_spec left 0); [lia|].
  unfold mbind. rewrite En. reflexivity.
Qed.

Lemma build_spec_leaf : build_spec narrow log_ceil t c 1.
Proof.
  intros items left right G Hl Hr V. apply good_leaf in G.
  destruct (build_leaf_ok items left right 1 G Hl Hr V) as (n & E & W & It).
  exists 1%nat, items, n. split; [exact E|]. split; [apply permuted_within_refl|].
  split; assumption.
Qed.

Lemma build_spec_step h :
  2 <= h -> build_spec narrow log_ceil t c (h - 1) -> build_spec narrow log_ceil t c h.
Proof.
  intros Hh Below items left right G Hl Hr V.
  assert (HM1 : 1 <= maxE) by lia.
  pose proof (good_inner maxE h _ HM1 G Hh) as HN.
  destruct (build_node narrow log_ceil t c h maxE left right
              (cdiv (right - left + 1) maxE)
              (cdiv (right - left + 1) maxE * Z.sqrt_up maxE)
              narrow_shrinks c_warm dim2 Hh ltac:(lia) Hl ltac:(lia) eq_refl eq_refl Below)
    with (items := items) as (k & items' & n & E & Pw & W & It); auto; try lia.
  { intros s S1 S2 S3. apply (good_child maxE h (right - left + 1)); auto; lia. }
  exists (S k), items', n. split; [|split; [exact Pw|split; assumption]].
  intros fuel Hf. destruct fuel as [|fuel]; [lia|]. rewrite build_S. cbv zeta.
  destruct (Z.leb_spec (right - left + 1) maxE); [lia|].
  destruct (Z.eqb_spec h 0); [lia|].
  apply E. lia.
Qed.

Lemma build_spec_all h : 1 <= h -> build_spec narrow log_ceil t c h.
Proof.
  intros Hh. replace h with (Z.of_nat (Z.to_nat (h - 1)) + 1) by lia.
  induction (Z.to_nat (h - 1)) as [|k IH].
  - apply build_spec_leaf.
  - apply build_spec_step; [lia|].
    replace (Z.of_nat (S k) + 1 - 1) with (Z.of_nat k + 1) by lia. exact IH.
Qed.

(** [_build] on a whole array, with no height given: a well-formed tree
    that holds the items of the array. *)
Lemma build_top_ok items :
  1 <= len items -> Forall (valid_item d) items ->
  exists k items' n H,
    (forall fuel, (k <= fuel)%nat ->
       _build narrow log_ceil t fuel items 0 (len items - 1) 0 c = Ok ((items', n), c)) /\
    wf d maxE 1 1 H n /\
    Permutation (all_items n) items.
Proof.
  intros HN V.
  destruct (Z_le_gt_dec (len items) maxE) as [Le|Gt].
  - destruct (build_leaf_ok items 0 (len items - 1) 0) as (n & E & W & It); auto; try lia.
    exists 1%nat, items, n, 1. split; [exact E|]. split; [exact W|].
    replace (len items - 1 + 1) with (len items) in It by lia.
    rewrite slice_all in It. exact It.
  - pose proof (height_exact (len items) maxE ltac:(lia) ltac:(lia)) as Hx.
    set (h := log_ceil (len items) maxE) in *.
    destruct (good_child_top maxE h (len items) max4 ltac:(lia) Hx) as (Hh & HD & Sz).
    set (D := cdiv (len items) (maxE ^ (h - 1))) in *.
    destruct (build_node narrow log_ceil t c h D 0 (len items - 1)
                (cdiv (len items - 1 - 0 + 1) D)
                (cdiv (len items - 1 - 0 + 1) D * Z.sqrt_up D)
                narrow_shrinks c_warm dim2 Hh ltac:(lia) ltac:(lia) ltac:(lia) eq_refl eq_refl
                (build_spec_all (h - 1) ltac:(lia)))
      with (items := items) as (k & items' & n & E & Pw & W & It); auto; try lia.
    { intros s S1 S2 S3.
      replace (len items - 1 - 0 + 1) with (len items) in * by lia.
      apply Sz; assumption. }
    exists (S k), items', n, h. split; [|split; [exact W|]].
    + intros fuel Hf. destruct fuel as [|fuel]; [lia|]. rewrite build_S. cbv zeta.
      replace (len items - 1 - 0 + 1) with (len items) in * by lia.
      destruct (Z.leb_spec (len items) maxE); [lia|].
      cbn [Z.eqb]. fold h. fold D. apply E. lia.
    + replace (len items - 1 + 1) with (len items) in It by lia.
      rewrite slice_all in It. exact It.
Qed.
End BuildProofs.

(** ** The height over the reals *)

Lemma ceil_log_loop_spec : forall (fuel : nat) N M p h,
  2 <= M -> 0 <= h -> p = M ^ h -> (1 <= h -> M ^ (h - 1) < N) ->
  N <= M ^ (h + Z.of_nat fuel) ->
  let r := ceil_log_loop fuel N M p h in
  N <= M ^ r /\ (1 <= r -> M ^ (r - 1) < N).
Proof.
  induction fuel as [|fuel IH]; intros N M p h HM Hh Hp Hlo Hup; cbn [ceil_log_loop].
  - replace (h + Z.of_nat 0) with h in Hup by lia. cbv zeta. split; assumption.
  - destruct (Z.leb_spec N p) as [Le|Gt].
    + cbv zeta. subst p. split; assumption.
    + apply IH; try lia.
      * subst p. rewrite (pow_step M (h + 1)) by lia.
        replace (h + 1 - 1) with h by lia. lia.
      * intros _. replace (h + 1 - 1) with h by lia. subst p. exact Gt.
      * replace (h + 1 + Z.of_nat fuel) with (h + Z.of_nat (S fuel)) by lia. exact Hup.
Qed.

(** The height read over the reals is one the construction can use. *)
Lemma ceil_log_ok : log_ceil_ok ceil_log.
Proof.
  intros N M HM HN. unfold ceil_log.
  destruct (ceil_log_loop_spec (Z.to_nat N) N M 1 0 HM ltac:(lia) eq_refl ltac:(lia))
    as (Hu & Hl).
  { pose proof (Z.pow_gt_lin_r M N ltac:(lia) ltac:(lia)).
    replace (0 + Z.of_nat (Z.to_nat N)) with N by lia. lia. }
  split; [|exact Hu].
  destruct (Z_lt_le_dec (ceil_log_loop (Z.to_nat N) N M 1 0) 1) as [L|L].
  - destruct (Z_lt_le_dec (ceil_log_loop (Z.to_nat N) N M 1 0 - 1) 0) as [L0|L0].
    + rewrite Z.pow_neg_r by lia. lia.
    + lia.
  - specialize (Hl L). lia.
Qed.

(** ** More fuel changes no result of [_build] *)

Section BuildFuel.
Variable narrow : Z -> Z -> Z -> Z * Z.
Variable log_ceil : Z -> Z -> Z.
Variable t : rbush_t.


End BuildFuel.


(** * [insert] and [load] *)

Lemma cfg_facts t :
  cfg_ok t ->
  (2 <= _dimension t)%nat /\ 4 <= _maxEntries t /\ 2 <= _minEntries t /\
  2 * _minEntries t <= _maxEntries t + 1.
Proof.
  intros (Hd & Hm & He). split; [exact Hd|]. split; [exact Hm|].
  rewrite He.
  pose proof (Z.div_mod (2 * _maxEntries t + 4) 5 ltac:(lia)) as Dm.
  pose proof (Z.mod_pos_bound (2 * _maxEntries t + 4) 5 ltac:(lia)) as Mb.
  split; [lia|]. lia.
Qed.

Lemma wf_strengthen d maxE lo m m' h n :
  wf d maxE lo m h n -> m' <= nchildren n -> wf d maxE lo m' h n.
Proof.
  intros W Hm. inversion W; subst; simpl in Hm; constructor; auto.
Qed.

(** ** [insert] *)

(** [insert] of a valid item in a well-formed tree returns a well-formed
    tree with the item added. *)
Lemma insert_ok t c lo it :
  cfg_ok t -> 1 <= lo -> lo <= _minEntries t -> warm (_dimension t) c ->
  wf (_dimension t) (_maxEntries t) lo 0 (height_of (data t)) (data t) ->
  valid_item (_dimension t) it ->
  exists root',
    (forall fuel, (Z.to_nat (height_of (data t)) + 1 <= fuel)%nat ->
       insert fuel (Some it) t c = Ok (set_data t root', c)) /\
    wf (_dimension t) (_maxEntries t) lo 0 (height_of root') root' /\
    Permutation (all_items root') (it :: all_items (data t)).
Proof.
  intros Cf H1 H2 Cw W V. destruct (cfg_facts t Cf) as (Hd & Hm & He & Hme).
  destruct (insert_entry_returns t c lo (EItem it) (height_of (data t) - 1)
              (height_of (data t)) H1 H2 Hme ltac:(lia) Cw W)
    as (root' & E & Wr & It).
  { simpl. split; [exact V|reflexivity]. }
  exists root'. split; [|split; [|exact It]].
  - intros fuel Hf. unfold insert, mbind. rewrite (E fuel Hf). reflexivity.
  - destruct Wr as [Wr|Wr]; rewrite (wf_height _ _ _ _ _ _ Wr); exact Wr.
Qed.

(** In the first tree built for a dimension, whose root has no [bbox],
    [insert] raises an error. *)
Lemma insert_cold t c it (fuel : nat) :
  data t = Leaf [] 1 None -> exists e, insert fuel (Some it) t c = Throw e.
Proof.
  intros D. unfold insert, _insert, mbind, lift. rewrite D.
  destruct fuel as [|fuel]; simpl; eauto.
Qed.

(** The loop of [load] for a short array. *)
Lemma inserts_ok c lo : forall xs t,
  cfg_ok t -> 1 <= lo -> lo <= _minEntries t -> warm (_dimension t) c ->
  wf (_dimension t) (_maxEntries t) lo 0 (height_of (data t)) (data t) ->
  Forall (valid_item (_dimension t)) xs ->
  exists k root',
    (forall fuel, (k <= fuel)%nat ->
       mfoldM (fun t item => insert fuel (Some item) t) xs t c = Ok (set_data t root', c)) /\
    wf (_dimension t) (_maxEntries t) lo 0 (height_of root') root' /\
    Permutation (all_items root') (xs ++ all_items (data t)).
Proof.
  induction xs as [|x xs IH]; intros t Cf H1 H2 Cw W V.
  - exists 0%nat, (data t). split; [|split; [exact W|reflexivity]].
    intros fuel _. destruct t; reflexivity.
  - inversion V as [|x0 l0 Vx Vxs]; subst.
    destruct (insert_ok t c lo x Cf H1 H2 Cw W Vx) as (r1 & E1 & W1 & I1).
    destruct (IH (set_data t r1)) as (k2 & r2 & E2 & W2 & I2); auto.
    exists (Nat.max (Z.to_nat (height_of (data t)) + 1) k2), r2.
    split; [|split; [exact W2|]].
    + intros fuel Hf. cbn [mfoldM]. unfold mbind. rewrite (E1 fuel ltac:(lia)).
      rewrite (E2 fuel ltac:(lia)). reflexivity.
    + rewrite I2. simpl. rewrite I1. symmetry. apply Permutation_middle.
Qed.

Lemma inserts_cold c x xs t (fuel : nat) :
  data t = Leaf [] 1 None ->
  exists e, mfoldM (fun t item => insert fuel (Some item) t) (x :: xs) t c = Throw e.
Proof.
  intros D. destruct (insert_cold t c x fuel D) as (e & E).
  exists e. cbn [mfoldM]. unfold mbind. rewrite E. reflexivity.
Qed.

(** ** [load] *)

Section LoadProofs.
Variable narrow : Z -> Z -> Z -> Z * Z.
Variable log_ceil : Z -> Z -> Z.
Hypothesis narrow_shrinks : narrow_ok narrow.
Hypothesis height_exact : log_ceil_ok log_ceil.

(** [load] of an array that is not short: the tree built is the new tree,
    or is merged with the tree there is. *)
Lemma load_big_ok t c xs :
  cfg_ok t -> warm (_dimension t) c ->
  (data t = Leaf [] 1 None \/
   wf (_dimension t) (_maxEntries t) 1 0 (height_of (data t)) (data t)) ->
  _minEntries t <= len xs -> Forall (valid_item (_dimension t)) xs ->
  exists k root',
    (forall fuel, (k <= fuel)%nat ->
       load narrow log_ceil fuel xs t c = Ok (set_data t root', c)) /\
    wf (_dimension t) (_maxEntries t) 1 0 (height_of root') root' /\
    Permutation (all_items root') (xs ++ all_items (data t)).
Proof.
  intros Cf Cw Hroot Hlen V. destruct (cfg_facts t Cf) as (Hd & Hm & He & Hme).
  destruct (build_top_ok narrow log_ceil t c narrow_shrinks height_exact Cw Hd Hm xs
              ltac:(lia) V) as (kb & items' & n & Hn & Eb & Wn & Itn).
  pose proof (wf_height _ _ _ _ _ _ Wn) as Hhn.
  pose proof (wf_height_pos _ _ _ _ _ _ Wn) as Hnp.
  assert (A1 : 1 <= _minEntries t) by lia.
  assert (A2 : 2 <= _maxEntries t) by lia.
  assert (Wn0 : wf (_dimension t) (_maxEntries t) 1 0 Hn n).
  { apply (wf_weaken _ _ _ 1 0 _ _ Wn). lia. }
  assert (Unf : forall fuel, (kb <= fuel)%nat ->
            load narrow log_ceil fuel xs t c =
            mbind (if nchildren (data t) =? 0 then ret n
                   else if height_of (data t) =? height_of n then _splitRoot t (data t) n
                   else
                     let '(big, small) :=
                       if height_of (data t) <? height_of n then (n, data t) else (data t, n) in
                     _insert (set_data t big) fuel (ENode small)
                       (height_of big - height_of small - 1))
              (fun d0 => ret (set_data t d0)) c).
  { intros fuel Hf. unfold load.
    destruct (Z.eqb_spec (len xs) 0); [lia|].
    destruct (Z.ltb_spec (len xs) (_minEntries t)); [lia|].
    unfold load_data. unfold mbind at 1. unfold mbind at 1.
    rewrite (Eb fuel Hf). reflexivity. }
  destruct (Z.eqb_spec (nchildren (data t)) 0) as [E0|E0].
  - exists kb, n. split; [|split].
    + intros fuel Hf. rewrite (Unf fuel Hf). reflexivity.
    + rewrite Hhn. exact Wn0.
    + rewrite (no_children_no_items _ E0), app_nil_r. exact Itn.
  - destruct Hroot as [Hc|W]; [rewrite Hc in E0; unfold nchildren, len in E0; simpl in E0; lia|].
    pose proof (nchildren_nonneg (data t)) as Nn.
    pose proof (wf_strengthen _ _ _ _ 1 _ _ W ltac:(lia)) as W1.
    pose proof (wf_height_pos _ _ _ _ _ _ W) as Hp.
    destruct (Z.eqb_spec (height_of (data t)) (height_of n)) as [Eh|Eh].
    + destruct (calcBBox_wf t c 1 ltac:(lia) Cw 0 (height_of (data t) + 1)
                  (Inner [data t; n] (height_of (data t) + 1) None))
        as (r & Er & Wr & _ & _ & Ir & _).
      { simpl. split; [reflexivity|]. split; [lia|].
        replace (height_of (data t) + 1 - 1) with (height_of (data t)) by lia.
        constructor; [exact W1|constructor; [|constructor]].
        rewrite Eh, Hhn. exact Wn. }
      { unfold nchildren, len. simpl. lia. }
      { unfold nchildren, len. simpl. lia. }
      exists kb, r. split; [|split].
      * intros fuel Hf. rewrite (Unf fuel Hf). unfold mbind, _splitRoot. rewrite Er.
        reflexivity.
      * rewrite (wf_height _ _ _ _ _ _ Wr). exact Wr.
      * rewrite Ir. simpl. rewrite app_nil_r. rewrite Itn. apply Permutation_app_comm.
    + destruct (Z.ltb_spec (height_of (data t)) (height_of n)) as [Lt|Ge].
      * destruct (insert_entry_returns (set_data t n) c 1 (ENode (data t))
                    (height_of n - height_of (data t) - 1) Hn
                    ltac:(lia) A1 Hme A2 Cw Wn0)
          as (r & Er & Wr & Ir).
        { unfold entry_ok. split; [|lia].
          replace (Hn - (height_of n - height_of (data t) - 1) - 1)
            with (height_of (data t)) by lia.
          exact W1. }
        exists (Nat.max kb (Z.to_nat Hn + 1)), r. split; [|split].
        -- intros fuel Hf. rewrite (Unf fuel ltac:(lia)). unfold mbind.
           rewrite (Er fuel ltac:(lia)). reflexivity.
        -- destruct Wr as [Wr|Wr]; rewrite (wf_height _ _ _ _ _ _ Wr); exact Wr.
        -- rewrite Ir. simpl. rewrite Itn. apply Permutation_app_comm.
      * destruct (insert_entry_returns t c 1 (ENode n)
                    (height_of (data t) - height_of n - 1) (height_of (data t))
                    ltac:(lia) A1 Hme A2 Cw W)
          as (r & Er & Wr & Ir).
        { unfold entry_ok. split; [|lia].
          replace (height_of (data t) - (height_of (data t) - height_of n - 1) - 1)
            with Hn by lia.
          exact Wn. }
        exists (Nat.max kb (Z.to_nat (height_of (data t)) + 1)), r. split; [|split].
        -- intros fuel Hf. rewrite (Unf fuel ltac:(lia)). unfold mbind.
           replace (set_data t (data t)) with t by (destruct t; reflexivity).
           rewrite (Er fuel ltac:(lia)). reflexivity.
        -- destruct Wr as [Wr|Wr]; rewrite (wf_height _ _ _ _ _ _ Wr); exact Wr.
        -- rewrite Ir. simpl. rewrite Itn. reflexivity.
Qed.

(** [load] of valid items in a well-formed tree returns a well-formed tree
    with the items added. *)
Lemma load_ok t c xs :
  cfg_ok t -> warm (_dimension t) c ->
  wf (_dimension t) (_maxEntries t) 1 0 (height_of (data t)) (data t) ->
  Forall (valid_item (_dimension t)) xs ->
  exists k root',
    (forall fuel, (k <= fuel)%nat ->
       load narrow log_ceil fuel xs t c = Ok (set_data t root', c)) /\
    wf (_dimension t) (_maxEntries t) 1 0 (height_of root') root' /\
    Permutation (all_items root') (xs ++ all_items (data t)).
Proof.
  intros Cf Cw W V. destruct (cfg_facts t Cf) as (Hd & Hm & He & Hme).
  destruct (Z.eq_dec (len xs) 0) as [E0|E0].
  - exists 0%nat, (data t). split; [|split; [exact W|]].
    + intros fuel _. unfold load. rewrite E0. simpl. destruct t; reflexivity.
    + destruct xs; [reflexivity|unfold len in E0; simpl in E0; lia].
  - destruct (Z_lt_le_dec (len xs) (_minEntries t)) as [Lt|Ge].
    + destruct (inserts_ok c 1 xs t Cf ltac:(lia) ltac:(lia) Cw W V) as (k & r & E & Wr & Ir).
      exists k, r. split; [|split; assumption].
      intros fuel Hf. unfold load.
      destruct (Z.eqb_spec (len xs) 0); [lia|].
      destruct (Z.ltb_spec (len xs) (_minEntries t)); [|lia].
      apply E. exact Hf.
    + apply load_big_ok; auto.
Qed.

(** In the first tree built for a dimension [load] of a short array raises
    an error, as [insert] does. *)
Lemma load_cold_short t c xs (fuel : nat) :
  data t = Leaf [] 1 None -> 0 < len xs < _minEntries t ->
  exists e, load narrow log_ceil fuel xs t c = Throw e.
Proof.
  intros D Hl. unfold load.
  destruct (Z.eqb_spec (len xs) 0); [lia|].
  destruct (Z.ltb_spec (len xs) (_minEntries t)); [|lia].
  destruct xs as [|x xs]; [unfold len in Hl; simpl in Hl; lia|].
  apply inserts_cold. exact D.
Qed.
End LoadProofs.

(** ** More fuel changes no result of [insert] and [load] *)





(** * Queries *)

(** ** Boxes inside boxes *)

Lemma lt_le_trans x y z : lt x y = true -> le y z = true -> lt x z = true.
Proof.
  unfold le. destruct x, y, z; simpl; try congruence; rewrite ?orb_false_r;
    rewrite ?Z.ltb_lt, ?orb_true_iff, ?Z.ltb_lt, ?Z.eqb_eq; intros; lia.
Qed.

Lemma le_lt_trans x y z : le x y = true -> lt y z = true -> lt x z = true.
Proof.
  unfold le. destruct x, y, z; simpl; try congruence; rewrite ?orb_false_r;
    rewrite ?Z.ltb_lt, ?orb_true_iff, ?Z.ltb_lt, ?Z.eqb_eq; intros; lia.
Qed.

Lemma le_trans x y z : le x y = true -> le y z = true -> le x z = true.
Proof.
  unfold le. destruct x, y, z; simpl; try congruence; rewrite ?orb_false_r;
    rewrite ?orb_true_iff, ?Z.ltb_lt, ?Z.eqb_eq; intros; lia.
Qed.

Lemma le_refl x : not_nan x -> le x x = true.
Proof.
  unfold le, not_nan. destruct x; simpl; try congruence; intros _.
  rewrite Z.eqb_refl. apply orb_true_r.
Qed.

Ltac num_order :=
  simpl;
  repeat match goal with
         | |- context [Z.ltb ?a ?b] => destruct (Z.ltb_spec a b)
         | |- context [Z.eqb ?a ?b] => destruct (Z.eqb_spec a b)
         end;
  simpl; try (split; reflexivity); try reflexivity; try lia.

Lemma js_min_le a b :
  not_nan a -> not_nan b -> le (js_min a b) a = true /\ le (js_min a b) b = true.
Proof.
  unfold le, js_min, not_nan. intros Ha Hb.
  destruct a as [| |x|], b as [| |y|]; try congruence; num_order.
Qed.

Lemma js_max_ge a b :
  not_nan a -> not_nan b -> le a (js_max a b) = true /\ le b (js_max a b) = true.
Proof.
  unfold le, js_max, not_nan. intros Ha Hb.
  destruct a as [| |x|], b as [| |y|]; try congruence; num_order.
Qed.

Lemma inside_refl d a : clean d a -> inside d a a.
Proof.
  intros C i Hi. split; apply le_refl; apply (clean_rd d); auto; lia.
Qed.

Lemma inside_trans d a b c0 : inside d a b -> inside d b c0 -> inside d a c0.
Proof.
  intros H1 H2 i Hi. destruct (H1 i Hi) as (A1 & A2). destruct (H2 i Hi) as (B1 & B2).
  split; eapply le_trans; eauto.
Qed.

Lemma extend_inside d a b :
  clean d a -> clean d b -> inside d a (extend d a b) /\ inside d b (extend d a b).
Proof.
  intros Ca Cb. destruct (extend_spec d a b (proj1 Ca)) as (_ & Hmin & Hmax).
  split; intros i Hi; rewrite (Hmin i Hi), (Hmax (d + i)%nat ltac:(lia)).
  - split; [apply js_min_le|apply js_max_ge]; apply (clean_rd d); auto; lia.
  - split; [apply js_min_le|apply js_max_ge]; apply (clean_rd d); auto; lia.
Qed.

Lemma union_member_inside d l b :
  Forall (clean d) l -> In b l -> inside d b (union d l).
Proof.
  induction l as [|x l IH]; intros F Hin; [destruct Hin|].
  inversion F as [|x0 l0 Cx Fl]; subst.
  rewrite union_cons by assumption.
  pose proof (union_clean d l Fl) as Cu.
  destruct (extend_inside d x (union d l) Cx Cu) as (I1 & I2).
  destruct Hin as [->|Hin]; [exact I1|].
  eapply inside_trans; [apply IH; assumption|exact I2].
Qed.

Section ItemsInside.
Variable d : nat.
Variables maxE lo : Z.
Hypothesis lo_pos : 1 <= lo.

(** The box of every item under a node of a well-formed tree lies inside
    the [bbox] of the node. *)
Lemma wf_items_inside : forall n m h,
  wf d maxE lo m h n ->
  forall it, In it (all_items n) -> inside d (toBBox it) (node_box n).
Proof.
  induction n as [ch hh b | ch hh b IH] using node_induction; intros m h W it Hin.
  - pose proof (kids_boxes_clean _ _ _ lo_pos _ _ (wf_kids _ _ _ _ _ _ W)) as Cl.
    unfold node_box. rewrite (wf_bbox _ _ _ _ _ _ W). simpl in *.
    apply union_member_inside; [exact Cl|]. apply in_map. exact Hin.
  - pose proof (kids_boxes_clean _ _ _ lo_pos _ _ (wf_kids _ _ _ _ _ _ W)) as Cl.
    pose proof (wf_kids _ _ _ _ _ _ W) as K. simpl in K. destruct K as (_ & _ & V).
    unfold node_box at 1. rewrite (wf_bbox _ _ _ _ _ _ W). simpl in *.
    apply in_flat_map in Hin. destruct Hin as (c0 & Hc & Hit).
    rewrite Forall_forall in IH, V.
    eapply inside_trans; [apply (IH c0 Hc lo (h - 1) (V c0 Hc) it Hit)|].
    apply union_member_inside; [exact Cl|]. apply in_map. exact Hc.
Qed.

Lemma wf_items_valid : forall n m h,
  wf d maxE lo m h n -> Forall (valid_item d) (all_items n).
Proof.
  induction n as [ch hh b | ch hh b IH] using node_induction; intros m h W.
  - pose proof (wf_kids _ _ _ _ _ _ W) as K. simpl in K. tauto.
  - pose proof (wf_kids _ _ _ _ _ _ W) as K. simpl in K. destruct K as (_ & _ & V).
    simpl. rewrite Forall_forall in *. intros it Hin.
    apply in_flat_map in Hin. destruct Hin as (c0 & Hc & Hit).
    pose proof (IH c0 Hc lo (h - 1) (V c0 Hc)) as F.
    rewrite Forall_forall in F. exact (F it Hit).
Qed.
End ItemsInside.

(** ** What a query box meets *)

Lemma intersects_iff d a b :
  intersects d a b = true <->
  forall i, (i < d)%nat -> lt (rd a (d + i)) (rd b i) = false /\ lt (rd b (d + i)) (rd a i) = false.
Proof.
  unfold intersects, axes. rewrite forallb_forall. split.
  - intros H i Hi. specialize (H i ltac:(apply in_seq; lia)).
    apply negb_true_iff in H. apply orb_false_iff in H. exact H.
  - intros H i Hi. apply in_seq in Hi. destruct (H i ltac:(lia)) as (A & B).
    cbv zeta. rewrite A, B. reflexivity.
Qed.

Lemma contains_iff d a b :
  contains d a b = true <->
  forall i, (i < d)%nat -> gt (rd a i) (rd b i) = false /\ gt (rd b (d + i)) (rd a (d + i)) = false.
Proof.
  unfold contains, axes. rewrite forallb_forall. split.
  - intros H i Hi. specialize (H i ltac:(apply in_seq; lia)).
    apply negb_true_iff in H. apply orb_false_iff in H. exact H.
  - intros H i Hi. apply in_seq in Hi. destruct (H i ltac:(lia)) as (A & B).
    cbv zeta. rewrite A, B. reflexivity.
Qed.

(** What meets a box meets every box around it. *)
Lemma intersects_mono d q a b :
  inside d a b -> intersects d q a = true -> intersects d q b = true.
Proof.
  rewrite !intersects_iff. intros Hin H i Hi.
  destruct (H i Hi) as (A & B). destruct (Hin i Hi) as (I1 & I2). split.
  - destruct (lt (rd q (d + i)) (rd b i)) eqn:E; [|reflexivity].
    rewrite (lt_le_trans _ _ _ E I1) in A. discriminate.
  - destruct (lt (rd b (d + i)) (rd q i)) eqn:E; [|reflexivity].
    rewrite (le_lt_trans _ _ _ I2 E) in B. discriminate.
Qed.

(** A box that contains a box meets every valid box inside it. *)
Lemma contains_hit d q a b :
  inside d a b ->
  (forall i, (i < d)%nat -> le (rd a i) (rd a (d + i)) = true) ->
  contains d q b = true -> intersects d q a = true.
Proof.
  rewrite contains_iff, intersects_iff. intros Hin Hv H i Hi.
  destruct (H i Hi) as (A & B). destruct (Hin i Hi) as (I1 & I2).
  specialize (Hv i Hi). unfold gt in *. split.
  - destruct (lt (rd q (d + i)) (rd a i)) eqn:E; [|reflexivity].
    rewrite (lt_le_trans _ _ _ (lt_le_trans _ _ _ E Hv) I2) in B. discriminate.
  - destruct (lt (rd a (d + i)) (rd q i)) eqn:E; [|reflexivity].
    rewrite (le_lt_trans _ _ _ I1 (le_lt_trans _ _ _ Hv E)) in A. discriminate.
Qed.

Lemma valid_hits_itself d it : valid_item d it -> hit d (toBBox it) it = true.
Proof.
  intros (F & V). unfold hit. apply (contains_hit d _ _ (toBBox it)).
  - apply inside_refl. apply fbox_clean. exact F.
  - exact V.
  - apply contains_iff. intros i Hi. unfold gt.
    pose proof (fbox_rd d _ i F ltac:(lia)) as (x & Ex).
    pose proof (fbox_rd d _ (d + i)%nat F ltac:(lia)) as (y & Ey).
    unfold toBBox in *. rewrite Ex, Ey. simpl. rewrite !Z.ltb_irrefl. auto.
Qed.

(** ** The traversals *)

Lemma ssize_app a b : ssize (a ++ b) = (ssize a + ssize b)%nat.
Proof. unfold ssize. rewrite map_app, list_sum_app. reflexivity. Qed.

Lemma ssize_rev l : ssize (rev l) = ssize l.
Proof.
  induction l as [|x l IH]; [reflexivity|]. simpl rev. rewrite ssize_app, IH.
  unfold ssize. simpl. lia.
Qed.

Lemma nsize_pos n : (1 <= nsize n)%nat.
Proof. destruct n; simpl; lia. Qed.

Lemma flat_map_rev_perm {A B} (f : A -> list B) l :
  Permutation (flat_map f (rev l)) (flat_map f l).
Proof. apply Permutation_flat_map. symmetry. apply Permutation_rev. Qed.

(** [_all] and its loop collect the items of the subtrees of the stack. *)
Lemma all_stack : forall (m : nat) st res,
  (ssize st <= m)%nat ->
  exists k r,
    (forall fuel, (k <= fuel)%nat -> all_loop fuel (hd_error st) (tl st) res = Ok r) /\
    Permutation r (res ++ flat_map all_items st).
Proof.
  induction m as [|m IH]; intros st res Hm.
  - destruct st as [|n st]; [|pose proof (nsize_pos n); unfold ssize in Hm; simpl in Hm; lia].
    exists 0%nat, res. split; [|rewrite app_nil_r; reflexivity].
    intros fuel _. destruct fuel; reflexivity.
  - destruct st as [|n st].
    + exists 0%nat, res. split; [|rewrite app_nil_r; reflexivity].
      intros fuel _. destruct fuel; reflexivity.
    + unfold ssize in Hm. simpl in Hm. fold (ssize st) in Hm.
      destruct n as [ch h b | ch h b]; simpl in Hm.
      * destruct (IH st (res ++ ch) ltac:(unfold ssize in *; lia)) as (k & r & E & Pr).
        exists (S k), r. split.
        -- intros fuel Hf. destruct fuel as [|fuel]; [lia|]. simpl. apply E. lia.
        -- rewrite Pr. simpl. rewrite <- app_assoc. reflexivity.
      * destruct (IH (rev ch ++ st) res) as (k & r & E & Pr).
        { rewrite ssize_app, ssize_rev. unfold ssize in *. lia. }
        exists (S k), r. split.
        -- intros fuel Hf. destruct fuel as [|fuel]; [lia|]. simpl. apply E. lia.
        -- rewrite Pr. simpl. rewrite flat_map_app.
           rewrite (flat_map_rev_perm all_items ch). rewrite app_assoc. reflexivity.
Qed.

Section SearchProofs.
Variable d : nat.
Variables maxE lo : Z.
Hypothesis lo_pos : 1 <= lo.
Variable q : box.

Local Abbreviation good_node := (is_wf d maxE lo).

Lemma good_children ch h b :
  good_node (Inner ch h b) -> Forall good_node ch.
Proof.
  intros (m & h0 & W). pose proof (wf_kids _ _ _ _ _ _ W) as K. simpl in K.
  destruct K as (_ & _ & V). eapply Forall_impl; [|exact V].
  intros c0 Wc. exists lo, (h0 - 1). exact Wc.
Qed.

Lemma no_hit n :
  good_node n -> intersects d q (node_box n) = false ->
  filter (hit d q) (all_items n) = [].
Proof.
  intros (m & h & W) Hn.
  assert (F : Forall (fun it => hit d q it = false) (all_items n)).
  { rewrite Forall_forall. intros it Hin. unfold hit.
    destruct (intersects d q (toBBox it)) eqn:E; [|reflexivity].
    rewrite (intersects_mono d q _ _ (wf_items_inside d maxE lo lo_pos n m h W it Hin) E) in Hn.
    discriminate. }
  induction (all_items n) as [|x l IHl]; [reflexivity|].
  inversion F as [|x0 l0 Hx Hl]; subst. simpl. rewrite Hx. apply IHl. exact Hl.
Qed.

Lemma all_hit n :
  good_node n -> contains d q (node_box n) = true ->
  filter (hit d q) (all_items n) = all_items n.
Proof.
  intros (m & h & W) Hn.
  assert (F : Forall (fun it => hit d q it = true) (all_items n)).
  { pose proof (wf_items_valid d maxE lo n m h W) as V.
    rewrite Forall_forall in *. intros it Hin. unfold hit.
    apply (contains_hit d q _ (node_box n)).
    - exact (wf_items_inside d maxE lo lo_pos n m h W it Hin).
    - exact (proj2 (V it Hin)).
    - exact Hn. }
  induction (all_items n) as [|x l IHl]; [reflexivity|].
  inversion F as [|x0 l0 Hx Hl]; subst. simpl. rewrite Hx. f_equal. apply IHl. exact Hl.
Qed.

(** The loop of [search] over the children of a node: the children that
    meet the box without lying in it are pushed, the items of those that
    lie in it collected. *)
Lemma search_fold : forall ch st res,
  Forall good_node ch ->
  exists k pushed res',
    (forall fuel, (k <= fuel)%nat ->
       foldM (search_child d q fuel) ch (st, res) = Ok (pushed ++ st, res')) /\
    Forall good_node pushed /\ (ssize pushed <= ssize ch)%nat /\
    Permutation (res' ++ filter (hit d q) (flat_map all_items pushed))
      (res ++ filter (hit d q) (flat_map all_items ch)).
Proof.
  induction ch as [|c0 ch IH]; intros st res F.
  - exists 0%nat, [], res. split; [reflexivity|]. split; [constructor|].
    split; [lia|reflexivity].
  - inversion F as [|x0 l0 Gc Fc]; subst.
    pose proof Gc as (m & h & W).
    pose proof (wf_bbox _ _ _ _ _ _ W) as Bb.
    assert (Nb : node_box c0 = union d (child_boxes c0)).
    { unfold node_box. rewrite Bb. reflexivity. }
    destruct (intersects d q (node_box c0)) eqn:Ei.
    + destruct (contains d q (node_box c0)) eqn:Ec.
      * destruct (all_stack (ssize [c0]) [c0] res (le_n _)) as (k1 & r1 & E1 & P1).
        destruct (IH st r1 Fc) as (k2 & pushed & res' & E2 & Fp & Sp & P2).
        exists (Nat.max k1 k2), pushed, res'. split; [|split; [exact Fp|split]].
        -- intros fuel Hf. cbn [foldM]. unfold search_child at 1.
           rewrite Bb. unfold intersects_js, contains_js. cbn [defined rbind].
           rewrite <- Nb, Ei, Ec. unfold _all.
           change (all_loop fuel (Some c0) [] res)
             with (all_loop fuel (hd_error [c0]) (tl [c0]) res).
           rewrite (E1 fuel ltac:(lia)). cbn [rbind]. apply E2. lia.
        -- unfold ssize in *. simpl. lia.
        -- rewrite P2. simpl flat_map. rewrite filter_app.
           rewrite (all_hit c0 Gc Ec). rewrite P1. simpl. rewrite app_nil_r.
           rewrite app_assoc. reflexivity.
      * destruct (IH (c0 :: st) res Fc) as (k2 & pushed & res' & E2 & Fp & Sp & P2).
        exists k2, (pushed ++ [c0]), res'. split; [|split; [|split]].
        -- intros fuel Hf. cbn [foldM]. unfold search_child at 1.
           rewrite Bb. unfold intersects_js, contains_js. cbn [defined rbind].
           rewrite <- Nb, Ei, Ec. cbn [rbind]. rewrite <- app_assoc. apply E2. exact Hf.
        -- apply Forall_app. split; [exact Fp|]. constructor; [exact Gc|constructor].
        -- rewrite ssize_app. unfold ssize in *. simpl. lia.
        -- rewrite flat_map_app, filter_app. simpl flat_map. rewrite app_nil_r.
           rewrite app_assoc. rewrite P2. rewrite filter_app.
           rewrite <- !app_assoc. apply Permutation_app_head. apply Permutation_app_comm.
    + destruct (IH st res Fc) as (k2 & pushed & res' & E2 & Fp & Sp & P2).
      exists k2, pushed, res'. split; [|split; [exact Fp|split]].
      * intros fuel Hf. cbn [foldM]. unfold search_child at 1.
        rewrite Bb. unfold intersects_js. cbn [defined rbind].
        rewrite <- Nb, Ei. cbn [rbind]. apply E2. exact Hf.
      * unfold ssize in *. simpl. lia.
      * rewrite P2. simpl flat_map. rewrite filter_app.
        rewrite (no_hit c0 Gc Ei). reflexivity.
Qed.

(** The loop of [search]: it collects the items of the subtrees of the
    stack that meet the box. *)
Lemma search_stack : forall (m : nat) st res,
  (ssize st <= m)%nat -> Forall good_node st ->
  exists k r,
    (forall fuel, (k <= fuel)%nat -> search_loop d q fuel (hd_error st) (tl st) res = Ok r) /\
    Permutation r (res ++ filter (hit d q) (flat_map all_items st)).
Proof.
  induction m as [|m IH]; intros st res Hm F.
  - destruct st as [|n st]; [|pose proof (nsize_pos n); unfold ssize in Hm; simpl in Hm; lia].
    exists 0%nat, res. split; [|rewrite app_nil_r; reflexivity].
    intros fuel _. destruct fuel; reflexivity.
  - destruct st as [|n st].
    + exists 0%nat, res. split; [|rewrite app_nil_r; reflexivity].
      intros fuel _. destruct fuel; reflexivity.
    + inversion F as [|x0 l0 Gn Fs]; subst.
      unfold ssize in Hm. simpl in Hm. fold (ssize st) in Hm.
      destruct n as [ch h b | ch h b]; simpl in Hm.
      * destruct (IH st (res ++ filter (hit d q) ch) ltac:(unfold ssize in *; lia) Fs)
          as (k & r & E & Pr).
        exists (S k), r. split.
        -- intros fuel Hf. destruct fuel as [|fuel]; [lia|]. simpl. apply E. lia.
        -- rewrite Pr. simpl. rewrite filter_app, <- app_assoc. reflexivity.
      * destruct (search_fold ch st res (good_children _ _ _ Gn))
          as (k1 & pushed & res1 & E1 & Fp & Sp & P1).
        destruct (IH (pushed ++ st) res1) as (k2 & r & E2 & Pr).
        { rewrite ssize_app. unfold ssize in *. lia. }
        { apply Forall_app. split; assumption. }
        exists (S (Nat.max k1 k2)), r. split.
        -- intros fuel Hf. destruct fuel as [|fuel]; [lia|]. cbn [search_loop hd_error tl].
           rewrite (E1 fuel ltac:(lia)). cbn [rbind]. apply E2. lia.
        -- rewrite Pr. rewrite flat_map_app, filter_app. rewrite app_assoc, P1.
           simpl flat_map. rewrite filter_app, <- app_assoc. reflexivity.
Qed.
End SearchProofs.

(** [search] in a well-formed tree returns the items whose boxes meet the
    box given, in some order. *)
Lemma search_ok t q m h :
  wf (_dimension t) (_maxEntries t) 1 m h (data t) ->
  exists k r,
    (forall fuel, (k <= fuel)%nat -> search fuel t q = Ok r) /\
    Permutation r (filter (hit (_dimension t) q) (all_items (data t))).
Proof.
  intros W.
  assert (G : is_wf (_dimension t) (_maxEntries t) 1 (data t)) by (exists m, h; exact W).
  pose proof (wf_bbox _ _ _ _ _ _ W) as Bb.
  assert (Nb : node_box (data t) = union (_dimension t) (child_boxes (data t))).
  { unfold node_box. rewrite Bb. reflexivity. }
  destruct (intersects (_dimension t) q (node_box (data t))) eqn:Ei.
  - destruct (search_stack (_dimension t) (_maxEntries t) 1 ltac:(lia) q
                (ssize [data t]) [data t] [] (le_n _)) as (k & r & E & Pr).
    { constructor; [exact G|constructor]. }
    exists k, r. split.
    + intros fuel Hf. unfold search. rewrite Bb. unfold intersects_js. cbn [defined rbind].
      rewrite <- Nb, Ei. cbn [negb]. apply (E fuel Hf).
    + rewrite Pr. simpl. rewrite app_nil_r. reflexivity.
  - exists 0%nat, []. split.
    + intros fuel _. unfold search. rewrite Bb. unfold intersects_js. cbn [defined rbind].
      rewrite <- Nb, Ei. reflexivity.
    + rewrite (no_hit (_dimension t) (_maxEntries t) 1 ltac:(lia) q (data t) G Ei).
      reflexivity.
Qed.


(** * The states of a tree *)

(** ** Calls that return *)

Lemma returns_det {A} (f : nat -> M A) c r (k : nat) r' :
  returns f c r -> (forall fuel, (k <= fuel)%nat -> f fuel c = Ok r') -> r = r'.
Proof.
  intros (N & HN) Hk.
  pose proof (HN (Nat.max N k) ltac:(lia)) as E1.
  pose proof (Hk (Nat.max N k) ltac:(lia)) as E2.
  congruence.
Qed.

Lemma returns_throw {A} (f : nat -> M A) c r :
  returns f c r -> (forall fuel, exists e, f fuel c = Throw e) -> False.
Proof.
  intros (N & HN) Ht. destruct (Ht N) as (e & E). rewrite (HN N (le_n _)) in E. discriminate.
Qed.

Lemma returns_of_bound {A} (f : nat -> M A) c r (k : nat) :
  (forall fuel, (k <= fuel)%nat -> f fuel c = Ok r) -> returns f c r.
Proof. intros H. exists k. exact H. Qed.

(** ** The constructor and [clear] *)

Lemma wf_empty_root d maxE lo :
  0 <= maxE -> wf d maxE lo 0 1 (Leaf [] 1 (Some (empty_box d))).
Proof.
  intros H. apply wf_leaf; try (unfold len; simpl; lia); [constructor|].
  simpl. rewrite union_nil. reflexivity.
Qed.

Lemma wf_tree_set lo t root' :
  cfg_ok t ->
  wf (_dimension t) (_maxEntries t) lo 0 (height_of root') root' ->
  wf_tree lo (set_data t root').
Proof. intros Cf W. split; [exact Cf|]. right. exact W. Qed.

Lemma clear_state lo t c t' c' :
  cfg_ok t -> warm (_dimension t) c -> clear t c = Ok (t', c') ->
  wf_tree lo t' /\ warm (_dimension t') c' /\
  t' = set_data t (Leaf [] 1 (Some (empty_box (_dimension t)))) /\ c' = c.
Proof.
  intros Cf Cw E. rewrite (clear_warm t c Cw) in E. inversion E; subst.
  split; [|split; [exact Cw|split; reflexivity]].
  apply wf_tree_set; [exact Cf|]. simpl. apply wf_empty_root.
  destruct Cf as (_ & Hm & _). lia.
Qed.

Lemma rbush_state lo maxEntries dimension c0 t c :
  cache_ok c0 -> rbush maxEntries dimension c0 = Ok (t, c) ->
  wf_tree lo t /\ warm (_dimension t) c /\ cache_ok c.
Proof.
  intros Ck E. unfold rbush, clear, mbind, empty_m, ret in E.
  set (dz := match dimension with
             | Some d => if (d =? 0) || (d <? 2) then 2 else d
             | None => 2
             end) in *.
  set (mx := Z.max 4 match maxEntries with
                     | Some m => if m =? 0 then 9 else m
                     | None => 9
                     end) in *.
  cbn [_dimension] in E.
  destruct (empty_cache_ok (Z.to_nat dz) c0 Ck) as (Ck' & Cw & Hv).
  destruct (empty (Z.to_nat dz) c0) as [e c1] eqn:Ee. simpl in Ck', Cw, Hv.
  inversion E; subst. clear E.
  assert (Cf : cfg_ok (set_data (mkRbush (Z.to_nat dz) mx (Z.max 2 ((2 * mx + 4) / 5))
                                   (Leaf [] 1 None)) (Leaf [] 1 e))).
  { split; [|split; [|reflexivity]]; simpl.
    - unfold dz. destruct dimension as [z|]; [|lia].
      destruct (Z.eqb_spec z 0); simpl; [lia|].
      destruct (Z.ltb_spec z 2); simpl; lia.
    - unfold mx. lia. }
  split; [|split; [exact Cw|exact Ck']].
  split; [exact Cf|]. simpl.
  destruct Hv as [-> | ->]; [left; reflexivity|right].
  apply wf_empty_root. unfold mx. lia.
Qed.

(** ** The invariant *)

Lemma insert_state lo t c x t' c' :
  1 <= lo -> lo <= _minEntries t ->
  wf_tree lo t -> warm (_dimension t) c ->
  (forall it, x = Some it -> valid_item (_dimension t) it) ->
  returns (fun fuel => insert fuel x t) c (t', c') ->
  wf_tree lo t' /\ c' = c /\ _dimension t' = _dimension t /\
  _minEntries t' = _minEntries t /\ _maxEntries t' = _maxEntries t.
Proof.
  intros H1 H2 (Cf & Hroot) Cw V R.
  destruct x as [it|].
  - destruct Hroot as [Hc|W].
    + exfalso. apply (returns_throw _ _ _ R). intros fuel.
      apply insert_cold. exact Hc.
    + destruct (insert_ok t c lo it Cf H1 H2 Cw W (V it eq_refl)) as (r & E & Wr & _).
      pose proof (returns_det _ _ _ _ _ R E) as Eq. inversion Eq; subst.
      split; [apply wf_tree_set; assumption|]. repeat split; reflexivity.
  - assert (E : forall fuel, (0 <= fuel)%nat -> insert fuel None t c = Ok (t, c))
      by reflexivity.
    pose proof (returns_det _ _ _ _ _ R E) as Eq. inversion Eq; subst.
    split; [split; assumption|]. repeat split; reflexivity.
Qed.

Lemma remove_state t c x t' c' :
  wf_tree 1 t -> warm (_dimension t) c ->
  returns (fun fuel => remove fuel x t) c (t', c') ->
  wf_tree 1 t' /\ c' = c /\ _dimension t' = _dimension t.
Proof.
  intros (Cf & Hroot) Cw R.
  destruct x as [it|].
  - destruct Hroot as [Hc|W].
    + pose proof (returns_det _ _ _ 2%nat _ R
                    (fun fuel Hf => remove_cold t c it fuel Hc Hf)) as Eq.
      inversion Eq; subst. split; [split; [exact Cf|left; exact Hc]|]. split; reflexivity.
    + destruct (remove_ok t c it _ Cw W) as (k & t1 & E & Ht).
      pose proof (returns_det _ _ _ _ _ R E) as Eq. inversion Eq; subst.
      destruct Ht as [-> | (x & r & _ & -> & Wr & _)].
      * split; [split; [exact Cf|right; exact W]|]. split; reflexivity.
      * split; [apply wf_tree_set; assumption|]. split; reflexivity.
  - assert (E : forall fuel, (0 <= fuel)%nat -> remove fuel None t c = Ok (t, c))
      by reflexivity.
    pose proof (returns_det _ _ _ _ _ R E) as Eq. inversion Eq; subst.
    split; [split; assumption|]. split; reflexivity.
Qed.

Section Reach.
Variable narrow : Z -> Z -> Z -> Z * Z.
Variable log_ceil : Z -> Z -> Z.
Hypothesis narrow_shrinks : narrow_ok narrow.
Hypothesis height_exact : log_ceil_ok log_ceil.

Lemma load_state t c xs t' c' :
  wf_tree 1 t -> warm (_dimension t) c ->
  Forall (valid_item (_dimension t)) xs ->
  returns (fun fuel => load narrow log_ceil fuel xs t) c (t', c') ->
  wf_tree 1 t' /\ c' = c /\ _dimension t' = _dimension t.
Proof.
  intros (Cf & Hroot) Cw V R.
  destruct Hroot as [Hc|W].
  - destruct (Z.eq_dec (len xs) 0) as [E0|E0].
    + assert (E : forall fuel, (0 <= fuel)%nat ->
                           load narrow log_ceil fuel xs t c = Ok (t, c)).
      { intros fuel _. unfold load. rewrite E0. reflexivity. }
      pose proof (returns_det _ _ _ _ _ R E) as Eq. inversion Eq; subst.
      split; [split; [exact Cf|left; exact Hc]|]. split; reflexivity.
    + destruct (Z_lt_le_dec (len xs) (_minEntries t)) as [Lt|Ge].
      * exfalso. apply (returns_throw _ _ _ R). intros fuel.
        apply load_cold_short; [exact Hc|]. pose proof (len_nonneg xs). lia.
      * destruct (load_big_ok narrow log_ceil narrow_shrinks height_exact t c xs Cf Cw
                    (or_introl Hc) Ge V) as (k & r & E & Wr & _).
        pose proof (returns_det _ _ _ _ _ R E) as Eq. inversion Eq; subst.
        split; [apply wf_tree_set; assumption|]. split; reflexivity.
  - destruct (load_ok narrow log_ceil narrow_shrinks height_exact t c xs Cf Cw W V)
      as (k & r & E & Wr & _).
    pose proof (returns_det _ _ _ _ _ R E) as Eq. inversion Eq; subst.
    split; [apply wf_tree_set; assumption|]. split; reflexivity.
Qed.

(** Every state of a tree is well formed, with at least one child in every
    node below the root, and the cache holds the empty box of the tree's
    dimension. *)
Lemma reachable_wf t c :
  reachable narrow log_ceil t c -> wf_tree 1 t /\ warm (_dimension t) c.
Proof.
  induction 1 as [mx dz c0 t c Ck E | t c t' c' R IH E | t c x t' c' R IH V Rt
                  | t c xs t' c' R IH V Rt | t c x t' c' R IH Rt].
  - destruct (rbush_state 1 mx dz c0 t c Ck E) as (W & Cw & _). split; assumption.
  - destruct IH as ((Cf & _) & Cw).
    destruct (clear_state 1 t c t' c' Cf Cw E) as (W & Cw' & _). split; assumption.
  - destruct IH as (W & Cw). pose proof W as (Cf & _).
    destruct (cfg_facts t Cf) as (_ & _ & He & _).
    destruct (insert_state 1 t c x t' c' ltac:(lia) ltac:(lia) W Cw V Rt)
      as (W' & -> & Ed & _).
    split; [exact W'|]. rewrite Ed. exact Cw.
  - destruct IH as (W & Cw).
    destruct (load_state t c xs t' c' W Cw V Rt) as (W' & -> & Ed).
    split; [exact W'|]. rewrite Ed. exact Cw.
  - destruct IH as (W & Cw).
    destruct (remove_state t c x t' c' W Cw Rt) as (W' & -> & Ed).
    split; [exact W'|]. rewrite Ed. exact Cw.
Qed.
End Reach.


(** ** What a well-formed tree has *)






(** ** States reached by evaluation *)

Lemma returns_eval {A} (f : nat -> M A) c r (N : nat) :
  (forall fuel r', f fuel c = Ok r' -> f (S fuel) c = Ok r') ->
  f N c = Ok r -> returns f c r.
Proof.
  intros Hm E. exists N. intros fuel Hf. induction Hf as [|k Hk IH]; [exact E|].
  apply Hm. exact IH.
Qed.



Lemma remove_returns_eval (N : nat) x t c r :
  remove N x t c = Ok r -> returns (fun fuel => remove fuel x t) c r.
Proof.
  intros E. apply (returns_eval (fun fuel => remove fuel x t) c r N); [|exact E].
  intros fuel r'. apply remove_more.
Qed.


(** * States reached by evaluation *)

Lemma cache_ok_nil : cache_ok [].
Proof. intros d e H. destruct d; discriminate. Qed.

Lemma point_valid id x y : valid_item 2 (point id x y).
Proof.
  split.
  - split; [reflexivity|]. repeat constructor; eexists; reflexivity.
  - intros i Hi. destruct i as [|[|i]]; try lia; unfold le; simpl;
      rewrite Z.eqb_refl; apply orb_true_r.
Qed.

Lemma points_valid (f : nat -> Item) l :
  (forall k, valid_item 2 (f k)) -> Forall (valid_item 2) (map f l).
Proof. intros H. apply Forall_map. apply Forall_forall. intros k _. apply H. Qed.

Lemma thirteen_valid : Forall (valid_item 2) thirteen_points.
Proof. apply points_valid. intros k. apply point_valid. Qed.


Section Examples.
Variable narrow : Z -> Z -> Z -> Z * Z.
Variable log_ceil : Z -> Z -> Z.

(** The first tree of a program, and the tree after [clear]. *)
Lemma reach_first_tree : reachable narrow log_ceil first_tree warm2.
Proof. apply (reach_new _ _ (Some 4) None []); [exact cache_ok_nil|reflexivity]. Qed.

Lemma reach_tree4 : reachable narrow log_ceil tree4 warm2.
Proof. apply (reach_clear _ _ first_tree warm2); [exact reach_first_tree|reflexivity]. Qed.



Lemma reach_remove_eval t c x t' c' (N : nat) :
  reachable narrow log_ceil t c ->
  remove N x t c = Ok (t', c') ->
  reachable narrow log_ceil t' c'.
Proof.
  intros R E. apply (reach_remove _ _ t c x); [exact R|].
  apply (remove_returns_eval N). exact E.
Qed.
End Examples.



(** ** Reachable states with a root that has a [bbox] *)



(** ** Two trees that hold items *)





Lemma grown_is_reachable narrow log_ceil t c :
  grown_by_insert t c -> reachable narrow log_ceil t c.
Proof.
  induction 1 as [mx dz c0 t c Ck E | t c t' c' R IH E | t c x t' c' R IH V Rt].
  - eapply reach_new; eauto.
  - eapply reach_clear; eauto.
  - eapply reach_insert; eauto.
Qed.


(** * The claims *)

(** C1 (the code departs from it): the root of the first tree a program
    builds has no [bbox], and [insert] of any item into that tree raises
    [TypeError] where it extends the [bbox]; no [search] can follow. *)
Theorem insert_into_first_tree_raises :
  exists t c,
    rbush None None [] = Ok (t, c) /\
    forall it (fuel : nat), insert (S fuel) (Some it) t c = Throw TypeError.
Proof.
  eexists _, _. split; [reflexivity|]. intros it fuel. reflexivity.
Qed.

(** C2 (the code departs from it): [load] of a single item into the first
    tree a program builds goes through [insert], and raises [TypeError] as
    [insert] does. *)
Theorem load_one_item_into_first_tree_raises :
  exists t c,
    rbush None None [] = Ok (t, c) /\
    forall narrow log_ceil it (fuel : nat),
      load narrow log_ceil (S fuel) [it] t c = Throw TypeError.
Proof.
  eexists _, _. split; [reflexivity|]. intros narrow log_ceil it fuel. reflexivity.
Qed.

(** C3 (the code departs from it): the constructor leaves the first tree
    built for a dimension with a root whose [bbox] is [undefined], not the
    union of the boxes of its (no) children. *)
Theorem first_tree_root_has_no_bbox (narrow : Z -> Z -> Z -> Z * Z) (log_ceil : Z -> Z -> Z) :
  exists t c,
    reachable narrow log_ceil t c /\
    data t = Leaf [] 1 None /\
    ~ exact_boxes (_dimension t) (data t).
Proof.
  exists first_tree, warm2. split; [apply reach_first_tree|]. split; [reflexivity|].
  intros E. inversion E.
Qed.






(** C6 (the code departs from it): the first call of [empty] for a dimension
    fills the cache and returns [undefined]; only the second call returns the
    box of [+Infinity] and [-Infinity]. *)
Theorem empty_first_call_is_undefined :
  fst (empty 2 []) = None /\
  fst (empty 2 (snd (empty 2 []))) = Some [PInf; PInf; NInf; NInf].
Proof. split; reflexivity. Qed.

(** C7 (the code departs from it): [intersectionArea] subtracts the smaller
    maximum from the larger minimum.  Two boxes that overlap in a unit square
    get 0, and two disjoint boxes get the product of the gaps between them. *)
Theorem intersectionArea_operands_swapped :
  intersectionArea 2 [Fin 0; Fin 0; Fin 2; Fin 2] [Fin 1; Fin 1; Fin 3; Fin 3] = Fin 0 /\
  intersectionArea 2 [Fin 0; Fin 0; Fin 1; Fin 1] [Fin 3; Fin 3; Fin 4; Fin 4] = Fin 4.
Proof. split; reflexivity. Qed.

(** C8 (the code departs from it): on five points whose total margin is 24
    along x and 45 along y, [_chooseSplitAxis] leaves the children sorted by
    y, the last axis it tried. *)
Theorem chooseSplitAxis_keeps_last_axis :
  _allDistMargin tree4 overfull_leaf 2 5 0 warm2
    = Ok (Fin 24,
          Leaf [point 1 0 0; point 3 1 2; point 5 2 4; point 2 10 1; point 4 11 3] 1
            (Some [Fin 0; Fin 0; Fin 11; Fin 4]), warm2) /\
  _allDistMargin tree4 overfull_leaf 2 5 1 warm2
    = Ok (Fin 45, overfull_leaf, warm2) /\
  _chooseSplitAxis tree4 overfull_leaf 2 5 warm2 = Ok (overfull_leaf, warm2).
Proof. repeat split; vm_compute; reflexivity. Qed.

Lemma cmp_le_keys axis a b :
  has_key axis a -> has_key axis b -> zkey axis a <= zkey axis b -> cmp_le axis a b.
Proof.
  intros Ha Hb H. unfold cmp_le. rewrite compareMin_keys by assumption.
  unfold le. simpl.
  destruct (Z.eq_dec (zkey axis a) (zkey axis b)) as [E|E].
  - rewrite E, Z.sub_diag. reflexivity.
  - assert (G : (zkey axis a - zkey axis b <? 0) = true) by (apply Z.ltb_lt; lia).
    rewrite G. reflexivity.
Qed.



(** C10: [select] returns for every array and [left <= k <= right] inside
    it, the same array whatever fuel the model has left; the segment
    [left .. right] is a permutation of what it was, the rest of the array is
    untouched, no element before [k] in the segment compares greater than the
    element at [k], and none after it compares less. *)
Theorem select_places_rank_k (narrow : Z -> Z -> Z -> Z * Z) (axis : nat)
    (arr : list Item) (left right k : Z) :
  narrow_ok narrow ->
  Forall (has_key axis) arr ->
  0 <= left -> left <= k -> k <= right -> right < len arr ->
  exists arr',
    (exists N, forall fuel, (N <= fuel)%nat ->
       select narrow axis fuel arr left right k = Ok arr') /\
    length arr' = length arr /\
    (forall i, i < left \/ right < i -> zget arr' i = zget arr i) /\
    Permutation (slice arr' left (right + 1)) (slice arr left (right + 1)) /\
    selected axis left right k arr'.
Proof.
  intros Hn Hk H0 Hlk Hkr H1.
  destruct (select_sorts narrow axis Hn (Z.to_nat (right - left) + 4) arr left right k
              left right)
    as (arr' & E & PW & S1 & S2); auto; try lia.
  { unfold select_inv. repeat split; try lia; intros; lia. }
  exists arr'. split.
  { exists (Z.to_nat (right - left) + 4)%nat. intros fuel Hf.
    eapply select_later; eauto. }
  pose proof (permuted_within_len _ _ _ _ PW) as L.
  pose proof (keys_permuted axis _ _ _ _ PW Hk) as Hk'.
  split; [apply PW|]. split; [apply PW|].
  split; [apply permuted_within_slice; auto; lia|].
  split; intros i Hi; apply cmp_le_keys; try (apply keys_nthZ; auto; lia).
  - apply S1. lia.
  - apply S2. lia.
Qed.

Lemma select_places_rank_k_witness :
  exists arr',
    (exists N, forall fuel, (N <= fuel)%nat ->
       select narrow_to_k 0 fuel five_points 1 4 2 = Ok arr') /\
    length arr' = length five_points /\
    (forall i, i < 1 \/ 4 < i -> zget arr' i = zget five_points i) /\
    Permutation (slice arr' 1 (4 + 1)) (slice five_points 1 (4 + 1)) /\
    selected 0 1 4 2 arr'.
Proof.
  apply select_places_rank_k.
  - exact narrow_to_k_ok.
  - repeat constructor; eexists; reflexivity.
  - lia.
  - lia.
  - lia.
  - vm_compute. reflexivity.
Defined.

(** * What holds besides *)















(** X8: once [empty] was called for a dimension, every later call returns
    the box of [+Infinity] minima and [-Infinity] maxima and leaves the
    cache as it is. *)
Theorem empty_returns_box_once_cached (d : nat) (c : cache) :
  cache_ok c ->
  empty d (snd (empty d c)) = (Some (empty_box d), snd (empty d c)).
Proof.
  intros Ck. destruct (empty_cache_ok d c Ck) as (_ & Cw & _).
  apply empty_warm. exact Cw.
Qed.

Lemma empty_returns_box_once_cached_witness :
  cache_ok [] /\
  empty 3 (snd (empty 3 [])) = (Some (empty_box 3), snd (empty 3 [])).
Proof.
  split; [exact cache_ok_nil|].
  exact (empty_returns_box_once_cached 3 [] cache_ok_nil).
Defined.






(** * [all] and [collides] *)

(** [all] returns the items of the leaves, whatever the tree. *)
Lemma all_ok t :
  exists k r,
    (forall fuel, (k <= fuel)%nat -> all fuel t = Ok r) /\
    Permutation r (all_items (data t)).
Proof.
  destruct (all_stack (ssize [data t]) [data t] [] (le_n _)) as (k & r & E & Pr).
  exists k, r. split; [exact E|]. rewrite Pr. simpl. rewrite app_nil_r. reflexivity.
Qed.




Section CollidesProofs.
Variable d : nat.
Variables maxE lo : Z.
Hypothesis lo_pos : 1 <= lo.
Variable q : box.

Local Abbreviation good_node := (is_wf d maxE lo).
Local Abbreviation kid := (fun n => exists h, wf d maxE lo lo h n).




End CollidesProofs.



(** * More on the geometry kernel *)

Lemma gt_false_le a b : not_nan a -> not_nan b -> gt a b = false -> le a b = true.
Proof.
  unfold gt, le, not_nan. intros Ha Hb.
  destruct a as [| |x|], b as [| |y|]; simpl; try congruence; intros H;
    rewrite ?orb_false_r; rewrite ?orb_true_iff, ?Z.ltb_lt, ?Z.eqb_eq;
    try apply Z.ltb_ge in H; try reflexivity; lia.
Qed.

Lemma le_gt_false a b : le a b = true -> gt a b = false.
Proof.
  unfold gt, le.
  destruct a as [| |x|], b as [| |y|]; simpl; try congruence; intros H;
    rewrite ?orb_false_r in H; rewrite ?orb_true_iff, ?Z.ltb_lt, ?Z.eqb_eq in H;
    try apply Z.ltb_ge; try reflexivity; lia.
Qed.

(** [contains(a, b)] on boxes without NaN: [b] lies inside [a]. *)
Lemma contains_inside d a b :
  clean d a -> clean d b -> (contains d a b = true <-> inside d b a).
Proof.
  intros Ca Cb. rewrite contains_iff. split; intros H i Hi; destruct (H i Hi) as (A & B).
  - split; apply gt_false_le; auto; eapply clean_rd; eauto; lia.
  - split; apply le_gt_false; assumption.
Qed.

Lemma js_min_glb a b c0 :
  not_nan a -> not_nan b -> gt c0 a = false -> gt c0 b = false -> gt c0 (js_min a b) = false.
Proof.
  unfold gt, js_min, not_nan. intros Ha Hb.
  destruct a as [| |x|], b as [| |y|], c0 as [| |z|]; simpl; try congruence;
    repeat match goal with
           | |- context [Z.ltb ?u ?v] => destruct (Z.ltb_spec u v)
           end; simpl; try congruence; intros; try apply Z.ltb_ge; try lia.
Qed.

Lemma js_max_lub a b c0 :
  not_nan a -> not_nan b -> gt a c0 = false -> gt b c0 = false -> gt (js_max a b) c0 = false.
Proof.
  unfold gt, js_max, not_nan. intros Ha Hb.
  destruct a as [| |x|], b as [| |y|], c0 as [| |z|]; simpl; try congruence;
    repeat match goal with
           | |- context [Z.ltb ?u ?v] => destruct (Z.ltb_spec u v)
           end; simpl; try congruence; intros; try apply Z.ltb_ge; try lia.
Qed.

(** [extend(a, b)] contains [a] and [b], and lies in every box that
    contains both. *)
Lemma extend_least d a b :
  clean d a -> clean d b ->
  contains d (extend d a b) a = true /\
  contains d (extend d a b) b = true /\
  forall c0, contains d c0 a = true -> contains d c0 b = true ->
             contains d c0 (extend d a b) = true.
Proof.
  intros Ca Cb. pose proof (extend_clean d a b Ca Cb) as Ce.
  destruct (extend_inside d a b Ca Cb) as (I1 & I2).
  split; [apply contains_inside; assumption|]. split; [apply contains_inside; assumption|].
  intros c0 H1 H2. rewrite contains_iff in *. intros i Hi.
  destruct (H1 i Hi) as (A1 & A2). destruct (H2 i Hi) as (B1 & B2).
  destruct (extend_spec d a b (proj1 Ca)) as (_ & Hmin & Hmax).
  rewrite (Hmin i Hi), (Hmax (d + i)%nat ltac:(lia)). split.
  - apply js_min_glb; auto; eapply clean_rd; eauto; lia.
  - apply js_max_lub; auto; eapply clean_rd; eauto; lia.
Qed.

(** [intersects] does not depend on the order of its boxes. *)
Lemma intersects_sym d a b : intersects d a b = intersects d b a.
Proof.
  unfold intersects. induction (axes d) as [|i l IH]; [reflexivity|].
  cbn [forallb]. rewrite IH. cbv zeta. f_equal. f_equal. apply orb_comm.
Qed.

(** The empty box meets no box with integer coordinates. *)
Lemma empty_box_meets_nothing d q :
  (1 <= d)%nat -> fbox d q -> intersects d q (empty_box d) = false.
Proof.
  intros Hd Fq. destruct (intersects d q (empty_box d)) eqn:E; [|reflexivity].
  rewrite intersects_iff in E. destruct (E O ltac:(lia)) as (A & _).
  rewrite rd_empty_box in A.
  assert (G : (0 <? d)%nat = true) by (apply Nat.ltb_lt; lia). rewrite G in A.
  destruct (fbox_rd d q (d + 0)%nat Fq ltac:(lia)) as (z & Ez). rewrite Ez in A.
  discriminate.
Qed.

(** ** Areas *)










(** * The subtree [_chooseSubtree] chooses *)

Section ChooseLeast.
Variable d : nat.
Variable maxE lo : Z.
Hypothesis lo_pos : 1 <= lo.
Variable bx : box.
Hypothesis bx_finite : fbox d bx.

Local Abbreviation enl := (enlargement d bx).

(** The state of the loop of [_chooseSubtree] after the children [seen]:
    [targetNode] is one of them, of the least enlargement, and
    [minEnlargement] is its enlargement. *)
Local Abbreviation chosen_among seen st :=
  (snd st = None /\ snd (fst st) = PInf /\ length seen = O \/
   exists j c1, snd st = Some (j, c1) /\ In c1 seen /\ snd (fst st) = enl c1 /\
                forall c, In c seen -> le (enl c1) (enl c) = true).






End ChooseLeast.


(** * [remove] of an item the tree holds *)




Section RemovePresent.
Variable t : rbush_t.
Variable item : Item.
Variable root : node.

Local Abbreviation go := (remove_loop t item).
Local Abbreviation d := (_dimension t).
Local Abbreviation maxE := (_maxEntries t).

End RemovePresent.




(** * The number of items and the height *)






(** ** The height [_build] gives *)

Lemma calcBBox_height d n c n' c' : calcBBox d n c = Ok (n', c') -> height_of n' = height_of n.
Proof.
  unfold calcBBox, mbind, ret. destruct (distBBox d n 0 (nchildren n) c) as [[b c1]|e];
    [|discriminate].
  intros E. inversion E; subst. destruct n; reflexivity.
Qed.

(** [_build] called with no height: the node it returns is a leaf when the
    items fit in one, and has the height computed from their number
    otherwise. *)
Lemma build_height narrow log_ceil t (fuel : nat) items left right c items' n c' :
  _build narrow log_ceil t fuel items left right 0 c = Ok ((items', n), c') ->
  height_of n =
  if right - left + 1 <=? _maxEntries t then 1
  else log_ceil (right - left + 1) (_maxEntries t).
Proof.
  destruct fuel as [|fuel]; [discriminate|]. rewrite build_S. cbv zeta.
  destruct (right - left + 1 <=? _maxEntries t).
  - destruct (left <? 0); [discriminate|]. unfold mbind, ret.
    destruct (calcBBox _ _ c) as [[n0 c0]|e] eqn:E; [|discriminate].
    intros H. inversion H; subst. apply calcBBox_height in E. exact E.
  - cbn [Z.eqb]. unfold mbind at 1.
    destruct (buildAxis _ _ _ _ _ _ _ _ _ _ _ _ c) as [[[it ch] c0]|e]; [|discriminate].
    unfold mbind, ret. destruct (calcBBox _ _ c0) as [[n0 c1]|e] eqn:E; [|discriminate].
    intros H. inversion H; subst. apply calcBBox_height in E. exact E.
Qed.

(** [load] of an array that is not short into a tree without children: the
    height of the new tree. *)
Lemma load_empty_height narrow log_ceil (fuel : nat) xs t c t' c' :
  nchildren (data t) = 0 -> _minEntries t <= len xs -> 1 <= len xs ->
  load narrow log_ceil fuel xs t c = Ok (t', c') ->
  height_of (data t') =
  if len xs <=? _maxEntries t then 1 else log_ceil (len xs) (_maxEntries t).
Proof.
  intros Hn Hm H1. unfold load.
  destruct (Z.eqb_spec (len xs) 0); [lia|].
  destruct (Z.ltb_spec (len xs) (_minEntries t)); [lia|].
  unfold load_data. unfold mbind at 1. unfold mbind at 1.
  destruct (_build narrow log_ceil t fuel xs 0 (len xs - 1) 0 c) as [[[it n0] c0]|e] eqn:E;
    [|discriminate].
  rewrite Hn. cbn [Z.eqb]. unfold ret. intros Hr. inversion Hr; subst.
  apply build_height in E. replace (len xs - 1 - 0 + 1) with (len xs) in E by lia.
  exact E.
Qed.


(** * The groups of [multiSelect] *)

Section SelectLast.
Variable narrow : Z -> Z -> Z -> Z * Z.
Variable axis : nat.

Local Abbreviation zk arr i := (zkey axis (nthZ arr i)).

(** One round of the outer loop of [select] for [k] in [left .. right]: as
    [select_round] has it, and an element at [right] that has the greatest
    key of the range leaves its key at [right]. *)
Lemma select_round_last fuel arr arr1 left right k :
  right > left -> left <= k <= right ->
  (if right - left >? 600 then
     let '(lo, hi) := narrow left right k in
     select narrow axis fuel arr (Z.max left lo) (Z.min right hi) k
   else Ok arr) = Ok arr1 ->
  Forall (has_key axis) arr1 ->
  0 <= left -> right < len arr1 ->
  (Z.to_nat (right - left) + 2 <= fuel)%nat ->
  exists arr5 p,
    select narrow axis (S fuel) arr left right k =
      select narrow axis fuel arr5
        (if p <=? k then p + 1 else left) (if k <=? p then p - 1 else right) k /\
    permuted_within left right arr1 arr5 /\
    left <= p <= right /\
    ((forall x, left <= x <= right -> zk arr1 x <= zk arr1 right) ->
     zk arr5 right = zk arr1 right).
Proof.
  intros Hlr Hkr Hn Hk H0 H1 Hf.
  set (t := nthZ arr1 k).
  assert (Ht : has_key axis t) by (apply keys_nthZ; auto; lia).
  (* swap(arr, left, k) *)
  destruct (swap_within left right arr1 left k) as (arr2 & E2 & PW2 & A2 & B2 & F2);
    try lia.
  pose proof (permuted_within_len _ _ _ _ PW2) as L2.
  pose proof (keys_permuted axis _ _ _ _ PW2 Hk) as K2.
  (* if (compare(axis, arr[right], t) > 0) swap(arr, left, right) *)
  assert (S3 : exists arr3,
             (if gt (Fin (zk arr2 right - zkey axis t)) (Fin 0)
              then swap arr2 left right else Ok arr2) = Ok arr3 /\
             permuted_within left right arr2 arr3 /\
             zkey axis t <= zk arr3 left /\ zk arr3 right <= zkey axis t /\
             (zkey axis t < zk arr2 right /\ zk arr3 left = zk arr2 right /\
              zk arr3 right = zkey axis t
              \/ zk arr2 right <= zkey axis t /\ arr3 = arr2)).
  { unfold gt. simpl. destruct (0 <? zk arr2 right - zkey axis t) eqn:E.
    - apply Z.ltb_lt in E.
      destruct (swap_within left right arr2 left right) as (arr3 & E3 & PW3 & A3 & B3 & F3);
        try lia.
      exists arr3. split; [exact E3|]. split; [exact PW3|].
      rewrite A3, B3, A2. fold t. split; [lia|]. split; [lia|]. left. lia.
    - apply Z.ltb_ge in E. exists arr2. split; [reflexivity|].
      split; [apply permuted_within_refl|]. rewrite A2. fold t.
      split; [lia|]. split; [lia|]. right. split; [lia|reflexivity]. }
  destruct S3 as (arr3 & E3 & PW3 & Hl3 & Hr3 & Hc3).
  pose proof (permuted_within_len _ _ _ _ PW3) as L3.
  pose proof (keys_permuted axis _ _ _ _ PW3 K2) as K3.
  (* the partition loop *)
  destruct (partition_start axis t left right fuel arr3 K3 Ht)
    as (arr4 & i & j & E4 & PW4 & PI & Hji & Al & Ar); try lia.
  pose proof (permuted_within_len _ _ _ _ PW4) as L4.
  pose proof (keys_permuted axis _ _ _ _ PW4 K3) as K4.
  destruct PI as (Bi & Bj & HL & HR & Hi & Hj).
  (* the pivot goes to its place *)
  assert (S5 : exists arr5 p,
             (if strict_eq (Fin (zk arr4 left - zkey axis t)) (Fin 0)
              then arr <- swap arr4 left j ;; Ok (arr, j)
              else arr <- swap arr4 (j + 1) right ;; Ok (arr, j + 1)) = Ok (arr5, p) /\
             permuted_within left right arr4 arr5 /\
             left <= p <= right /\
             (zk arr4 left = zkey axis t /\ zk arr5 right = zk arr4 right
              \/ zk arr4 left <> zkey axis t /\ zkey axis t <= zk arr5 right)).
  { unfold strict_eq. simpl. destruct (zk arr4 left - zkey axis t =? 0) eqn:E.
    - apply Z.eqb_eq in E.
      destruct (swap_within left right arr4 left j) as (arr5 & E5 & PW5 & A5 & B5 & F5);
        try lia.
      exists arr5, j. rewrite E5. simpl. split; [reflexivity|]. split; [exact PW5|].
      split; [lia|]. left. split; [lia|]. rewrite F5 by lia. reflexivity.
    - apply Z.eqb_neq in E.
      destruct (swap_within left right arr4 (j + 1) right)
        as (arr5 & E5 & PW5 & A5 & B5 & F5); try lia.
      exists arr5, (j + 1). rewrite E5. simpl. split; [reflexivity|]. split; [exact PW5|].
      split; [lia|]. right. split; [lia|]. rewrite B5. apply HR. lia. }
  destruct S5 as (arr5 & p & E5 & PW5 & Bp & Hc5).
  assert (PW : permuted_within left right arr1 arr5).
  { eapply permuted_within_trans; [exact PW2|].
    eapply permuted_within_trans; [exact PW3|].
    eapply permuted_within_trans; eassumption. }
  exists arr5, p. split; [|split; [exact PW|split; [exact Bp|]]].
  - cbn [select]. assert (G : (right >? left) = true) by (apply Z.gtb_lt; lia). rewrite G.
    rewrite Hn. cbn [rbind]. rewrite (zget_nthZ arr1 k ltac:(lia)). cbn [rbind defined]. fold t.
    rewrite E2. cbn [rbind]. rewrite compare_at_keys by (auto; lia). cbn [rbind].
    rewrite E3. cbn [rbind]. rewrite E4. cbn [rbind].
    rewrite compare_at_keys by (auto; lia). cbn [rbind].
    rewrite E5. cbn [rbind]. reflexivity.
  - intros Hmax.
    assert (Tm : zkey axis t <= zk arr1 right) by (apply Hmax; lia).
    assert (R2 : k <> right -> zk arr2 right = zk arr1 right).
    { intros Ne. rewrite F2 by lia. reflexivity. }
    assert (R2' : k = right -> zk arr2 right = zk arr1 left).
    { intros ->. rewrite B2. reflexivity. }
    assert (Up : zk arr5 right <= zk arr1 right).
    { destruct (permuted_within_closed left right arr1 arr5 right PW) as (y & Hy & Ey);
        try lia.
      rewrite Ey. apply Hmax. lia. }
    assert (Q4 : zk arr4 left = zk arr3 right) by (rewrite Al; reflexivity).
    assert (R4 : zk arr4 right = zk arr3 left) by (rewrite Ar; reflexivity).
    destruct Hc3 as [(G3 & A3 & B3) | (G3 & ->)].
    + (* the element at [right] was exchanged with the pivot *)
      assert (Ne : k <> right).
      { intros Eq. rewrite (R2' Eq) in G3. subst k.
        assert (zk arr1 left <= zk arr1 right) by (apply Hmax; lia).
        unfold t in G3. lia. }
      destruct Hc5 as [(_ & R5) | (N5 & _)].
      * rewrite R5, R4, A3. apply R2. exact Ne.
      * exfalso. apply N5. rewrite Q4. exact B3.
    + assert (Tk : zkey axis t = zk arr1 right).
      { destruct (Z.eq_dec k right) as [->|Ne]; [reflexivity|].
        rewrite (R2 Ne) in G3. lia. }
      destruct Hc5 as [(_ & R5) | (_ & G5)].
      * rewrite R5, R4, A2. exact Tk.
      * lia.
Qed.

Hypothesis narrow_shrinks : narrow_ok narrow.
Hypothesis narrow_bounds : narrow_around narrow.

(** [select] for [k] in [left .. right] leaves at a position [last] from
    [right] on the key it held, when no key of the range is greater. *)
Lemma select_keeps_last :
  forall fuel arr left right k last,
    Forall (has_key axis) arr ->
    0 <= left -> right <= last -> last < len arr ->
    (right <= left \/ left <= k <= right) ->
    (forall x, left <= x <= right -> zk arr x <= zk arr last) ->
    (Z.to_nat (right - left) + 4 <= fuel)%nat ->
    exists arr',
      select narrow axis fuel arr left right k = Ok arr' /\
      permuted_within left right arr arr' /\
      zk arr' last = zk arr last.
Proof.
  induction fuel as [|fuel IH]; intros arr left right k last Hk H0 Hrl H1 Hd Hmax Hf; [lia|].
  destruct (Z_le_gt_dec right left) as [D|D].
  - exists arr. split; [|split; [apply permuted_within_refl|reflexivity]].
    cbn [select]. assert (G : (right >? left) = false) by (rewrite Z.gtb_ltb; apply Z.ltb_ge; lia).
    rewrite G. reflexivity.
  - destruct Hd as [Hd|Hd]; [lia|].
    assert (N : exists arr1,
               (if right - left >? 600 then
                  let '(a, b) := narrow left right k in
                  select narrow axis fuel arr (Z.max left a) (Z.min right b) k
                else Ok arr) = Ok arr1 /\ permuted_within left right arr arr1 /\
               zk arr1 last = zk arr last).
    { destruct (right - left >? 600) eqn:E.
      - apply Z.gtb_lt in E. pose proof (narrow_shrinks left right k) as S.
        pose proof (narrow_bounds left right k ltac:(lia) Hd) as Nb.
        destruct (narrow left right k) as [a b]. simpl in S, Nb.
        destruct (IH arr (Z.max left a) (Z.min right b) k last) as (arr1 & E1 & PW1 & Z1);
          auto; try lia.
        + intros x Hx. apply Hmax. lia.
        + exists arr1. split; [exact E1|]. split; [|exact Z1].
          eapply permuted_within_weaken; [exact PW1| |]; lia.
      - exists arr. split; [reflexivity|]. split; [apply permuted_within_refl|reflexivity]. }
    destruct N as (arr1 & En & PW1 & Z1).
    pose proof (permuted_within_len _ _ _ _ PW1) as L1.
    pose proof (keys_permuted axis _ _ _ _ PW1 Hk) as K1.
    assert (Max1 : forall x, left <= x <= right -> zk arr1 x <= zk arr1 last).
    { intros x Hx. rewrite Z1.
      destruct (permuted_within_closed left right arr arr1 x PW1) as (y & Hy & Ey); try lia.
      rewrite Ey. apply Hmax. lia. }
    destruct (select_round_last fuel arr arr1 left right k)
      as (arr5 & p & Es & PW5 & Bp & Last); auto; try lia.
    pose proof (permuted_within_len _ _ _ _ PW5) as L5.
    pose proof (keys_permuted axis _ _ _ _ PW5 K1) as K5.
    assert (Z5 : zk arr5 last = zk arr1 last).
    { destruct (Z.eq_dec last right) as [->|Ne].
      - apply Last. exact Max1.
      - rewrite (permuted_within_nth _ _ _ _ last PW5); [reflexivity|lia|lia]. }
    assert (Max5 : forall x, left <= x <= right -> zk arr5 x <= zk arr5 last).
    { intros x Hx. rewrite Z5.
      destruct (permuted_within_closed left right arr1 arr5 x PW5) as (y & Hy & Ey); try lia.
      rewrite Ey. apply Max1. lia. }
    rewrite Es.
    destruct (IH arr5 (if p <=? k then p + 1 else left) (if k <=? p then p - 1 else right)
                k last) as (arr' & E' & PW' & Z'); auto; try lia.
    + destruct (p <=? k); lia.
    + destruct (k <=? p); lia.
    + destruct (p <=? k) eqn:E1; destruct (k <=? p) eqn:E2;
        try apply Z.leb_le in E1; try apply Z.leb_le in E2;
        try apply Z.leb_gt in E1; try apply Z.leb_gt in E2; lia.
    + intros x Hx. apply Max5.
      destruct (p <=? k); destruct (k <=? p); lia.
    + destruct (p <=? k) eqn:E1; destruct (k <=? p) eqn:E2;
        try apply Z.leb_le in E1; try apply Z.leb_le in E2;
        try apply Z.leb_gt in E1; try apply Z.leb_gt in E2; lia.
    + exists arr'. split; [exact E'|]. split; [|congruence].
      eapply permuted_within_trans; [exact PW1|].
      eapply permuted_within_trans; [exact PW5|].
      eapply permuted_within_weaken; [exact PW'| |].
      * destruct (p <=? k); lia.
      * destruct (k <=? p); lia.
Qed.
End SelectLast.

Section MultiSelectGroups.
Variable narrow : Z -> Z -> Z -> Z * Z.
Variable axis : nat.
Hypothesis narrow_shrinks : narrow_ok narrow.
Hypothesis narrow_bounds : narrow_around narrow.
Variable n : Z.
Hypothesis n_pos : 1 <= n.

Local Abbreviation zk arr i := (zkey axis (nthZ arr i)).

Local Abbreviation zgrouped l r arr :=
  (forall c i j, l < l + c * n < r -> l <= i < l + c * n -> l + c * n <= j <= r ->
                 zk arr i <= zk arr j).

Lemma slice_one (a : list Item) i : 0 <= i < len a -> slice a i (i + 1) = [nthZ a i].
Proof.
  intros Hi. rewrite (slice_cons a i (i + 1) (nthZ a i)); try lia.
  - rewrite slice_nil by lia. reflexivity.
  - apply zget_nthZ. exact Hi.
Qed.

(** When the key at [r] is what it was, the keys before [r] in the segment
    are those that were there. *)
Lemma keys_closed_below l r (a b : list Item) :
  permuted_within l r a b -> 0 <= l -> l <= r -> r < len a ->
  zk b r = zk a r ->
  forall i, l <= i < r -> exists i', l <= i' < r /\ zk b i = zk a i'.
Proof.
  intros PW H0 Hlr H1 Zr i Hi.
  pose proof (permuted_within_len _ _ _ _ PW) as L.
  pose proof (permuted_within_slice l r a b PW H0 ltac:(lia) H1) as P.
  rewrite (slice_app a l r (r + 1)) in P by lia.
  rewrite (slice_app b l r (r + 1)) in P by lia.
  rewrite !slice_one in P by lia.
  apply (Permutation_map (zkey axis)) in P. rewrite !map_app in P. cbn [map] in P.
  rewrite Zr in P. apply Permutation_app_inv_r in P.
  assert (I : In (zk b i) (map (zkey axis) (slice b l r))).
  { apply in_map. apply in_slice; try lia. exists i. split; [lia|reflexivity]. }
  eapply Permutation_in in I; [|exact P].
  apply in_map_iff in I. destruct I as (x & Ex & Hx).
  apply in_slice in Hx; try lia. destruct Hx as (y & Hy & Ey).
  exists y. split; [lia|]. rewrite Ey. symmetry. exact Ex.
Qed.

(** The rounds of [multiSelect] from the time it pops [l .. r] to the time
    the stack is what was below: the segment is grouped, and a greatest key
    at [r] is still at [r]. *)
Lemma segment_grouped : forall (m : nat) arr l r st,
  (Z.to_nat (r - l) <= m)%nat ->
  Forall (has_key axis) arr -> 0 <= l -> l <= r -> r < len arr ->
  exists k arr',
    (forall fuel, (Z.to_nat (r - l) + 4 <= fuel)%nat ->
       multiSelect_loop narrow axis (k + fuel) arr (r :: l :: st) n
       = multiSelect_loop narrow axis fuel arr' st n) /\
    permuted_within l r arr arr' /\
    zgrouped l r arr' /\
    ((forall x, l <= x <= r -> zk arr x <= zk arr r) -> zk arr' r = zk arr r).
Proof.
  induction m as [|m IH]; intros arr l r st Hm Hk H0 Hlr H1.
  - exists 1%nat, arr. split; [|split; [apply permuted_within_refl|split]].
    + intros fuel Hf. cbn [Nat.add multiSelect_loop].
      destruct (Z.leb_spec (r - l) n); [reflexivity|lia].
    + intros c i j Hb Hi Hj. lia.
    + reflexivity.
  - destruct (Z_le_gt_dec (r - l) n) as [Le|Gt].
    + exists 1%nat, arr. split; [|split; [apply permuted_within_refl|split]].
      * intros fuel Hf. cbn [Nat.add multiSelect_loop].
        destruct (Z.leb_spec (r - l) n); [reflexivity|lia].
      * intros c i j Hb Hi Hj. assert (1 <= c) by nia. nia.
      * reflexivity.
    + pose proof (multiSelect_mid l r n n_pos ltac:(lia)) as Hmid.
      set (c0 := cdiv (r - l) (2 * n)) in *.
      set (mid := l + c0 * n) in *.
      (* select(arr, left, right, mid) *)
      destruct (select_sorts narrow axis narrow_shrinks (Z.to_nat (r - l) + 4) arr l r mid l r)
        as (arr1 & E1 & PW1 & S1 & S2); auto; try lia.
      { unfold select_inv. repeat split; try lia; intros; lia. }
      pose proof (permuted_within_len _ _ _ _ PW1) as L1.
      pose proof (keys_permuted axis _ _ _ _ PW1 Hk) as K1.
      (* the segment mid .. r, then the segment l .. mid *)
      destruct (IH arr1 mid r (mid :: l :: st)) as (k1 & arr2 & Q1 & PW2 & G2 & Last2);
        auto; try lia.
      pose proof (permuted_within_len _ _ _ _ PW2) as L2.
      pose proof (keys_permuted axis _ _ _ _ PW2 K1) as K2.
      destruct (IH arr2 l mid st) as (k2 & arr3 & Q2 & PW3 & G3 & Last3);
        auto; try lia.
      pose proof (permuted_within_len _ _ _ _ PW3) as L3.
      assert (Low2 : forall i, l <= i < mid -> zk arr2 i = zk arr1 i).
      { intros i Hi. rewrite (permuted_within_nth _ _ _ _ i PW2); [reflexivity|lia|lia]. }
      assert (High2 : forall j, mid <= j <= r -> zk arr1 mid <= zk arr2 j).
      { intros j Hj.
        destruct (permuted_within_closed mid r arr1 arr2 j PW2) as (y & Hy & Ey); try lia.
        rewrite Ey. destruct (Z.eq_dec y mid) as [->|Ne]; [lia|]. apply S2. lia. }
      assert (Z3 : zk arr3 mid = zk arr2 mid).
      { apply Last3. intros x Hx. destruct (Z.eq_dec x mid) as [->|Ne]; [lia|].
        rewrite Low2 by lia. pose proof (S1 x ltac:(lia)). pose proof (High2 mid ltac:(lia)).
        lia. }
      assert (Low3 : forall i, l <= i < mid -> zk arr3 i <= zk arr1 mid).
      { intros i Hi.
        destruct (keys_closed_below l mid arr2 arr3 PW3 H0 ltac:(lia) ltac:(lia) Z3 i Hi)
          as (i' & Hi' & Ei).
        rewrite Ei, Low2 by lia. apply S1. lia. }
      assert (Same3 : forall j, mid < j <= r -> nthZ arr3 j = nthZ arr2 j).
      { intros j Hj. apply (permuted_within_nth _ _ _ _ j PW3); lia. }
      assert (High3 : forall j, mid <= j <= r -> zk arr1 mid <= zk arr3 j).
      { intros j Hj. destruct (Z.eq_dec j mid) as [->|Ne].
        - rewrite Z3. apply High2. lia.
        - rewrite Same3 by lia. apply High2. lia. }
      exists (S (k1 + k2)), arr3. split; [|split; [|split]].
      * intros fuel Hf.
        replace (S (k1 + k2) + fuel)%nat with (S (k1 + (k2 + fuel))) by lia.
        cbn [multiSelect_loop].
        destruct (Z.leb_spec (r - l) n); [lia|].
        fold c0. fold mid.
        rewrite (select_later narrow axis _ (k1 + (k2 + fuel)) _ _ _ _ _ E1) by lia.
        cbn [rbind]. rewrite Q1 by lia. apply Q2. lia.
      * eapply permuted_within_trans; [exact PW1|].
        eapply permuted_within_trans;
          (eapply permuted_within_weaken; [eassumption| |]; lia).
      * intros c i j Hb Hi Hj.
        destruct (Z_lt_ge_dec i mid) as [Im|Im].
        -- destruct (Z_lt_ge_dec j mid) as [Jm|Jm].
           ++ apply (G3 c); lia.
           ++ pose proof (Low3 i ltac:(lia)). pose proof (High3 j ltac:(lia)). lia.
        -- assert (Tr : forall x, mid <= x <= r -> zk arr3 x = zk arr2 x).
           { intros x Hx. destruct (Z.eq_dec x mid) as [->|Ne]; [exact Z3|].
             rewrite Same3 by lia. reflexivity. }
           rewrite !Tr by lia.
           apply (G2 (c - c0)); unfold mid in *; lia.
      * intros Hmax.
        destruct (select_keeps_last narrow axis narrow_shrinks narrow_bounds
                    (Z.to_nat (r - l) + 4) arr l r mid r)
          as (arr1' & E1' & _ & Last1); auto; try lia.
        assert (arr1' = arr1) by congruence. subst arr1'.
        rewrite Same3 by lia. rewrite Last2; [exact Last1|].
        intros x Hx. rewrite Last1.
        destruct (permuted_within_closed l r arr arr1 x PW1) as (y & Hy & Ey); try lia.
        rewrite Ey. apply Hmax. lia.
Qed.

(** [multiSelect] returns, the same array whatever fuel it has left; the
    segment is permuted, and grouped by [n]. *)
Lemma multiSelect_grouped arr left right :
  Forall (has_key axis) arr -> 0 <= left -> left <= right -> right < len arr ->
  exists arr',
    (exists N, forall fuel, (N <= fuel)%nat ->
       multiSelect narrow axis fuel arr left right n = Ok arr') /\
    permuted_within left right arr arr' /\
    zgrouped left right arr'.
Proof.
  intros Hk H0 Hlr H1.
  destruct (segment_grouped (Z.to_nat (right - left)) arr left right [] (le_n _) Hk H0 Hlr H1)
    as (k & arr' & Q & PW & G & _).
  exists arr'. split; [|split; assumption].
  exists (k + (Z.to_nat (right - left) + 4))%nat. intros fuel Hf.
  unfold multiSelect.
  replace fuel with (k + (fuel - k))%nat by lia. rewrite Q by lia.
  destruct (fuel - k)%nat eqn:E; [lia|]. reflexivity.
Qed.
End MultiSelectGroups.


(** * Trees given to another tree object, and the settings *)


Lemma narrow_to_k_around : narrow_around narrow_to_k.
Proof. intros left right k _ _. unfold narrow_to_k. simpl. lia. Qed.


(** The settings the constructor computes. *)
Lemma rbush_settings maxEntries dimension c0 :
  exists t c,
    rbush maxEntries dimension c0 = Ok (t, c) /\
    _maxEntries t = Z.max 4 (match maxEntries with
                             | Some m => if m =? 0 then 9 else m
                             | None => 9
                             end) /\
    _minEntries t = Z.max 2 ((2 * _maxEntries t + 4) / 5) /\
    Z.of_nat (_dimension t) = (match dimension with
                               | Some d => if (d =? 0) || (d <? 2) then 2 else d
                               | None => 2
                               end) /\
    exists b, data t = Leaf [] 1 b.
Proof.
  unfold rbush, clear, mbind, empty_m, ret. cbn [_dimension].
  destruct (empty _ c0) as [e c1]. eexists. eexists. split; [reflexivity|].
  cbn [_maxEntries _minEntries _dimension data set_data].
  split; [reflexivity|]. split; [reflexivity|]. split; [|eexists; reflexivity].
  destruct dimension as [d|]; [|reflexivity].
  destruct (Z.eqb_spec d 0); cbn [orb]; [reflexivity|].
  destruct (Z.ltb_spec d 2); [reflexivity|]. lia.
Qed.






(** * The other functions *)

(** X11: [all] returns for every tree, the first tree of a program
    included, and returns the items of the leaves of the tree, each once, in
    some order. *)
Theorem all_returns_every_item (t : rbush_t) :
  exists r,
    (exists N, forall fuel, (N <= fuel)%nat -> all fuel t = Ok r) /\
    Permutation r (all_items (data t)).
Proof.
  destruct (all_ok t) as (k & r & E & P). exists r. split; [exists k; exact E|exact P].
Qed.



(** X13: on the first tree built for its dimension, [search] and
    [collides] raise [TypeError] for every box, and [all] returns the empty
    list. *)
Theorem queries_on_first_tree_raise (maxEntries dimension : option Z) (c0 : cache)
    (t : rbush_t) (c : cache) (q : box) (fuel : nat) :
  rbush maxEntries dimension c0 = Ok (t, c) ->
  cache_get c0 (_dimension t) = None ->
  search fuel t q = Throw TypeError /\
  collides fuel t q = Throw TypeError /\
  all (S fuel) t = Ok [].
Proof.
  intros E Hc. unfold rbush, clear, mbind, empty_m, ret in E. cbn [_dimension] in E.
  destruct (empty _ c0) as [e c1] eqn:Ee. inversion E; subst. clear E.
  cbn [_dimension set_data] in Hc. unfold empty in Ee. rewrite Hc in Ee.
  inversion Ee; subst. split; [reflexivity|]. split; [reflexivity|].
  destruct fuel; reflexivity.
Qed.

Lemma queries_on_first_tree_raise_witness :
  rbush (Some 4) None [] = Ok (first_tree, warm2) /\
  cache_get [] (_dimension first_tree) = None /\
  search 5 first_tree around_thirteen = Throw TypeError /\
  collides 5 first_tree around_thirteen = Throw TypeError /\
  all 6 first_tree = Ok [].
Proof.
  split; [reflexivity|]. split; [reflexivity|].
  apply (queries_on_first_tree_raise (Some 4) None [] first_tree warm2 around_thirteen 5);
    reflexivity.
Defined.

(** X14: in every state, the one the constructor leaves included, [clear]
    returns a tree without items whose root has a [bbox]; [insert] of a
    valid item then returns, and [search] with the box of the item returns
    the item and nothing else. *)
Theorem clear_then_insert_then_search (narrow : Z -> Z -> Z -> Z * Z)
    (log_ceil : Z -> Z -> Z) (t : rbush_t) (c : cache) (x : Item) :
  narrow_ok narrow -> log_ceil_ok log_ceil ->
  reachable narrow log_ceil t c ->
  valid_item (_dimension t) x ->
  exists t1 t2,
    clear t c = Ok (t1, c) /\ all_items (data t1) = [] /\ bbox_of (data t1) <> None /\
    returns (fun fuel => insert fuel (Some x) t1) c (t2, c) /\
    exists N, forall fuel, (N <= fuel)%nat -> search fuel t2 (toBBox x) = Ok [x].
Proof.
  intros Hn Hl R V.
  destruct (reachable_wf narrow log_ceil Hn Hl t c R) as ((Cf & _) & Cw).
  pose proof (clear_warm t c Cw) as Ec.
  set (t1 := set_data t (Leaf [] 1 (Some (empty_box (_dimension t))))) in *.
  destruct (cfg_facts t Cf) as (_ & Hm & He & _).
  assert (W1 : wf (_dimension t1) (_maxEntries t1) 1 0 (height_of (data t1)) (data t1)).
  { apply wf_empty_root. simpl. lia. }
  assert (A1 : 1 <= 1) by lia. assert (A2 : 1 <= _minEntries t1) by (simpl; lia).
  destruct (insert_ok t1 c 1 x Cf A1 A2 Cw W1 V) as (root' & E & Wr & It).
  destruct (search_ok (set_data t1 root') (toBBox x) 0 (height_of root') Wr)
    as (k & r & Es & Pr).
  exists t1, (set_data t1 root').
  split; [exact Ec|]. split; [reflexivity|]. split; [discriminate|].
  split; [exact (returns_of_bound _ _ _ _ E)|].
  exists k. intros fuel Hf. rewrite (Es fuel Hf). f_equal.
  unfold t1 in It, Pr. cbn [data set_data all_items _dimension] in It, Pr.
  apply Permutation_sym, Permutation_length_1_inv in It. rewrite It in Pr.
  cbn [filter] in Pr. rewrite (valid_hits_itself _ x V) in Pr.
  apply Permutation_sym, Permutation_length_1_inv in Pr. exact Pr.
Qed.

Lemma clear_then_insert_then_search_witness :
  exists t1 t2,
    clear first_tree warm2 = Ok (t1, warm2) /\ all_items (data t1) = [] /\
    bbox_of (data t1) <> None /\
    returns (fun fuel => insert fuel (Some (point 1 2 3)) t1) warm2 (t2, warm2) /\
    exists N, forall fuel, (N <= fuel)%nat ->
      search fuel t2 (toBBox (point 1 2 3)) = Ok [point 1 2 3].
Proof.
  apply (clear_then_insert_then_search narrow_to_k ceil_log first_tree warm2 (point 1 2 3)).
  - exact narrow_to_k_ok.
  - exact ceil_log_ok.
  - apply reach_first_tree.
  - apply point_valid.
Defined.

(** X15: the constructor returns for every argument; the tree has at least
    two dimensions, [maxEntries] is at least 4, [minEntries] is at least 2
    and at most half of [maxEntries]; a [maxEntries] of at least 4 and a
    dimension of at least 2 are taken as given, and [maxEntries] is 9 with
    [minEntries] 4 when none is given; the tree holds no item. *)
Theorem constructor_settings (maxEntries dimension : option Z) (c0 : cache) :
  exists t c,
    rbush maxEntries dimension c0 = Ok (t, c) /\
    (2 <= _dimension t)%nat /\ 4 <= _maxEntries t /\
    2 <= _minEntries t /\ 2 * _minEntries t <= _maxEntries t /\
    (forall z, maxEntries = Some z -> 4 <= z -> _maxEntries t = z) /\
    (maxEntries = None -> _maxEntries t = 9 /\ _minEntries t = 4) /\
    (forall z, dimension = Some z -> 2 <= z -> Z.of_nat (_dimension t) = z) /\
    all_items (data t) = [].
Proof.
  destruct (rbush_settings maxEntries dimension c0) as (t & c & E & Hm & He & Hd & (b & Hb)).
  exists t, c. split; [exact E|].
  pose proof (Z.div_mod (2 * _maxEntries t + 4) 5 ltac:(lia)) as Dm.
  pose proof (Z.mod_pos_bound (2 * _maxEntries t + 4) 5 ltac:(lia)) as Mb.
  assert (H4 : 4 <= _maxEntries t) by (rewrite Hm; lia).
  split.
  { destruct dimension as [d|]; [|lia].
    destruct ((d =? 0) || (d <? 2)) eqn:Ed; [lia|].
    apply orb_false_iff in Ed. destruct Ed as [_ Ed]. apply Z.ltb_ge in Ed. lia. }
  split; [exact H4|]. split; [rewrite He; lia|]. split.
  { rewrite He. destruct (Z_lt_ge_dec (_maxEntries t) 8); lia. }
  split.
  { intros z -> Hz. rewrite Hm. destruct (Z.eqb_spec z 0); lia. }
  split.
  { intros ->. assert (E9 : _maxEntries t = 9) by (rewrite Hm; reflexivity).
    split; [exact E9|]. rewrite He, E9. reflexivity. }
  split.
  { intros z -> Hz. rewrite Hd.
    destruct (Z.eqb_spec z 0); [lia|]. destruct (Z.ltb_spec z 2); [lia|]. reflexivity. }
  rewrite Hb. reflexivity.
Qed.



(** X17: [multiSelect] returns for every array whose items have an integer
    coordinate on the axis, the same array whatever fuel the model has left;
    the segment [left .. right] is a permutation of what it was, the rest of
    the array is untouched, and at every position a whole number of groups
    of [n] away from [left], strictly inside the segment, no item before the
    position compares greater than an item from the position on. *)
Theorem multiSelect_groups (narrow : Z -> Z -> Z -> Z * Z) (axis : nat)
    (arr : list Item) (left right n : Z) :
  narrow_ok narrow -> narrow_around narrow ->
  Forall (has_key axis) arr ->
  1 <= n -> 0 <= left -> left <= right -> right < len arr ->
  exists arr',
    (exists N, forall fuel, (N <= fuel)%nat ->
       multiSelect narrow axis fuel arr left right n = Ok arr') /\
    length arr' = length arr /\
    (forall i, i < left \/ right < i -> zget arr' i = zget arr i) /\
    Permutation (slice arr' left (right + 1)) (slice arr left (right + 1)) /\
    grouped axis left right n arr'.
Proof.
  intros Hn Ha Hk Hn1 H0 Hlr H1.
  destruct (multiSelect_grouped narrow axis Hn Ha n Hn1 arr left right Hk H0 Hlr H1)
    as (arr' & E & PW & G).
  exists arr'. split; [exact E|].
  pose proof (permuted_within_len _ _ _ _ PW) as L.
  pose proof (keys_permuted axis _ _ _ _ PW Hk) as Hk'.
  split; [apply PW|]. split; [apply PW|].
  split; [apply permuted_within_slice; auto; lia|].
  intros c0 i j Hb Hi Hj.
  apply cmp_le_keys; try (apply keys_nthZ; auto; lia).
  apply (G c0); assumption.
Qed.

Lemma multiSelect_groups_witness :
  exists arr',
    (exists N, forall fuel, (N <= fuel)%nat ->
       multiSelect narrow_to_k 1 fuel thirteen_points 0 12 3 = Ok arr') /\
    length arr' = length thirteen_points /\
    (forall i, i < 0 \/ 12 < i -> zget arr' i = zget thirteen_points i) /\
    Permutation (slice arr' 0 (12 + 1)) (slice thirteen_points 0 (12 + 1)) /\
    grouped 1 0 12 3 arr'.
Proof.
  apply multiSelect_groups.
  - exact narrow_to_k_ok.
  - exact narrow_to_k_around.
  - apply Forall_forall. intros x Hx.
    pose proof thirteen_valid as V. rewrite Forall_forall in V.
    destruct (V x Hx) as (F & _).
    exact (fbox_rd 2 (item_box x) 1 F ltac:(lia)).
  - lia.
  - lia.
  - lia.
  - vm_compute. reflexivity.
Defined.

(** X18: for boxes without NaN, [extend(a, b)] contains [a] and [b], and
    every box that contains [a] and [b] contains it. *)
Theorem extend_is_least_box (d : nat) (a b : box) :
  clean d a -> clean d b ->
  contains d (extend d a b) a = true /\
  contains d (extend d a b) b = true /\
  forall c, contains d c a = true -> contains d c b = true ->
            contains d c (extend d a b) = true.
Proof. exact (extend_least d a b). Qed.

Lemma extend_is_least_box_witness :
  contains 2 (extend 2 [Fin 0; Fin 0; Fin 1; Fin 1] [Fin 2; Fin (-1); Fin 3; Fin 0])
    [Fin 0; Fin 0; Fin 1; Fin 1] = true /\
  contains 2 (extend 2 [Fin 0; Fin 0; Fin 1; Fin 1] [Fin 2; Fin (-1); Fin 3; Fin 0])
    [Fin 2; Fin (-1); Fin 3; Fin 0] = true /\
  forall c, contains 2 c [Fin 0; Fin 0; Fin 1; Fin 1] = true ->
            contains 2 c [Fin 2; Fin (-1); Fin 3; Fin 0] = true ->
            contains 2 c (extend 2 [Fin 0; Fin 0; Fin 1; Fin 1] [Fin 2; Fin (-1); Fin 3; Fin 0])
            = true.
Proof.
  apply extend_is_least_box.
  - split; [reflexivity|]. repeat constructor; discriminate.
  - split; [reflexivity|]. repeat constructor; discriminate.
Defined.



(** X20: a box that contains a box with integer coordinates and
    [min <= max] on every axis intersects it, whichever of the two comes
    first in the call of [intersects]. *)
Theorem contains_implies_intersects (d : nat) (a b : box) :
  valid_box d b -> contains d a b = true ->
  intersects d a b = true /\ intersects d b a = true.
Proof.
  intros (Fb & Vb) C.
  assert (I : intersects d a b = true).
  { apply (contains_hit d a b b); [apply inside_refl; apply fbox_clean; exact Fb|exact Vb|exact C]. }
  split; [exact I|]. rewrite intersects_sym. exact I.
Qed.

Lemma contains_implies_intersects_witness :
  intersects 2 [Fin 0; Fin 0; Fin 9; Fin 9] [Fin 1; Fin 2; Fin 3; Fin 4] = true /\
  intersects 2 [Fin 1; Fin 2; Fin 3; Fin 4] [Fin 0; Fin 0; Fin 9; Fin 9] = true.
Proof.
  apply contains_implies_intersects.
  - split.
    + split; [reflexivity|]. repeat constructor; eexists; reflexivity.
    + intros i Hi. destruct i as [|[|i]]; try lia; reflexivity.
  - reflexivity.
Defined.

(** X21: the box the creation branch of [empty] stores is neutral for
    [extend] on boxes without NaN, and meets no box with integer
    coordinates. *)
Theorem empty_box_is_neutral_and_meets_nothing (d : nat) (b : box) :
  (1 <= d)%nat -> fbox d b ->
  extend d (empty_fill d) b = b /\
  extend d b (empty_fill d) = b /\
  intersects d b (empty_fill d) = false /\
  intersects d (empty_fill d) b = false.
Proof.
  intros Hd Fb. rewrite empty_fill_is_empty_box.
  pose proof (fbox_clean d b Fb) as Cb.
  split; [apply extend_empty_l; exact Cb|]. split; [apply extend_empty_r; exact Cb|].
  pose proof (empty_box_meets_nothing d b Hd Fb) as I.
  split; [exact I|]. rewrite intersects_sym. exact I.
Qed.

Lemma empty_box_is_neutral_and_meets_nothing_witness :
  extend 2 (empty_fill 2) [Fin 1; Fin 2; Fin 3; Fin 4] = [Fin 1; Fin 2; Fin 3; Fin 4] /\
  extend 2 [Fin 1; Fin 2; Fin 3; Fin 4] (empty_fill 2) = [Fin 1; Fin 2; Fin 3; Fin 4] /\
  intersects 2 [Fin 1; Fin 2; Fin 3; Fin 4] (empty_fill 2) = false /\
  intersects 2 (empty_fill 2) [Fin 1; Fin 2; Fin 3; Fin 4] = false.
Proof.
  apply empty_box_is_neutral_and_meets_nothing.
  - lia.
  - split; [reflexivity|]. repeat constructor; eexists; reflexivity.
Defined.







(** X25: [load] of valid items, at least [minEntries] of them, into a tree
    whose root has no children returns a tree whose height is 1 when the
    items fit in a leaf and the height computed from their number
    otherwise: with [N] items the height [h] has
    [maxEntries ^ (h - 1) <= N <= maxEntries ^ h]. *)
Theorem load_gives_the_computed_height (narrow : Z -> Z -> Z -> Z * Z)
    (log_ceil : Z -> Z -> Z) (t : rbush_t) (c : cache) (xs : list Item) :
  narrow_ok narrow -> log_ceil_ok log_ceil ->
  reachable narrow log_ceil t c ->
  nchildren (data t) = 0 ->
  _minEntries t <= len xs ->
  Forall (valid_item (_dimension t)) xs ->
  exists t',
    returns (fun fuel => load narrow log_ceil fuel xs t) c (t', c) /\
    height_of (data t') =
      (if len xs <=? _maxEntries t then 1 else log_ceil (len xs) (_maxEntries t)) /\
    _maxEntries t ^ (height_of (data t') - 1) <= len xs <= _maxEntries t ^ height_of (data t').
Proof.
  intros Hn Hl R H0 Hm V.
  destruct (reachable_wf narrow log_ceil Hn Hl t c R) as ((Cf & Hroot) & Cw).
  destruct (cfg_facts t Cf) as (_ & H4 & He & _).
  destruct (load_big_ok narrow log_ceil Hn Hl t c xs Cf Cw Hroot Hm V)
    as (k & root' & E & _ & _).
  exists (set_data t root'). split; [exact (returns_of_bound _ _ _ _ E)|].
  assert (A1 : 1 <= len xs) by lia.
  pose proof (load_empty_height narrow log_ceil k xs t c _ _ H0 Hm A1 (E k (le_n _))) as Hh.
  split; [exact Hh|]. rewrite Hh.
  destruct (Z.leb_spec (len xs) (_maxEntries t)) as [Le|Gt].
  - cbn [Z.sub Z.pow Z.pow_pos Pos.iter Z.mul Pos.mul]. lia.
  - apply Hl; lia.
Qed.

Lemma load_gives_the_computed_height_witness :
  exists t',
    returns (fun fuel => load narrow_to_k ceil_log fuel thirteen_points tree4) warm2
      (t', warm2) /\
    height_of (data t') =
      (if len thirteen_points <=? _maxEntries tree4 then 1
       else ceil_log (len thirteen_points) (_maxEntries tree4)) /\
    _maxEntries tree4 ^ (height_of (data t') - 1) <= len thirteen_points
    <= _maxEntries tree4 ^ height_of (data t').
Proof.
  apply (load_gives_the_computed_height narrow_to_k ceil_log tree4 warm2 thirteen_points).
  - exact narrow_to_k_ok.
  - exact ceil_log_ok.
  - apply reach_tree4.
  - reflexivity.
  - vm_compute. discriminate.
  - exact thirteen_valid.
Defined.











